(** * The dual-agent orchestration core of checkmate, embedded in Rocq

    This development models the TypeScript sources of the daemon

    - [daemon/src/tools.ts]   (class [WorkspaceTools]: allow-list, patch guard,
                               patch application, command runner),
    - [shared/src/types.ts]   (the zod schemas of the agent messages),
    - [daemon/src/orchestrator.ts] (class [Orchestrator]: response parsing,
                               oscillation detector, sub-protocols and the
                               cycle state machine [runCycle])

    as Rocq functions, and states the properties of the specification about
    them.  Pure code is a Rocq function; code that touches the workspace, the
    language models or the event sink is a function in a small monad that
    threads the world and the object's fields and collects what the code
    does, in order.

    Conventions.
    - A JavaScript string is a [string]: the sequence of its code units,
      taken below 256.  Sizes and counters are [Z] or [nat].
    - What belongs to the JavaScript runtime or to a library and not to the
      repository ([path.normalize], [RegExp], [JSON.parse], [execa], the LLM
      back ends) is either modelled by a function that says so in its
      comment, or taken as a variable of the section that uses it. *)

From Stdlib Require Import ZArith QArith Ascii String List Bool Lia.
From stdpp Require Import gmap strings list.

Local Open Scope string_scope.
Local Open Scope stdpp_scope.
Local Open Scope list_scope.

(** ** Strings as JavaScript uses them *)

(** [s.split(sep)] for a one-character separator: never the empty array. *)
Fixpoint split (sep : ascii) (s : string) : list string :=
  match s with
  | EmptyString => [EmptyString]
  | String c s' =>
      if Ascii.eqb c sep then EmptyString :: split sep s'
      else match split sep s' with
           | [] => [String c EmptyString]
           | w :: ws => String c w :: ws
           end
  end.

(** [xs.join(sep)]. *)
Definition join (sep : string) (xs : list string) : string := String.concat sep xs.

(** [s.startsWith(p)]. *)
Definition startsWith (s p : string) : bool := String.prefix p s.

(** The characters of a string, and the tests [Array.prototype.some] and
    [every] over them. *)
Fixpoint chars (s : string) : list ascii :=
  match s with
  | EmptyString => []
  | String c s' => c :: chars s'
  end.

Definition newline : ascii := ascii_of_nat 10.
Definition carriage_return : ascii := ascii_of_nat 13.

(** The line terminators of ECMAScript that fit in one byte: the characters
    a [.] of a regular expression does not match. *)
Definition line_terminator (c : ascii) : bool :=
  Ascii.eqb c newline || Ascii.eqb c carriage_return.

(** ** Results of code that can throw *)

Inductive exn : Type :=
| SyntaxError_RegExp (source : string)
    (* [new RegExp(source)] rejects the pattern *)
| Unmodelled_RegExp (source : string)
    (* the pattern uses syntax outside the fragment of [RegExp] modelled
       below: the model does not say what the code does *)
| ProviderError (message : string).
    (* [LLMProvider.complete] rejected *)

Inductive throws (A : Type) : Type :=
| Ret (a : A)
| Raise (e : exn).
Arguments Ret {A} a.
Arguments Raise {A} e.

(** ** Regular expressions

    [isPathAllowed] builds a [RegExp] from each allow-list entry at run time,
    so the model needs the matcher itself.  The fragment modelled is: literal
    characters, [.], and the quantifiers [*], [+], [?] (greedy or lazy) on
    one character; the whole pattern between [^] and [$].  A pattern that
    contains one of [\ ^ $ ( ) [ ] { } |] is outside the fragment. *)

Inductive re : Type :=
| Void
| Eps
| Chr (c : ascii)
| Dot
| NotChr (c : ascii)       (* the class [[^c]] *)
| Alt (r1 r2 : re)
| Cat (r1 r2 : re)
| Star (r : re).

Fixpoint nullable (r : re) : bool :=
  match r with
  | Void => false
  | Eps => true
  | Chr _ => false
  | Dot => false
  | NotChr _ => false
  | Alt r1 r2 => nullable r1 || nullable r2
  | Cat r1 r2 => nullable r1 && nullable r2
  | Star _ => true
  end.

(** The derivative of a regular expression by a character. *)
Fixpoint deriv (c : ascii) (r : re) : re :=
  match r with
  | Void => Void
  | Eps => Void
  | Chr d => if Ascii.eqb c d then Eps else Void
  | Dot => if line_terminator c then Void else Eps
  | NotChr d => if Ascii.eqb c d then Void else Eps
  | Alt r1 r2 => Alt (deriv c r1) (deriv c r2)
  | Cat r1 r2 =>
      if nullable r1 then Alt (Cat (deriv c r1) r2) (deriv c r2)
      else Cat (deriv c r1) r2
  | Star r1 => Cat (deriv c r1) (Star r1)
  end.

(** [matches r s]: the whole of [s] is a word of [r]. *)
Fixpoint matches (r : re) (s : string) : bool :=
  match s with
  | EmptyString => nullable r
  | String c s' => matches (deriv c r) s'
  end.

(** The words of a regular expression, as a relation: the reference the
    matcher is proved against. *)
Inductive lang : re -> string -> Prop :=
| lang_eps : lang Eps EmptyString
| lang_chr c : lang (Chr c) (String c EmptyString)
| lang_dot c : line_terminator c = false -> lang Dot (String c EmptyString)
| lang_not_chr c d : c <> d -> lang (NotChr d) (String c EmptyString)
| lang_alt_l r1 r2 s : lang r1 s -> lang (Alt r1 r2) s
| lang_alt_r r1 r2 s : lang r2 s -> lang (Alt r1 r2) s
| lang_cat r1 r2 s1 s2 : lang r1 s1 -> lang r2 s2 -> lang (Cat r1 r2) (s1 +:+ s2)
| lang_star_nil r : lang (Star r) EmptyString
| lang_star_cons r s1 s2 :
    lang r s1 -> lang (Star r) s2 -> lang (Star r) (s1 +:+ s2).

Inductive quantifier : Type := QStar | QPlus | QOpt.

Definition quantifier_of (c : ascii) : option quantifier :=
  if Ascii.eqb c "*" then Some QStar
  else if Ascii.eqb c "+" then Some QPlus
  else if Ascii.eqb c "?" then Some QOpt
  else None.

Definition quantify (q : quantifier) (a : re) : re :=
  match q with
  | QStar => Star a
  | QPlus => Cat a (Star a)
  | QOpt => Alt a Eps
  end.

(** One pattern character that stands for itself or, for [.], for any
    character but a line terminator. *)
Definition atom (c : ascii) : re :=
  if Ascii.eqb c "." then Dot else Chr c.

(** The syntax characters of a pattern that the fragment leaves out. *)
Definition outside_fragment (c : ascii) : bool :=
  existsb (Ascii.eqb c) (chars "\^$()[]{}|").

Inductive parsed_pattern : Type :=
| Pattern (r : re)
| NothingToRepeat.

Definition seq_pattern (a : re) (p : parsed_pattern) : parsed_pattern :=
  match p with
  | Pattern r => Pattern (Cat a r)
  | NothingToRepeat => NothingToRepeat
  end.

(** A sequence of terms, each an atom with at most one quantifier, itself
    with at most one lazy mark [?].  A quantifier with no atom before it is
    the syntax error "Nothing to repeat". *)
Fixpoint parse_terms (s : string) : parsed_pattern :=
  match s with
  | EmptyString => Pattern Eps
  | String c s1 =>
      match quantifier_of c with
      | Some _ => NothingToRepeat
      | None =>
          match s1 with
          | EmptyString => Pattern (Cat (atom c) Eps)
          | String q s2 =>
              match quantifier_of q with
              | None => seq_pattern (atom c) (parse_terms s1)
              | Some qq =>
                  match s2 with
                  | EmptyString => Pattern (Cat (quantify qq (atom c)) Eps)
                  | String l s3 =>
                      if Ascii.eqb l "?"
                      then seq_pattern (quantify qq (atom c)) (parse_terms s3)
                      else seq_pattern (quantify qq (atom c)) (parse_terms s2)
                  end
              end
          end
      end
  end.

(** [new RegExp("^" + body + "$").test(s)], for a [body] in the fragment.
    Between the two anchors and with no alternation in the fragment, the test
    succeeds exactly when the whole of [s] is a word of the pattern. *)
Definition RegExp_anchored_test (body s : string) : throws bool :=
  let source := "^" +:+ body +:+ "$" in
  if existsb outside_fragment (chars body) then Raise (Unmodelled_RegExp source)
  else match parse_terms body with
       | NothingToRepeat => Raise (SyntaxError_RegExp source)
       | Pattern r => Ret (matches r s)
       end.

(** ** [path.normalize], POSIX flavour

    Node's library function, written after its documented algorithm: empty
    and [.] segments are dropped, a [..] segment removes the segment before
    it (and is kept at the front of a relative path), a trailing slash is
    kept, and the empty result is [.]. *)

Fixpoint normalize_segments (allowAboveRoot : bool) (segments stack : list string)
  : list string :=
  match segments with
  | [] => rev stack
  | seg :: rest =>
      if String.eqb seg "" || String.eqb seg "." then
        normalize_segments allowAboveRoot rest stack
      else if String.eqb seg ".." then
        match stack with
        | top :: below =>
            if String.eqb top ".." then
              normalize_segments allowAboveRoot rest
                (if allowAboveRoot then ".." :: stack else stack)
            else normalize_segments allowAboveRoot rest below
        | [] =>
            normalize_segments allowAboveRoot rest
              (if allowAboveRoot then [".."] else [])
        end
      else normalize_segments allowAboveRoot rest (seg :: stack)
  end.

Definition ends_with_slash (p : string) : bool :=
  match rev (chars p) with
  | c :: _ => Ascii.eqb c "/"
  | [] => false
  end.

Definition path_normalize (p : string) : string :=
  if String.eqb p "" then "."
  else
    let isAbsolute := startsWith p "/" in
    let trailingSeparator := ends_with_slash p in
    let body := join "/" (normalize_segments (negb isAbsolute) (split "/" p) []) in
    if String.eqb body "" then
      if isAbsolute then "/" else if trailingSeparator then "./" else "."
    else
      let body := if trailingSeparator then body +:+ "/" else body in
      if isAbsolute then "/" +:+ body else body.

(** [path.join(a, b)]: the two parts joined by a slash, normalized. *)
Definition path_join (a b : string) : string :=
  if String.eqb a "" then path_normalize b
  else if String.eqb b "" then path_normalize a
  else path_normalize (a +:+ "/" +:+ b).

(** ** [WorkspaceTools]: the allow-list and the patch guard (tools.ts) *)

(** [allowed.replace(/\*/g, '.*')]. *)
Fixpoint replace_stars (s : string) : string :=
  match s with
  | EmptyString => EmptyString
  | String c s' =>
      if Ascii.eqb c "*" then String "." (String "*" (replace_stars s'))
      else String c (replace_stars s')
  end.

(** The callback of [allowPaths.some] in [isPathAllowed]. *)
Definition allowed_by (normalized allowed : string) : throws bool :=
  let allowedPattern := replace_stars allowed in
  match RegExp_anchored_test allowedPattern normalized with
  | Raise e => Raise e
  | Ret tested => Ret (tested || startsWith normalized allowed)
  end.

(** [allowPaths.some(callback)]: the entries in order, up to the first that
    answers true; an exception of the callback ends the search. *)
Fixpoint some_allowed (normalized : string) (allowPaths : list string) : throws bool :=
  match allowPaths with
  | [] => Ret false
  | allowed :: rest =>
      match allowed_by normalized allowed with
      | Raise e => Raise e
      | Ret true => Ret true
      | Ret false => some_allowed normalized rest
      end
  end.

Definition isPathAllowed (allowPaths : list string) (filePath : string) : throws bool :=
  let normalized := path_normalize filePath in
  some_allowed normalized allowPaths.

Definition plus_or_minus (c : ascii) : bool :=
  Ascii.eqb c "+" || Ascii.eqb c "-".

Definition a_or_b (c : ascii) : bool :=
  Ascii.eqb c "a" || Ascii.eqb c "b".

(** [line.match(/^[+-]{3} [ab]\/(.+)$/)]: the first group when the line
    matches.  Without the [m] flag [$] is the end of the line, and [.+] takes
    one or more characters none of which is a line terminator. *)
Definition header_match (line : string) : option string :=
  match line with
  | String c1 (String c2 (String c3 (String sp (String side (String slash rest))))) =>
      if plus_or_minus c1 && plus_or_minus c2 && plus_or_minus c3
         && Ascii.eqb sp " " && a_or_b side && Ascii.eqb slash "/"
         && negb (String.eqb rest "")
         && forallb (fun c => negb (line_terminator c)) (chars rest)
      then Some rest
      else None
  | _ => None
  end.

(** The body of the first loop of [validatePatch], for one line. *)
Definition header_paths (line : string) : list string :=
  if startsWith line "--- " || startsWith line "+++ " then
    match header_match line with
    | Some p => if negb (String.eqb p "/dev/null") then [p] else []
    | None => []
    end
  else [].

(** [filePaths] after the first loop of [validatePatch]. *)
Definition touched_paths (patch : string) : list string :=
  flat_map header_paths (split newline patch).

(** The result [{ valid, error? }] of [validatePatch]. *)
Record Validation : Type := mkValidation {
  valid : bool;
  validation_error : option string
}.

(** The second loop of [validatePatch]. *)
Fixpoint check_paths (allowPaths filePaths : list string) : throws Validation :=
  match filePaths with
  | [] => Ret (mkValidation true None)
  | filePath :: rest =>
      match isPathAllowed allowPaths filePath with
      | Raise e => Raise e
      | Ret false =>
          Ret (mkValidation false (Some ("Patch touches disallowed path: " +:+ filePath)))
      | Ret true => check_paths allowPaths rest
      end
  end.

Definition validatePatch (allowPaths : list string) (patch : string) : throws Validation :=
  check_paths allowPaths (touched_paths patch).

(** ** The allow-list of the later [tools.ts]

    The repository holds a second, later text of [tools.ts] (it follows the
    README).  Its allow-list translates a glob with [globToRegExp]; its
    other functions are those above but for [applyPatch] (see
    [applyPatch_later] below). *)

(** [value.replace(/\\/g, '/')]: backslashes become slashes. *)
Fixpoint normalizePath (value : string) : string :=
  match value with
  | EmptyString => EmptyString
  | String c rest =>
      String (if Ascii.eqb c "\" then "/"%char else c) (normalizePath rest)
  end.

(** How [globToRegExp] writes one character other than [*]: [?] becomes
    the class [[^/]]; any other character stands for itself, escaped when
    it is a syntax character of patterns. *)
Definition glob_char (c : ascii) : re :=
  if Ascii.eqb c "?" then NotChr "/" else Chr c.

(** The pattern [(?:.*/)?]: zero or more leading directories. *)
Definition any_directories : re := Alt (Cat (Star Dot) (Chr "/")) Eps.

(** The loop of [globToRegExp], from a position of the pattern on.
    [in_stars] says that the position follows a run of two or more [*]
    that the loop is still skipping. *)
Fixpoint globToRegExp_from (in_stars : bool) (pattern : string) : re :=
  match pattern with
  | EmptyString => if in_stars then Cat (Star Dot) Eps else Eps
  | String c rest =>
      if in_stars then
        if Ascii.eqb c "*" then globToRegExp_from true rest
        else if Ascii.eqb c "/" then Cat any_directories (globToRegExp_from false rest)
        else Cat (Star Dot) (Cat (glob_char c) (globToRegExp_from false rest))
      else if Ascii.eqb c "*" then
        match rest with
        | String next rest' =>
            if Ascii.eqb next "*" then globToRegExp_from true rest'
            else Cat (Star (NotChr "/")) (globToRegExp_from false rest)
        | EmptyString => Cat (Star (NotChr "/")) Eps
        end
      else Cat (glob_char c) (globToRegExp_from false rest)
  end.

(** [globToRegExp(pattern)], as the pattern between [^] and [$] that its
    source text denotes. *)
Definition globToRegExp (pattern : string) : re := globToRegExp_from false pattern.

Definition contains_star (s : string) : bool := existsb (Ascii.eqb "*") (chars s).

Definition ensure_trailing_slash (s : string) : string :=
  if ends_with_slash s then s else s +:+ "/".

(** The callback of [allowPaths.some] in the later [isPathAllowed]. *)
Definition allowed_by_later (normalized allowed : string) : bool :=
  let allowedNormalized := normalizePath allowed in
  if contains_star allowedNormalized then
    matches (globToRegExp allowedNormalized) normalized
  else if String.eqb normalized allowedNormalized then true
  else startsWith normalized (ensure_trailing_slash allowedNormalized).

Definition isPathAllowed_later (allowPaths : list string) (filePath : string) : bool :=
  existsb (allowed_by_later (normalizePath filePath)) allowPaths.

Fixpoint check_paths_later (allowPaths filePaths : list string) : Validation :=
  match filePaths with
  | [] => mkValidation true None
  | filePath :: rest =>
      if isPathAllowed_later allowPaths filePath then check_paths_later allowPaths rest
      else mkValidation false (Some ("Patch touches disallowed path: " +:+ filePath))
  end.

Definition validatePatch_later (allowPaths : list string) (patch : string) : Validation :=
  check_paths_later allowPaths (touched_paths patch).

(** ** The data model (shared/src/types.ts) *)

Inductive Severity : Type := critical | major | minor.

Record Issue : Type := mkIssue {
  severity : Severity;
  description : string;
  how_to_verify : option string;
  issue_id : option string;
  uncertain : option bool          (* the field [uncertainty] *)
}.

Inductive Verdict : Type := approve | request_changes | block.

Inductive BlockReason : Type := definite_bug | uncertainty | needs_human.

Record Review : Type := mkReview {
  verdict : Verdict;
  issues : list Issue;
  suggested_patch : option string;
  extra_tests : option (list string);
  stopping : string;
  block_reason : option BlockReason;
  diagnostics_needed : option (list string)
}.

Record BuilderMessage : Type := mkBuilderMessage {
  files_needed : option (list string);
  plan : option (list string);
  patch : option string;
  tests : option (list string);
  run : option (list string);
  risks : option (list string)
}.

Inductive Decision : Type := accept_builder | accept_reviewer | reject_both.

Record ModeratorDecision : Type := mkModeratorDecision {
  decision : Decision;
  reasoning : string
}.

Inductive ArbiterOutcome : Type := bug_confirmed | bug_refuted | test_invalid.

Record ArbiterTestResult : Type := mkArbiterTestResult {
  test_added : bool;
  test_patch : option string;
  test_passed : option bool;
  outcome : ArbiterOutcome;
  explanation : string
}.

Inductive ReviewMode : Type := always | selective | final_only.

Inductive Strictness : Type := lenient | balanced | strict.

Inductive Provider : Type := openai | anthropic.

(** [Config].  [max_iterations] is a [z.number()]; the model takes it as an
    integer, of any sign. *)
Record Config : Type := mkConfig {
  test_command : string;
  allow_paths : list string;
  max_iterations : Z;
  review_mode : ReviewMode;
  review_on_test_pass : bool;
  enable_moderator : bool;
  moderator_provider : option Provider;
  moderator_model : option string;
  context_summary_threshold : Z;
  review_strictness : Strictness
}.

(** ** JSON values and the zod schemas *)

(** What [JSON.parse] returns.  A number keeps its numerator and denominator
    only: no schema of the agent messages has a numeric field. *)
#[warnings="-register-all"]
Inductive json : Type :=
| JNull
| JBool (b : bool)
| JNumber (q : Q)
| JString (s : string)
| JArray (items : list json)
| JObject (properties : list (string * json)).

Definition schema (A : Type) : Type := json -> option A.

(** The value of an own property, [None] for [undefined]. *)
Fixpoint property (key : string) (properties : list (string * json)) : option json :=
  match properties with
  | [] => None
  | (k, v) :: rest => if String.eqb k key then Some v else property key rest
  end.

Definition z_string : schema string :=
  fun v => match v with JString s => Some s | _ => None end.

Definition z_boolean : schema bool :=
  fun v => match v with JBool b => Some b | _ => None end.

Definition z_array {A : Type} (element : schema A) : schema (list A) :=
  fun v => match v with JArray items => mapM element items | _ => None end.

(** [z.enum([...])]: a string that is one of the listed ones. *)
Definition z_enum {A : Type} (values : list (string * A)) : schema A :=
  fun v =>
    match v with
    | JString s => snd <$> List.find (fun kv => String.eqb (fst kv) s) values
    | _ => None
    end.

(** A required key of a [z.object]: absent is a validation failure. *)
Definition required {A : Type} (s : schema A) (v : option json) : option A :=
  v ≫= s.

(** [.optional()]: absent is accepted, anything present must validate
    ([null] does not). *)
Definition optional {A : Type} (s : schema A) (v : option json) : option (option A) :=
  match v with
  | None => Some None
  | Some x => Some <$> s x
  end.

Definition SeveritySchema : schema Severity :=
  z_enum [("critical", critical); ("major", major); ("minor", minor)].

Definition IssueSchema : schema Issue :=
  fun v =>
    match v with
    | JObject o =>
        sev ← required SeveritySchema (property "severity" o);
        desc ← required z_string (property "description" o);
        how ← optional z_string (property "how_to_verify" o);
        id ← optional z_string (property "issue_id" o);
        unc ← optional z_boolean (property "uncertainty" o);
        Some (mkIssue sev desc how id unc)
    | _ => None
    end.

Definition ReviewSchema : schema Review :=
  fun v =>
    match v with
    | JObject o =>
        verd ← required
                 (z_enum [("approve", approve); ("request_changes", request_changes);
                          ("block", block)])
                 (property "verdict" o);
        iss ← required (z_array IssueSchema) (property "issues" o);
        sugg ← optional z_string (property "suggested_patch" o);
        extra ← optional (z_array z_string) (property "extra_tests" o);
        stop ← required z_string (property "stopping" o);
        reason ← optional
                   (z_enum [("definite_bug", definite_bug); ("uncertainty", uncertainty);
                            ("needs_human", needs_human)])
                   (property "block_reason" o);
        diag ← optional (z_array z_string) (property "diagnostics_needed" o);
        Some (mkReview verd iss sugg extra stop reason diag)
    | _ => None
    end.

Definition BuilderMessageSchema : schema BuilderMessage :=
  fun v =>
    match v with
    | JObject o =>
        files ← optional (z_array z_string) (property "files_needed" o);
        pl ← optional (z_array z_string) (property "plan" o);
        pa ← optional z_string (property "patch" o);
        te ← optional (z_array z_string) (property "tests" o);
        ru ← optional (z_array z_string) (property "run" o);
        ri ← optional (z_array z_string) (property "risks" o);
        Some (mkBuilderMessage files pl pa te ru ri)
    | _ => None
    end.

Definition ModeratorDecisionSchema : schema ModeratorDecision :=
  fun v =>
    match v with
    | JObject o =>
        dec ← required
                (z_enum [("accept_builder", accept_builder);
                         ("accept_reviewer", accept_reviewer);
                         ("reject_both", reject_both)])
                (property "decision" o);
        rea ← required z_string (property "reasoning" o);
        Some (mkModeratorDecision dec rea)
    | _ => None
    end.

(** ** Events (type [OrchestratorEvent]) *)

(** A template literal: its literal parts and the values put between them. *)
Inductive fragment : Type :=
| lit (s : string)
| num (n : Z)
| rounded_percent (similarity : Q)   (* [Math.round(similarity * 100)] *)
| library_message                    (* the text of an error of zod or JSON.parse *)
| read_failure (filePath : string).  (* [File not found: filePath] when nothing is at
                                        the path; the message of the error that
                                        [readFileSync] throws when what is there
                                        cannot be read (a directory, say) *)

Definition message : Type := list fragment.

(** What [runCommand] answers.  [exitCode] is [undefined], here [None],
    for a child that has no exit code: one that could not be spawned or
    that a signal has ended. *)
Record CommandResult : Type := mkCommandResult {
  stdout : string;
  stderr : string;
  exitCode : option Z
}.

(** [exitCode === 0]. *)
Definition is_zero (code : option Z) : bool :=
  match code with
  | Some n => (n =? 0)%Z
  | None => false
  end.

(** An exit code inside a template literal. *)
Definition code_text (code : option Z) : fragment :=
  match code with
  | Some n => num n
  | None => lit "undefined"
  end.

Inductive Role : Type := builder | reviewer | moderator.

Inductive OrchestratorEvent : Type :=
| status (msg : message)
| stream_chunk (role : Role) (chunk : string)
| patch_ready (p : string)
| tests_output (result : CommandResult)
| review_ready (review : Review)
| moderator_decision (d : ModeratorDecision)
| arbiter_mode (issue : Issue)
| arbiter_result (result : ArbiterTestResult)
| diagnostic_run (commands : list string)
| cycle_complete (success : bool) (msg : message) (iterations : Z)
| error (msg : message).

(** ** The oscillation detector, pure part (orchestrator.ts) *)

(** [new Set(patch.split('\n'))]. *)
Definition line_set (p : string) : gset string := list_to_set (split newline p).

(** [patchSimilarity]: Jaccard similarity of the two sets of lines.  The
    quotient of the two sizes is kept exact and the union is never empty.
    The code divides two doubles and compares the result with the double
    nearest to 0.95; as division rounds to nearest, that comparison gives
    the answer of the exact one whenever the union has fewer than 10^15
    lines, more than a string can hold. *)
Definition patchSimilarity (patch1 patch2 : string) : Q :=
  if String.eqb patch1 patch2 then 1%Q
  else
    let lines1 := line_set patch1 in
    let lines2 := line_set patch2 in
    let intersection := lines1 ∩ lines2 in
    let union := lines1 ∪ lines2 in
    Qmake (Z.of_nat (size intersection)) (Pos.of_nat (size union)).

(** [patchHistory.includes(currentPatch)]. *)
Definition includes (history : list string) (p : string) : bool :=
  existsb (String.eqb p) history.

(** [similarity > 0.95]. *)
Definition above_threshold (similarity : Q) : bool :=
  negb (Qle_bool similarity (95 # 100)).

(** What [detectOscillation] answers: [None] when it returns false, the
    status message it emits when it returns true. *)
Definition oscillation (history : list string) (currentPatch : string) : option message :=
  if includes history currentPatch then
    Some [lit "Oscillation detected: identical patch repeated"]
  else if (2 <=? length history)%nat then
    match last history with
    | Some lastPatch =>
        let similarity := patchSimilarity lastPatch currentPatch in
        if above_threshold similarity then
          Some [lit "Oscillation detected: patches are "; rounded_percent similarity;
                lit "% similar"]
        else None
    | None => None
    end
  else None.

(** ** What the agents are shown *)

(** The shared state of [buildSharedState], before it is laid out as text. *)
Record SharedState : Type := mkSharedState {
  goal : string;
  constraints : list string;
  recent_diff : option string;
  last_test_output : option CommandResult;
  open_issues : list message
}.

(** The user prompts of the four kinds of [complete] calls of a cycle. *)
Inductive Prompt : Type :=
| BuilderPrompt (sharedState : SharedState)
| ArbiterPrompt (sharedState : SharedState) (stuckIssue : Issue)
| ReviewerPrompt (strictness : Strictness) (sharedState : SharedState)
    (builderMessage : BuilderMessage) (lastPatch : string)
| ModeratorPrompt (userRequest lastPatch : string) (lastReview : Review)
    (testsPass : bool).

(** What becomes of a child process.  It runs to its end, with an exit
    code or, when a signal ends it, without one; or it cannot be spawned
    and emits an [error] event ([ENOENT], [EACCES]); or [spawn] itself
    throws ([E2BIG], a null byte in an argument).  [msg] is the message of
    the error that is made of it. *)
Inductive ChildResult : Type :=
| Exited (result : CommandResult)
| SpawnFailed (msg : string)
| SpawnThrew (msg : string).

(** What [LLMProvider.complete] does: the chunks it streams, then either the
    full text or a rejection.  The text is given as [parseJSON] sees it after
    [trim], the fence pattern and [JSON.parse]: the parsed value, or [None]
    when [JSON.parse] throws. *)
Inductive Completion : Type :=
| Replied (chunks : list string) (parsed : option json)
| Rejected (chunks : list string) (msg : string).

(** What the code does that an observer can see, in order. *)
Inductive Obs : Type :=
| Emit (e : OrchestratorEvent)                  (* [this.emit(e)] *)
| Complete (role : Role) (prompt : Prompt)     (* a call of [complete] *)
| Exec (command : string) (args : list string). (* a child process started *)

Definition nl : string := String newline EmptyString.
Definition dquote : string := String (ascii_of_nat 34) EmptyString.


(** ** More of [WorkspaceTools] *)

(** The four beginnings of a header line that the patch guard reads. *)
Definition header_prefixes : list string := ["--- a/"; "--- b/"; "+++ a/"; "+++ b/"].

(** The line ending of a text with CR LF line endings. *)
Definition crlf : string := String carriage_return nl.

(** The number of slashes of a path: one less than its number of segments. *)
Definition slashes (s : string) : nat := length (List.filter (Ascii.eqb "/") (chars s)).

(** A glob in which two [*] follow each other. *)
Fixpoint has_double_star (pattern : string) : bool :=
  match pattern with
  | String c rest =>
      match rest with
      | String next _ => Ascii.eqb c "*" && Ascii.eqb next "*" || has_double_star rest
      | EmptyString => false
      end
  | EmptyString => false
  end.

(** *** [listFiles] *)

(** An entry of a directory as [fs.readdirSync(dir, { withFileTypes: true })]
    gives it, a directory taken with the entries a later [readdirSync] finds
    in it.  An entry that is not a directory is listed as a file. *)
#[warnings="-register-all"]
Inductive Dirent : Type :=
| FileEntry (name : string)
| DirEntry (name : string) (entries : list Dirent).

Definition entry_name (entry : Dirent) : string :=
  match entry with
  | FileEntry name => name
  | DirEntry name _ => name
  end.

(** [entry.name.startsWith('.') || entry.name === 'node_modules']. *)
Definition skipped (name : string) : bool :=
  startsWith name "." || String.eqb name "node_modules".

(** [walk(dir, depth)], given the entries of [dir] and what the loop does
    with one entry: the paths pushed to [files], in order. *)
Definition walk_with (turn : Dirent -> string -> nat -> list string)
  (entries : list Dirent) (dir : string) (depth : nat) : list string :=
  if (2 <? depth)%nat then []
  else flat_map (fun entry => turn entry dir depth) entries.

(** One turn of the [for] loop of [walk(dir, depth)]. *)
Fixpoint walk_entry (entry : Dirent) (dir : string) (depth : nat) : list string :=
  let relativePath := path_join dir (entry_name entry) in
  if skipped (entry_name entry) then []
  else match entry with
       | DirEntry _ below => walk_with walk_entry below relativePath (depth + 1)
       | FileEntry _ => [relativePath]
       end.

Definition walk : list Dirent -> string -> nat -> list string := walk_with walk_entry.

(** [listFiles()], given the entries of the workspace root. *)
Definition listFiles (root : list Dirent) : list string := walk root "" 0.

(** The names along a way from a directory down to a file. *)
Inductive file_at : list Dirent -> list string -> Prop :=
| file_here entries name :
    In (FileEntry name) entries -> file_at entries [name]
| file_below entries name below names :
    In (DirEntry name below) entries -> file_at below names ->
    file_at entries (name :: names).

(** A name as a file system gives them: not empty and without a slash. *)
Definition plain_name (name : string) : bool :=
  negb (String.eqb name "") && forallb (fun c => negb (Ascii.eqb c "/")) (chars name).

Fixpoint well_named_entry (entry : Dirent) : bool :=
  plain_name (entry_name entry)
  && match entry with
     | DirEntry _ below => forallb well_named_entry below
     | FileEntry _ => true
     end.

Definition well_named (entries : list Dirent) : bool := forallb well_named_entry entries.

(** A name that [walk] goes through or lists. *)
Definition listed_name (name : string) : bool := plain_name name && negb (skipped name).

(** *** [gitStatusSummary] *)

(** The four lists of [git.status()] that the summary reads. *)
Record StatusResult : Type := mkStatusResult {
  modified : list string;
  created : list string;
  deleted : list string;
  not_added : list string
}.

(** [if (paths.length > 0) lines.push(label + paths.join(', '))]. *)
Definition status_line (label : string) (paths : list string) : list string :=
  match paths with
  | [] => []
  | _ :: _ => [label +:+ join ", " paths]
  end.

Definition gitStatusSummary (status : StatusResult) : string :=
  let summary :=
    join nl (status_line "Modified: " (modified status)
             ++ status_line "Created: " (created status)
             ++ status_line "Deleted: " (deleted status)
             ++ status_line "Untracked: " (not_added status)) in
  if String.eqb summary "" then "No changes" else summary.

(** ** The LLM back ends (llm-providers.ts) *)

(** What the client library of a back end yields to [for await]: items,
    then the end of the stream or a failure. *)
Inductive Stream (Item : Type) : Type :=
| Done
| Next (item : Item) (rest : Stream Item)
| Failed (msg : string).
Arguments Done {Item}.
Arguments Next {Item} item rest.
Arguments Failed {Item} msg.

(** The items a stream yields before it ends or fails. *)
Fixpoint stream_items {Item : Type} (stream : Stream Item) : list Item :=
  match stream with
  | Next item rest => item :: stream_items rest
  | _ => []
  end.

(** The interface [LLMProvider]: [complete] is given here whether the
    caller has passed the optional callback [onChunk], and the stream that
    the request has opened; it returns the chunks passed to [onChunk], in
    order, and the text it resolves with or the failure it rejects with. *)
Class LLMProvider (Item : Type) : Type :=
  provider_complete : bool -> Stream Item -> list string * throws string.

(** The loop of [complete], shared by the two classes: [content_of] is
    what an item adds to [fullResponse], if anything; what is added is
    passed to [onChunk] when there is one ([if (onChunk)]). *)
Fixpoint consume {Item : Type} (content_of : Item -> option string) (onChunk : bool)
  (stream : Stream Item) (fullResponse : string) : list string * throws string :=
  match stream with
  | Done => ([], Ret fullResponse)
  | Failed msg => ([], Raise (ProviderError msg))
  | Next item rest =>
      match content_of item with
      | Some content =>
          let '(chunks, result) :=
            consume content_of onChunk rest (fullResponse +:+ content) in
          (if onChunk then content :: chunks else chunks, result)
      | None => consume content_of onChunk rest fullResponse
      end
  end.

(** [OpenAIProvider]: an item is given by [chunk.choices[0]?.delta?.content],
    which may be missing; [content || ''] is added when it is not empty. *)
Definition OpenAI_content (content : option string) : option string :=
  match content with
  | Some text => if String.eqb text "" then None else Some text
  | None => None
  end.

#[export] Instance OpenAIProvider : LLMProvider (option string) :=
  fun onChunk stream => consume OpenAI_content onChunk stream "".

(** [AnthropicProvider]: the events of the stream; the text of a
    [content_block_delta] whose delta is a [text_delta] is added, empty or
    not. *)
Inductive AnthropicDelta : Type :=
| text_delta (text : string)
| other_delta.

Inductive AnthropicEvent : Type :=
| content_block_delta (delta : AnthropicDelta)
| other_event.

Definition Anthropic_content (chunk : AnthropicEvent) : option string :=
  match chunk with
  | content_block_delta (text_delta text) => Some text
  | _ => None
  end.

#[export] Instance AnthropicProvider : LLMProvider AnthropicEvent :=
  fun onChunk stream => consume Anthropic_content onChunk stream "".

(** The items of the stream of each back end, and [createProvider]. *)
Definition ProviderItem (provider : Provider) : Type :=
  match provider with
  | openai => option string
  | anthropic => AnthropicEvent
  end.

Definition createProvider (provider : Provider) : LLMProvider (ProviderItem provider) :=
  match provider with
  | openai => OpenAIProvider
  | anthropic => AnthropicProvider
  end.


(** ** The messages of a client (shared/src/types.ts) *)

Inductive ClientMessage : Type :=
| run_cycle (request : string)
| apply_patch (patch_text : string)
| run_tests.

(** [ClientMessageSchema], a [z.discriminatedUnion] on the key [type]. *)
Definition ClientMessageSchema : schema ClientMessage :=
  fun v =>
    match v with
    | JObject o =>
        match property "type" o with
        | Some (JString type) =>
            if String.eqb type "run_cycle" then
              request ← required z_string (property "request" o);
              Some (run_cycle request)
            else if String.eqb type "apply_patch" then
              patch_text ← required z_string (property "patch" o);
              Some (apply_patch patch_text)
            else if String.eqb type "run_tests" then Some run_tests
            else None
        | _ => None
        end
    | _ => None
    end.

Section Machine.

(** The environment: the files of the workspace that can be read, with
    their texts, and everything else (the state of the LLM back ends and of
    the operating system), of which the model knows only how it answers. *)
Context {Ext : Type}.

Record World : Type := mkWorld {
  files : gmap string string;
  ext : Ext
}.

Variable run_child : string -> list string -> World -> ChildResult * World.
Variable complete : Role -> Prompt -> World -> Completion * World.

(** The constructor arguments of [Orchestrator] and [WorkspaceTools]. *)
Variable config : Config.
Variable workspaceRoot : string.

(** The mutable fields of the [Orchestrator] object, with the world. *)
Record State : Type := mkState {
  world : World;
  patchHistory : list string;
  reviewHistory : list Review;
  builderMessages : list BuilderMessage
}.

(** Computations: from a state to a result or an exception, the
    observations made, and the state after. *)
Definition M (A : Type) : Type := State -> throws A * list Obs * State.

Definition ret {A : Type} (a : A) : M A := fun σ => (Ret a, [], σ).

Definition bind {A B : Type} (m : M A) (f : A -> M B) : M B :=
  fun σ =>
    match m σ with
    | (Raise e, l1, σ1) => (Raise e, l1, σ1)
    | (Ret a, l1, σ1) =>
        match f a σ1 with
        | (r, l2, σ2) => (r, l1 ++ l2, σ2)
        end
    end.

Notation "'let*' x ':=' m 'in' k" := (bind m (fun x => k))
  (at level 10, x binder, m at level 200, k at level 200).
Notation "'perform' m 'then' k" := (bind m (fun _ => k))
  (at level 10, m at level 200, k at level 200).

Definition raise {A : Type} (e : exn) : M A := fun σ => (Raise e, [], σ).

(** [try { m } catch (err) { ... }]: the exception becomes a value. *)
Definition attempt {A : Type} (m : M A) : M (exn + A) :=
  fun σ =>
    match m σ with
    | (Raise e, l, σ1) => (Ret (inl e), l, σ1)
    | (Ret a, l, σ1) => (Ret (inr a), l, σ1)
    end.

Definition lift {A : Type} (r : throws A) : M A := fun σ => (r, [], σ).

Definition observe (o : Obs) : M unit := fun σ => (Ret tt, [o], σ).

Definition emit (e : OrchestratorEvent) : M unit := observe (Emit e).

Definition get : M State := fun σ => (Ret σ, [], σ).

Definition put (σ' : State) : M unit := fun _ => (Ret tt, [], σ').

Definition set_world (w : World) (σ : State) : State :=
  mkState w (patchHistory σ) (reviewHistory σ) (builderMessages σ).

Definition set_files (f : gmap string string) (w : World) : World :=
  mkWorld f (ext w).

(** [for (const x of xs) { body }] with no [break]. *)
Fixpoint for_each {A : Type} (xs : list A) (body : A -> M unit) : M unit :=
  match xs with
  | [] => ret tt
  | x :: rest => perform body x then for_each rest body
  end.

(** *** The file system ([fs]) *)

Definition writeFileSync (path content : string) : M unit :=
  fun σ => (Ret tt, [], set_world (set_files (<[path := content]> (files (world σ))) (world σ)) σ).

(** [fs.unlinkSync]: [false] when it throws because there is no such file. *)
Definition unlinkSync (path : string) : M bool :=
  fun σ =>
    match files (world σ) !! path with
    | Some _ => (Ret true, [], set_world (set_files (delete path (files (world σ))) (world σ)) σ)
    | None => (Ret false, [], σ)
    end.

(** [fs.readFileSync(path, 'utf-8')]: the text of the file, [None] when
    there is no file at the path that can be read. *)
Definition readFileSync (path : string) : M (option string) :=
  fun σ => (Ret (files (world σ) !! path), [], σ).

(** *** [execa] *)

Inductive ExecaOutcome : Type :=
| Resolved (result : CommandResult)
| RejectedExit (result : CommandResult)   (* exit code not 0, option [reject] on *)
| RejectedSpawn (msg : string).

(** [execa(command, args, { cwd, reject })].  The promise rejects when
    [spawn] throws.  Otherwise it waits for the child and makes an error of
    an [error] event, of an exit code other than 0 and of a signal; it
    rejects with that error unless [reject] is false, and then resolves with
    it: the error of a child that could not be spawned has no exit code and
    empty outputs. *)
Definition execa (reject : bool) (command : string) (args : list string) : M ExecaOutcome :=
  fun σ =>
    match run_child command args (world σ) with
    | (Exited result, w) =>
        (Ret (if reject && negb (is_zero (exitCode result))
              then RejectedExit result else Resolved result),
         [Exec command args], set_world w σ)
    | (SpawnFailed msg, w) =>
        (Ret (if reject then RejectedSpawn msg else Resolved (mkCommandResult "" "" None)),
         [Exec command args], set_world w σ)
    | (SpawnThrew msg, w) =>
        (Ret (RejectedSpawn msg), [Exec command args], set_world w σ)
    end.

(** *** [WorkspaceTools], the part with effects (tools.ts) *)

Inductive FileRead : Type :=
| FileText (content : string)
| FileError (msg : message).

(** [readFile] inside the [try] of [readFiles]: the text of the file, or the
    [ERROR: ...] entry of the [catch], be it for the error of [readFile]
    itself or for one that [readFileSync] throws.  An allow-list pattern
    outside the modelled fragment leaves the entry undetermined. *)
Definition readFile_caught (filePath : string) : M (throws FileRead) :=
  match isPathAllowed (allow_paths config) filePath with
  | Raise (Unmodelled_RegExp src) => ret (Raise (Unmodelled_RegExp src))
  | Raise _ => ret (Ret (FileError [lit "ERROR: "; library_message]))
  | Ret false =>
      ret (Ret (FileError [lit "ERROR: "; lit "Path "; lit filePath; lit " is not in allowlist"]))
  | Ret true =>
      let* content := readFileSync (path_join workspaceRoot filePath) in
      match content with
      | None => ret (Ret (FileError [lit "ERROR: "; read_failure filePath]))
      | Some text => ret (Ret (FileText text))
      end
  end.

Fixpoint readFiles_from (filePaths : list string) (result : gmap string (throws FileRead))
  : M (gmap string (throws FileRead)) :=
  match filePaths with
  | [] => ret result
  | filePath :: rest =>
      let* entry := readFile_caught filePath in
      readFiles_from rest (<[filePath := entry]> result)
  end.

Definition readFiles (filePaths : list string) : M (gmap string (throws FileRead)) :=
  readFiles_from filePaths ∅.

Record ApplyResult : Type := mkApplyResult {
  success : bool;
  apply_error : option message
}.

Definition tempPatchFile : string := path_join workspaceRoot ".dualagent-temp.patch".

(** [err.stderr || err.message] of what [execa] rejects with. *)
Definition stderr_or_message (o : ExecaOutcome) : fragment :=
  match o with
  | RejectedExit result =>
      if String.eqb (stderr result) "" then library_message else lit (stderr result)
  | RejectedSpawn msg => lit msg
  | Resolved _ => library_message
  end.

Definition applyPatch (p : string) : M ApplyResult :=
  let* validation := lift (validatePatch (allow_paths config) p) in
  if negb (valid validation) then
    ret (mkApplyResult false (option_map (fun e => [lit e]) (validation_error validation)))
  else
    perform writeFileSync tempPatchFile p then
    let* applied := execa true "git" ["apply"; "--whitespace=nowarn"; tempPatchFile] in
    match applied with
    | Resolved _ =>
        let* removed := unlinkSync tempPatchFile in
        if removed then ret (mkApplyResult true None)
        else ret (mkApplyResult false (Some [lit "Failed to apply patch: "; library_message]))
    | rejected =>
        ret (mkApplyResult false
               (Some [lit "Failed to apply patch: "; stderr_or_message rejected]))
    end.

(** [runCommand]: what [execa] resolves with, or the answer of the
    [catch]. *)
Definition runCommand (command : string) (args : list string) : M CommandResult :=
  let* r := execa false command args in
  match r with
  | Resolved result => ret result
  | RejectedExit result => ret result
  | RejectedSpawn msg => ret (mkCommandResult "" msg (Some 1%Z))
  end.

Definition existsSync (path : string) : M bool :=
  fun σ => (Ret (bool_decide (is_Some (files (world σ) !! path))), [], σ).

(** [result.stderr || result.stdout || 'Unknown error']. *)
Definition first_nonempty (a b c : string) : string :=
  if negb (String.eqb a "") then a else if negb (String.eqb b "") then b else c.

(** [runProcess] of the later [tools.ts]: it resolves with the outputs and
    the exit code of the child, [code ?? 0], and rejects when the child
    cannot be spawned. *)
Definition runProcess (command : string) (args : list string) : M ExecaOutcome :=
  fun σ =>
    match run_child command args (world σ) with
    | (Exited result, w) =>
        (Ret (Resolved (mkCommandResult (stdout result) (stderr result)
                          (Some (default 0%Z (exitCode result))))),
         [Exec command args], set_world w σ)
    | (SpawnFailed msg, w) | (SpawnThrew msg, w) =>
        (Ret (RejectedSpawn msg), [Exec command args], set_world w σ)
    end.

(** [applyPatch] of the later [tools.ts]: the temporary file is removed in
    a [finally] block. *)
Definition applyPatch_later (p : string) : M ApplyResult :=
  let validation := validatePatch_later (allow_paths config) p in
  if negb (valid validation) then
    ret (mkApplyResult false (option_map (fun e => [lit e]) (validation_error validation)))
  else
    perform writeFileSync tempPatchFile p then
    let* applied := runProcess "git" ["apply"; "--whitespace=nowarn"; tempPatchFile] in
    let answer :=
      match applied with
      | Resolved result | RejectedExit result =>
          if negb (is_zero (exitCode result)) then
            mkApplyResult false
              (Some [lit "Failed to apply patch: ";
                     lit (first_nonempty (stderr result) (stdout result) "Unknown error")])
          else mkApplyResult true None
      | RejectedSpawn msg =>
          mkApplyResult false (Some [lit "Failed to apply patch: "; lit msg])
      end in
    let* present := existsSync tempPatchFile in
    perform (if present then let* removed := unlinkSync tempPatchFile in ret tt else ret tt) then
    ret answer.

(** *** [Orchestrator]: parsing, detector and sub-protocols (orchestrator.ts) *)

(** A call [provider.complete(system, prompt, chunk => emit(stream_chunk))]:
    the chunks are emitted as they come; a rejection is thrown. *)
Definition complete_streaming (role : Role) (prompt : Prompt) : M (option json) :=
  fun σ =>
    match complete role prompt (world σ) with
    | (Replied chunks parsed, w) =>
        (Ret parsed,
         Complete role prompt :: map (fun c => Emit (stream_chunk role c)) chunks,
         set_world w σ)
    | (Rejected chunks msg, w) =>
        (Raise (ProviderError msg),
         Complete role prompt :: map (fun c => Emit (stream_chunk role c)) chunks,
         set_world w σ)
    end.

(** [parseJSON(text, schema)], from the point where [JSON.parse] has run. *)
Definition parseJSON {T : Type} (parsed : option json) (s : schema T) : M (option T) :=
  match parsed with
  | None =>
      perform emit (error [lit "Failed to parse JSON: "; library_message]) then
      ret None
  | Some v =>
      match s v with
      | Some data => ret (Some data)
      | None =>
          perform emit (error [lit "Schema validation failed: "; library_message]) then
          ret None
      end
  end.

Definition detectOscillation (currentPatch : string) : M bool :=
  let* σ := get in
  match oscillation (patchHistory σ) currentPatch with
  | Some msg => perform emit (status msg) then ret true
  | None => ret false
  end.

(** A string of an optional field used as a condition: [undefined] and the
    empty string are false. *)
Definition truthy (o : option string) : option string :=
  match o with
  | Some s => if String.eqb s "" then None else Some s
  | None => None
  end.

Definition critical_or_major (s : Severity) : bool :=
  match s with
  | critical | major => true
  | minor => false
  end.

Definition same_issue_id (a b : option string) : bool :=
  match a, b with
  | Some x, Some y => String.eqb x y
  | None, None => true
  | _, _ => false
  end.

Definition findStuckIssues_in (reviewHistory : list Review) : list Issue :=
  match rev reviewHistory with
  | lastReview :: prevReview :: _ =>
      List.filter
        (fun issue =>
           match truthy (issue_id issue) with
           | None => false
           | Some _ =>
               existsb
                 (fun prevIssue =>
                    same_issue_id (issue_id prevIssue) (issue_id issue)
                    && critical_or_major (severity prevIssue))
                 (issues prevReview)
           end)
        (issues lastReview)
  | _ => []
  end.

Definition findStuckIssues : M (list Issue) :=
  let* σ := get in ret (findStuckIssues_in (reviewHistory σ)).

(** [const parts = cmd.split(' ')], then [parts[0]] and [parts.slice(1)]. *)
Definition command_of (cmd : string) : string := hd "" (split " " cmd).
Definition args_of (cmd : string) : list string := tl (split " " cmd).

Definition diagnostic_block (cmd : string) (result : CommandResult) : message :=
  [lit "=== "; lit cmd; lit " ==="; lit nl;
   lit "Exit code: "; code_text (exitCode result); lit nl;
   lit "Stdout: "; lit (stdout result); lit nl;
   lit "Stderr: "; lit (stderr result); lit nl].

Fixpoint runDiagnostics_loop (commands : list string) (results : list message)
  : M (list message) :=
  match commands with
  | [] => ret results
  | cmd :: rest =>
      let* result := runCommand (command_of cmd) (args_of cmd) in
      perform emit (tests_output result) then
      runDiagnostics_loop rest (results ++ [diagnostic_block cmd result])
  end.

(** [results.join('\n\n')]. *)
Fixpoint join_messages (sep : message) (ms : list message) : message :=
  match ms with
  | [] => []
  | [m] => m
  | m :: rest => m ++ sep ++ join_messages sep rest
  end.

Definition runDiagnostics (commands : list string) : M message :=
  perform emit (diagnostic_run commands) then
  let* results := runDiagnostics_loop commands [] in
  ret (join_messages [lit nl; lit nl] results).

Inductive ArbiterModeResult : Type :=
| arbiter_bug_confirmed
| arbiter_bug_refuted
| arbiter_failed.

Definition runArbiterMode (userRequest : string) (stuckIssue : Issue)
  (sharedState : SharedState) : M ArbiterModeResult :=
  perform emit (arbiter_mode stuckIssue) then
  perform emit (status [lit "Arbiter mode: Issue "; lit dquote;
                        lit (default "undefined" (issue_id stuckIssue)); lit dquote;
                        lit " persists. Forcing test demonstration..."]) then
  let* builderResponse := complete_streaming builder (ArbiterPrompt sharedState stuckIssue) in
  let* builderMessage := parseJSON builderResponse BuilderMessageSchema in
  match builderMessage ≫= (fun bm => truthy (patch bm) ≫= (fun p => Some (bm, p))) with
  | None =>
      perform emit (error [lit "Builder failed to provide arbiter test"]) then
      ret arbiter_failed
  | Some (bm, p) =>
      let* validation := lift (validatePatch (allow_paths config) p) in
      if negb (valid validation) then
        perform emit (error [lit "Invalid arbiter test patch: ";
                             lit (default "undefined" (validation_error validation))]) then
        ret arbiter_failed
      else
        let* applyResult := applyPatch p in
        if negb (success applyResult) then
          perform emit (error (lit "Failed to apply arbiter test: "
                               :: default [lit "undefined"] (apply_error applyResult))) then
          ret arbiter_failed
        else
          match run bm with
          | Some (cmd :: _) =>
              let* testResult := runCommand (command_of cmd) (args_of cmd) in
              perform emit (tests_output testResult) then
              let passed := is_zero (exitCode testResult) in
              perform emit (arbiter_result
                              (mkArbiterTestResult true (Some p) (Some passed)
                                 (if passed then bug_refuted else bug_confirmed)
                                 (if passed
                                  then "Test passed - bug does not exist as described. Reviewer must downgrade severity or withdraw issue."
                                  else "Test failed - bug confirmed. Builder must fix the implementation."))) then
              ret (if passed then arbiter_bug_refuted else arbiter_bug_confirmed)
          | _ => ret arbiter_failed
          end
  end.

(** [this.moderatorProvider] is set by the constructor. *)
Definition moderatorProvider_set : bool :=
  enable_moderator config
  && bool_decide (is_Some (moderator_provider config))
  && bool_decide (is_Some (truthy (moderator_model config))).

Definition callModerator (userRequest lastPatch : string) (lastReview : Review)
  (testsPass : bool) : M (option ModeratorDecision) :=
  if negb moderatorProvider_set then
    perform emit (error [lit "Moderator not configured but was requested"]) then
    ret None
  else
    perform emit (status [lit "Moderator: analyzing disagreement..."]) then
    let* response :=
      attempt (complete_streaming moderator
                 (ModeratorPrompt userRequest lastPatch lastReview testsPass)) in
    match response with
    | inl (ProviderError msg) =>
        perform emit (error [lit "Moderator failed: "; lit msg]) then ret None
    | inl _ =>
        perform emit (error [lit "Moderator failed: "; library_message]) then ret None
    | inr moderatorResponse =>
        let* d := parseJSON moderatorResponse ModeratorDecisionSchema in
        match d with
        | Some dec => perform emit (moderator_decision dec) then ret (Some dec)
        | None => ret None
        end
    end.

Definition shouldRunReviewer (iteration : Z) (testsPass : bool) : M bool :=
  match review_mode config with
  | always => ret true
  | final_only => ret (max_iterations config <=? iteration)%Z
  | selective =>
      if (iteration =? 1)%Z && testsPass && negb (review_on_test_pass config) then
        perform emit (status [lit "Skipping review (tests passed on first try)"]) then
        ret false
      else if negb testsPass then ret true
      else if (max_iterations config <=? iteration)%Z then ret true
      else ret (Z.rem iteration 2 =? 0)%Z
  end.

Definition buildSharedState (userRequest : string)
  (lastTestOutput : option CommandResult) (openIssues : list message) : M SharedState :=
  let* σ := get in
  ret (mkSharedState userRequest (allow_paths config) (last (patchHistory σ))
         lastTestOutput openIssues).

(** *** The cycle state machine ([runCycle]) *)

(** The local variables of [runCycle] that live across iterations. *)
Record Locals : Type := mkLocals {
  iteration : Z;
  lastPatch : string;
  lastTestOutput : option CommandResult;
  openIssues : list message
}.

(** How one pass through the body of the [while] loop ends: with [continue]
    (or by reaching the end of the body), or with [return]. *)
Inductive Control : Type :=
| Continue (l : Locals)
| Return.

Definition severity_upper (s : Severity) : string :=
  match s with
  | critical => "CRITICAL"
  | major => "MAJOR"
  | minor => "MINOR"
  end.

(** One entry of [review.issues.map(issue => ...)]. *)
Definition issue_line (issue : Issue) : message :=
  [lit "["; lit (severity_upper (severity issue)); lit "] "; lit (description issue)]
  ++ match truthy (how_to_verify issue) with
     | Some how => [lit " - Verify: "; lit how]
     | None => []
     end.

(** [openIssues] rebuilt from a review: its issues, then the suggested fix. *)
Definition feedback_of (review : Review) : list message :=
  map issue_line (issues review)
  ++ match truthy (suggested_patch review) with
     | Some suggested => [[lit "SUGGESTED_FIX:"; lit nl; lit suggested]]
     | None => []
     end.

Definition push_builderMessage (bm : BuilderMessage) : M unit :=
  fun σ => (Ret tt, [],
            mkState (world σ) (patchHistory σ) (reviewHistory σ) (builderMessages σ ++ [bm])).

Definition push_patch (p : string) : M unit :=
  fun σ => (Ret tt, [],
            mkState (world σ) (patchHistory σ ++ [p]) (reviewHistory σ) (builderMessages σ)).

Definition push_review (r : Review) : M unit :=
  fun σ => (Ret tt, [],
            mkState (world σ) (patchHistory σ) (reviewHistory σ ++ [r]) (builderMessages σ)).

(** The [for] loop over the builder's [run] list, with its [break]. *)
Fixpoint run_commands (cmds : list string) (lastOutput : CommandResult) : M CommandResult :=
  match cmds with
  | [] => ret lastOutput
  | cmd :: rest =>
      let* result := runCommand (command_of cmd) (args_of cmd) in
      perform emit (tests_output result) then
      if negb (is_zero (exitCode result)) then ret result
      else run_commands rest result
  end.

(** Step 3 of the loop body, "Run tests": the value of [lastTestOutput]
    after it. *)
Definition run_tests_phase (bm : BuilderMessage) : M CommandResult :=
  perform emit (status [lit "Running tests..."]) then
  match run bm with
  | Some (cmd :: rest) => run_commands (cmd :: rest) (mkCommandResult "" "" (Some 0%Z))
  | _ =>
      let* result := runCommand (command_of (test_command config))
                       (args_of (test_command config)) in
      perform emit (tests_output result) then
      ret result
  end.

(** [decision?.decision === 'accept_builder']. *)
Definition accepted_builder (d : option ModeratorDecision) : option ModeratorDecision :=
  match d with
  | Some dec => match decision dec with accept_builder => Some dec | _ => None end
  | None => None
  end.

(** The branch taken when [detectOscillation] answers true. *)
Definition on_oscillation (userRequest p : string) (i : Z) : M Control :=
  let* σ := get in
  let* consulted :=
    match enable_moderator config, last (reviewHistory σ) with
    | true, Some lastReview =>
        let* d := callModerator userRequest p lastReview false in
        ret (accepted_builder d)
    | _, _ => ret None
    end in
  match consulted with
  | Some dec =>
      perform emit (cycle_complete true [lit "Moderator resolved: "; lit (reasoning dec)] i) then
      ret Return
  | None =>
      perform emit (cycle_complete false
                      [lit "Oscillation detected - agents cannot converge. Human intervention needed."]
                      i) then
      ret Return
  end.

(** The end of the [request_changes] branch: "Check max iterations". *)
Definition check_max_after_changes (userRequest : string) (l : Locals) (review : Review)
  (testsPass : bool) : M Control :=
  if (max_iterations config <=? iteration l)%Z then
    let hasCriticalIssues :=
      existsb (fun i => critical_or_major (severity i)) (issues review) in
    let* consulted :=
      if enable_moderator config && moderatorProvider_set && hasCriticalIssues then
        perform emit (status [lit "Max iterations reached - consulting moderator"]) then
        let* d := callModerator userRequest (lastPatch l) review testsPass in
        ret (accepted_builder d)
      else ret None in
    match consulted with
    | Some dec =>
        perform emit (cycle_complete true
                        [lit "Moderator resolved at max iterations: "; lit (reasoning dec)]
                        (iteration l)) then
        ret Return
    | None =>
        perform emit (cycle_complete false
                        [lit "Reached max iterations ("; num (max_iterations config);
                         lit "). "; lit (stopping review)]
                        (iteration l)) then
        ret Return
    end
  else ret (Continue l).

Definition with_openIssues (l : Locals) (issues : list message) : Locals :=
  mkLocals (iteration l) (lastPatch l) (lastTestOutput l) issues.

(** "EVENT-DRIVEN FLOW based on reviewer verdict": the rest of the loop body
    once [review] is known.  [l] holds the locals at that point. *)
Definition interpret_review (userRequest : string) (sharedState : SharedState)
  (l : Locals) (review : Review) (testsPass : bool) : M Control :=
  match verdict review with
  | approve =>
      perform emit (cycle_complete true
                      [lit "Implementation approved! "; lit (stopping review)]
                      (iteration l)) then
      ret Return
  | block =>
      match block_reason review, diagnostics_needed review with
      | Some uncertainty, Some commands =>
          perform emit (status [lit "Reviewer uncertain - running diagnostics..."]) then
          let* diagnosticsOutput := runDiagnostics commands in
          perform emit (status [lit "Diagnostics complete - re-running reviewer with results"]) then
          ret (Continue
                 (mkLocals (iteration l - 1) (lastPatch l) (lastTestOutput l)
                    (openIssues l ++ [[lit "DIAGNOSTICS RUN:"; lit nl] ++ diagnosticsOutput])))
      | Some definite_bug, _ =>
          perform emit (status [lit "Reviewer found definite bugs - returning to Builder"]) then
          if (max_iterations config <=? iteration l)%Z then
            perform emit (cycle_complete false
                            [lit "Max iterations reached. "; lit (stopping review)]
                            (iteration l)) then
            ret Return
          else ret (Continue (with_openIssues l (feedback_of review)))
      | Some needs_human, _ =>
          perform emit (cycle_complete false
                          [lit "Reviewer blocked (needs human): "; lit (stopping review)]
                          (iteration l)) then
          ret Return
      | _, _ =>
          (* no branch of the [if] chain applies, and the verdict is not
             [request_changes]: the end of the loop body is reached *)
          ret (Continue l)
      end
  | request_changes =>
      let* stuckIssues := findStuckIssues in
      match stuckIssues with
      | stuckIssue :: _ =>
          let* arbiterOutcome := runArbiterMode userRequest stuckIssue sharedState in
          match arbiterOutcome with
          | arbiter_bug_confirmed =>
              perform emit (status [lit "Arbiter confirmed bug - Builder must fix"]) then
              check_max_after_changes userRequest
                (with_openIssues l
                   [[lit "[CRITICAL] Arbiter-confirmed bug: "; lit (description stuckIssue)];
                    [lit "How to verify: ";
                     lit (default "See arbiter test" (truthy (how_to_verify stuckIssue)))]])
                review testsPass
          | arbiter_bug_refuted =>
              perform emit (status [lit "Arbiter refuted bug - removing from issues"]) then
              check_max_after_changes userRequest
                (with_openIssues l
                   (map issue_line
                      (List.filter
                         (fun issue =>
                            negb (same_issue_id (issue_id issue) (issue_id stuckIssue)))
                         (issues review))))
                review testsPass
          | arbiter_failed =>
              perform emit (cycle_complete false
                              [lit "Arbiter mode failed - cannot resolve stuck issue"]
                              (iteration l)) then
              ret Return
          end
      | [] =>
          perform emit (status [lit "Reviewer requests changes - returning to Builder"]) then
          check_max_after_changes userRequest (with_openIssues l (feedback_of review))
            review testsPass
      end
  end.

(** Step 4, "Reviewer phase (conditional based on config)", and what
    follows it. *)
Definition review_stage (userRequest : string) (sharedState : SharedState)
  (bm : BuilderMessage) (l : Locals) (testsPass : bool) : M Control :=
  let* wanted := shouldRunReviewer (iteration l) testsPass in
  if wanted then
    perform emit (status [lit "Reviewer: analyzing implementation..."]) then
    let* reviewerResponse :=
      complete_streaming reviewer
        (ReviewerPrompt (review_strictness config) sharedState bm (lastPatch l)) in
    let* parsedReview := parseJSON reviewerResponse ReviewSchema in
    match parsedReview with
    | None =>
        perform emit (error [lit "Reviewer produced invalid response"]) then
        ret Return
    | Some review =>
        perform push_review review then
        perform emit (review_ready review) then
        interpret_review userRequest sharedState l review testsPass
    end
  else
    interpret_review userRequest sharedState l
      (mkReview approve [] None None
         "Tests passed and review was skipped per configuration" None None)
      testsPass.

(** [const testsPass = lastTestOutput.exitCode === 0]. *)
Definition testsPass_of (output : CommandResult) : bool := is_zero (exitCode output).

(** "EVENT: Tests failed -> Go back to Builder". *)
Definition tests_failed_branch (l : Locals) (output : CommandResult) : M Control :=
  perform emit (status [lit "Tests failed - returning to Builder to fix"]) then
  let failing :=
    [[lit "[CRITICAL] Tests failing - Exit code "; code_text (exitCode output)];
     [lit "Stdout: "; lit (stdout output)];
     [lit "Stderr: "; lit (stderr output)]] in
  if (max_iterations config <=? iteration l)%Z then
    perform emit (cycle_complete false
                    [lit "Max iterations reached with failing tests."] (iteration l)) then
    ret Return
  else ret (Continue (with_openIssues l failing)).

(** The loop body after step 3: [testsPass] and the branch on it.  [output]
    is the value of [lastTestOutput]; [i] is the value of [iteration]. *)
Definition after_tests (userRequest : string) (sharedState : SharedState)
  (bm : BuilderMessage) (p : string) (i : Z) (l0 : Locals) (output : CommandResult)
  : M Control :=
  let testsPass := testsPass_of output in
  let l := mkLocals i p (Some output) (openIssues l0) in
  if negb testsPass then tests_failed_branch l output
  else review_stage userRequest sharedState bm l testsPass.

(** The loop body from "Check for oscillation BEFORE applying patch" on,
    for the patch [p] of the builder message [bm]. *)
Definition patch_stage (userRequest : string) (sharedState : SharedState)
  (bm : BuilderMessage) (p : string) (i : Z) (l0 : Locals) : M Control :=
  perform emit (patch_ready p) then
  let* stuck := detectOscillation p in
  if stuck then on_oscillation userRequest p i
  else
    perform push_patch p then
    perform emit (status [lit "Validating patch..."]) then
    let* validation := lift (validatePatch (allow_paths config) p) in
    if negb (valid validation) then
      perform emit (error [lit (default "undefined" (validation_error validation))]) then
      ret Return
    else
      perform emit (status [lit "Applying patch..."]) then
      let* applyResult := applyPatch p in
      if negb (success applyResult) then
        perform emit (error (default [lit "undefined"] (apply_error applyResult))) then
        ret Return
      else
        let* output := run_tests_phase bm in
        after_tests userRequest sharedState bm p i l0 output.

(** One pass through the body of [while (iteration < max_iterations)]. *)
Definition iteration_body (userRequest : string) (l0 : Locals) : M Control :=
  let i := (iteration l0 + 1)%Z in
  perform emit (status [lit "Iteration "; num i; lit "/"; num (max_iterations config)]) then
  let* sharedState := buildSharedState userRequest (lastTestOutput l0) (openIssues l0) in
  perform emit (status [lit "Builder: analyzing request..."]) then
  let* builderResponse := complete_streaming builder (BuilderPrompt sharedState) in
  let* builderMessage := parseJSON builderResponse BuilderMessageSchema in
  match builderMessage with
  | None =>
      perform emit (error [lit "Builder produced invalid response"]) then
      ret Return
  | Some bm =>
      perform push_builderMessage bm then
      match files_needed bm with
      | Some (file :: more) =>
          perform emit (status [lit "Builder needs files: "; lit (join ", " (file :: more))]) then
          let* contents := readFiles (file :: more) in
          ret (Continue
                 (mkLocals i (lastPatch l0) (lastTestOutput l0)
                    (openIssues l0
                     ++ [[lit "Files provided: "; lit (join ", " (file :: more))]])))
      | _ =>
          match truthy (patch bm) with
          | None =>
              perform emit (error [lit "Builder did not provide a patch"]) then
              ret Return
          | Some p => patch_stage userRequest sharedState bm p i l0
          end
      end
  end.

(** How a run of [runCycle] ends.  [OutOfFuel] is not an end: the loop was
    still running when the model stopped following it. *)
Inductive Outcome : Type :=
| Returned      (* a [return] inside the loop *)
| LoopExited    (* the condition of the [while] was false *)
| OutOfFuel.

(** The observations of a cycle carry the value of the variable [iteration]
    at the time they are made. *)
Definition at_iteration (i : Z) (log : list Obs) : list (Z * Obs) :=
  map (pair i) log.

Fixpoint cycle_loop (fuel : nat) (userRequest : string) (l : Locals) (σ : State)
  : throws Outcome * list (Z * Obs) * State :=
  if (iteration l <? max_iterations config)%Z then
    match fuel with
    | O => (Ret OutOfFuel, [], σ)
    | S fuel' =>
        match iteration_body userRequest l σ with
        | (Raise e, log, σ1) => (Raise e, at_iteration (iteration l + 1) log, σ1)
        | (Ret Return, log, σ1) => (Ret Returned, at_iteration (iteration l + 1) log, σ1)
        | (Ret (Continue l'), log, σ1) =>
            match cycle_loop fuel' userRequest l' σ1 with
            | (r, log', σ2) => (r, at_iteration (iteration l + 1) log ++ log', σ2)
            end
        end
    end
  else (Ret LoopExited, [], σ).

(** [runCycle(userRequest)], followed for at most [fuel] passes of the loop. *)
Definition runCycle (fuel : nat) (userRequest : string) (σ0 : State)
  : throws Outcome * list (Z * Obs) * State :=
  match cycle_loop fuel userRequest (mkLocals 0 "" None [])
          (mkState (world σ0) [] [] []) with
  | (r, log, σ) =>
      (r, (0%Z, Emit (status [lit "Starting build/review cycle..."])) :: log, σ)
  end.

(** ** Reading a run *)

(** The events of a log, in order. *)
Definition events {T : Type} (log : list (T * Obs)) : list OrchestratorEvent :=
  omap (fun x => match snd x with Emit e => Some e | _ => None end) log.

Definition is_cycle_complete (e : OrchestratorEvent) : bool :=
  match e with cycle_complete _ _ _ => true | _ => false end.

Definition is_error (e : OrchestratorEvent) : bool :=
  match e with error _ => true | _ => false end.

(** A terminal event as the specification names it: a [cycle_complete] or
    an [error]. *)
Definition is_terminal (e : OrchestratorEvent) : bool :=
  is_cycle_complete e || is_error e.


(** The child processes started, in order. *)
Definition commands_run (log : list Obs) : list (string * list string) :=
  omap (fun o => match o with Exec command args => Some (command, args) | _ => None end) log.

(** The results streamed as [tests_output] events, in order. *)
Definition outputs (log : list Obs) : list CommandResult :=
  omap (fun o => match o with Emit (tests_output r) => Some r | _ => None end) log.

(** How a command line is started: [cmd.split(' ')], first part and rest. *)
Definition invocation (cmd : string) : string * list string :=
  (command_of cmd, args_of cmd).


(** The output of a command, from what has become of its child: what the
    child has written and its exit code; nothing and no exit code for a
    child that could not be spawned; the message on the standard error
    and the exit code 1 when [spawn] has thrown. *)
Definition output_of (c : ChildResult) : CommandResult :=
  match c with
  | Exited result => result
  | SpawnFailed _ => mkCommandResult "" "" None
  | SpawnThrew msg => mkCommandResult "" msg (Some 1%Z)
  end.


(** What is seen of a command that step 3 runs: it is started, and its
    result is streamed. *)
Definition streamed (cmd : string) (result : CommandResult) : list Obs :=
  [Exec (hd "" (split " " cmd)) (tl (split " " cmd)); Emit (tests_output result)].

(** The oscillation test as section 4.1 of the specification words it:
    exact match against any previous patch, or similarity of at least 0.95
    against the most recent one. *)
Definition stuck_as_specified (history : list string) (p : string) : bool :=
  includes history p
  || match last history with
     | Some lastPatch => Qle_bool (95 # 100) (patchSimilarity lastPatch p)
     | None => false
     end.

(** ** Measures of a log and of a pass *)

(** The number of observations of a kind in a log. *)
Definition count (p : Obs -> bool) (l : list Obs) : nat := length (List.filter p l).

Definition is_completion (o : Obs) : bool :=
  match o with Emit e => is_cycle_complete e | _ => false end.

Definition is_review_call (o : Obs) : bool :=
  match o with Complete reviewer _ => true | _ => false end.

Definition is_diagnostic_round (o : Obs) : bool :=
  match o with Emit (diagnostic_run _) => true | _ => false end.

(** A computation is benign when it emits no [cycle_complete] and no
    [diagnostic_run], does not call the reviewer, and leaves the patch
    history as it is: everything but a few places of [runCycle]. *)
Class Benign {A : Type} (m : M A) : Prop :=
  benign_spec : forall σ r l σ',
    m σ = (r, l, σ') ->
    count is_completion l = 0%nat
    /\ count is_review_call l = 0%nat
    /\ count is_diagnostic_round l = 0%nat
    /\ patchHistory σ' = patchHistory σ.

(** An event that may be emitted anywhere. *)
Definition plain_event (e : OrchestratorEvent) : bool :=
  match e with
  | cycle_complete _ _ _ | diagnostic_run _ => false
  | _ => true
  end.

Definition terminal_obs (o : Obs) : bool :=
  match o with Emit e => is_terminal e | _ => false end.

(** The shape of the log of a piece of the loop body: a [return] comes
    right after a terminal event, the first [cycle_complete] of the piece if
    it is one; a piece left otherwise has emitted no [cycle_complete]. *)
Definition ends_well (r : throws Control) (l : list Obs) : Prop :=
  match r with
  | Ret Return =>
      exists init o, l = init ++ [o] /\ count is_completion init = 0%nat
                     /\ terminal_obs o = true
  | _ => count is_completion l = 0%nat
  end.

(** What one pass does to the patch history: nothing, or it appends a
    patch that was not in it. *)
Definition history_step (before after : list string) : Prop :=
  after = before \/ exists p, ~ In p before /\ after = before ++ [p].

Definition outcome_of {A : Type} (x : throws A * list (Z * Obs) * State) : throws A :=
  fst (fst x).
Definition log_of {A : Type} (x : throws A * list (Z * Obs) * State) : list (Z * Obs) :=
  snd (fst x).
Definition state_of {A : Type} (x : throws A * list (Z * Obs) * State) : State :=
  snd x.

(** The observations of a log without their iteration numbers. *)
Definition untagged (log : list (Z * Obs)) : list Obs := map snd log.

(** The shape of the log of a run of the loop. *)
Definition ends_cycle (r : throws Outcome) (l : list Obs) : Prop :=
  match r with
  | Ret Returned =>
      exists init o, l = init ++ [o] /\ count is_completion init = 0%nat
                     /\ terminal_obs o = true
  | _ => count is_completion l = 0%nat
  end.

(** The events of a log are those of its observations. *)
Definition emitted (o : Obs) : option OrchestratorEvent :=
  match o with Emit e => Some e | _ => None end.

(** ** More ways of reading a log *)

Definition is_error_obs (o : Obs) : bool :=
  match o with Emit (error _) => true | _ => false end.

Definition is_moderator_call (o : Obs) : bool :=
  match o with Complete moderator _ => true | _ => false end.

Definition is_arbiter_result (o : Obs) : bool :=
  match o with Emit (arbiter_result _) => true | _ => false end.

(** An observation made while the counter is [i] reports no other number
    of iterations. *)
Definition reports (i : Z) (o : Obs) : Prop :=
  match o with
  | Emit (cycle_complete _ _ n) => n = i
  | _ => True
  end.

(** The number of iterations that a [cycle_complete] reports lies between 1
    and [max_iterations]. *)
Definition iterations_in_range (e : OrchestratorEvent) : Prop :=
  match e with
  | cycle_complete _ _ n => (1 <= n <= max_iterations config)%Z
  | _ => True
  end.

(** A [cycle_complete] that reports an approval: a success whose message
    begins with [Implementation approved! ]. *)
Definition is_approval_event (e : OrchestratorEvent) : bool :=
  match e with
  | cycle_complete true (lit s :: _) _ => String.eqb s "Implementation approved! "
  | _ => false
  end.

Definition is_approval (o : Obs) : bool :=
  match o with Emit e => is_approval_event e | _ => false end.

(** What stands behind an approval, in a log [log] that ends in the state
    [σ']: a patch that was announced, that the guard accepts and that is the
    last of the patch history, a [git apply] that was started, and a last
    streamed command result with exit code 0. *)
Definition approval_grounds (log : list Obs) (σ' : State) : Prop :=
  exists p,
    In (Emit (patch_ready p)) log
    /\ validatePatch (allow_paths config) p = Ret (mkValidation true None)
    /\ In (Exec "git" ["apply"; "--whitespace=nowarn"; tempPatchFile]) log
    /\ (exists out, last (outputs log) = Some out /\ exitCode out = Some 0%Z)
    /\ last (patchHistory σ') = Some p.

(** ** The other public methods of [Orchestrator] (orchestrator.ts) *)

(** [Orchestrator.applyPatch(patch)]. *)
Definition Orchestrator_applyPatch (p : string) : M unit :=
  perform emit (status [lit "Validating patch..."]) then
  let* validation := lift (validatePatch (allow_paths config) p) in
  if negb (valid validation) then
    emit (error [lit (default "undefined" (validation_error validation))])
  else
    perform emit (status [lit "Applying patch..."]) then
    let* result := applyPatch p in
    if success result then emit (status [lit "Patch applied successfully"])
    else emit (error (default [lit "undefined"] (apply_error result))).

(** [Orchestrator.runTests()]. *)
Definition runTests : M unit :=
  perform emit (status [lit "Running tests..."]) then
  let* result := runCommand (command_of (test_command config))
                   (args_of (test_command config)) in
  emit (tests_output result).

(** ** The message handler of the daemon (server.ts) *)

(** [err instanceof Error ? err.message : String(err)] for what the
    handler catches. *)
Definition exn_message (e : exn) : message :=
  match e with
  | ProviderError msg => [lit msg]
  | _ => [library_message]
  end.

(** The events sent for the outcome of an [await] inside the [try]: those
    of the call, then the [error] of the [catch] if the call has thrown. *)
Definition caught {A : Type} (r : throws A) (log : list Obs) : list Obs :=
  match r with
  | Ret _ => log
  | Raise e => log ++ [Emit (error (exn_message e))]
  end.

(** The handler of a message on an open connection: what is sent back, in
    order, and the state after.  [data] is the text received as
    [JSON.parse] reads it, [None] when it throws.  The orchestrator of the
    connection is there: it is created before the handler is installed. *)
Definition on_message (fuel : nat) (data : option json) (σ : State) : list Obs * State :=
  match data with
  | None => ([Emit (error [library_message])], σ)
  | Some message =>
      match ClientMessageSchema message with
      | None => ([Emit (error [lit "Invalid message: "; library_message])], σ)
      | Some (run_cycle request) =>
          match runCycle fuel request σ with
          | (r, log, σ') => (caught r (untagged log), σ')
          end
      | Some (apply_patch patch_text) =>
          match Orchestrator_applyPatch patch_text σ with
          | (r, log, σ') => (caught r log, σ')
          end
      | Some run_tests =>
          match runTests σ with
          | (r, log, σ') => (caught r log, σ')
          end
      end
  end.


(** * Properties of the machine *)

(** ** Reasoning about computations *)

Lemma bind_inv {A B : Type} (m : M A) (f : A -> M B) σ r l σ' :
  bind m f σ = (r, l, σ') ->
  (exists e, m σ = (Raise e, l, σ') /\ r = Raise e)
  \/ (exists a l1 σ1 l2, m σ = (Ret a, l1, σ1) /\ f a σ1 = (r, l2, σ') /\ l = l1 ++ l2).
Proof.
  unfold bind. destruct (m σ) as [[[a|e] l1] σ1].
  - destruct (f a σ1) as [[r2 l2] σ2] eqn:E. intros H. inversion H; subst.
    right. exists a, l1, σ1, l2. auto.
  - intros H. inversion H; subst. left. eauto.
Qed.

Lemma count_app p l1 l2 : count p (l1 ++ l2) = (count p l1 + count p l2)%nat.
Proof. unfold count. rewrite List.filter_app, length_app. reflexivity. Qed.

Lemma count_cons p o l : count p (o :: l) = ((if p o then 1 else 0) + count p l)%nat.
Proof. unfold count. simpl. destruct (p o); reflexivity. Qed.

Lemma count_nil p : count p [] = 0%nat.
Proof. reflexivity. Qed.

#[local] Instance Benign_ret {A : Type} (a : A) : Benign (ret a).
Proof. intros σ r l σ' H. inversion H; subst. auto. Qed.

#[local] Instance Benign_raise {A : Type} (e : exn) : Benign (@raise A e).
Proof. intros σ r l σ' H. inversion H; subst. auto. Qed.

#[local] Instance Benign_lift {A : Type} (x : throws A) : Benign (lift x).
Proof. intros σ r l σ' H. inversion H; subst. auto. Qed.

#[local] Instance Benign_get : Benign get.
Proof. intros σ r l σ' H. inversion H; subst. auto. Qed.

#[local] Instance Benign_bind {A B : Type} (m : M A) (f : A -> M B) :
  Benign m -> (forall a, Benign (f a)) -> Benign (bind m f).
Proof.
  intros Hm Hf σ r l σ' H.
  apply bind_inv in H as [(e & H & ->) | (a & l1 & σ1 & l2 & H1 & H2 & ->)].
  - exact (Hm _ _ _ _ H).
  - destruct (Hm _ _ _ _ H1) as (? & ? & ? & ?).
    destruct (Hf a _ _ _ _ H2) as (? & ? & ? & ?).
    rewrite !count_app. repeat split; try lia. congruence.
Qed.

#[local] Instance Benign_attempt {A : Type} (m : M A) : Benign m -> Benign (attempt m).
Proof.
  intros Hm σ r l σ' H. unfold attempt in H.
  destruct (m σ) as [[[a|e] l1] σ1] eqn:E; inversion H; subst; exact (Hm _ _ _ _ E).
Qed.

Lemma Benign_emit (e : OrchestratorEvent) : plain_event e = true -> Benign (emit e).
Proof.
  intros He σ r l σ' H. inversion H; subst.
  destruct e; try discriminate; auto.
Qed.

#[local] Hint Extern 1 (Benign (emit _)) => (apply Benign_emit; reflexivity) : typeclass_instances.

(** Case analysis on what a computation branches on. *)
Ltac benign_cases :=
  repeat match goal with
         | |- Benign (match ?x with _ => _ end) => destruct x
         | |- Benign (bind _ _) => apply Benign_bind; [| intros ?]
         | |- Benign (emit _) => apply Benign_emit; reflexivity
         | |- Benign (if ?b then _ else _) => destruct b
         | |- Benign _ => solve [typeclasses eauto]
         | |- forall _, _ => intros ?
         end.

#[local] Instance Benign_writeFileSync path content : Benign (writeFileSync path content).
Proof. intros σ r l σ' H. inversion H; subst. auto. Qed.

#[local] Instance Benign_unlinkSync path : Benign (unlinkSync path).
Proof.
  intros σ r l σ' H. unfold unlinkSync in H.
  destruct (files (world σ) !! path); inversion H; subst; auto.
Qed.

#[local] Instance Benign_readFileSync path : Benign (readFileSync path).
Proof. intros σ r l σ' H. inversion H; subst. auto. Qed.

#[local] Instance Benign_execa reject command args : Benign (execa reject command args).
Proof.
  intros σ r l σ' H. unfold execa in H.
  destruct (run_child command args (world σ)) as [[result|msg|msg] w];
    inversion H; subst; auto.
Qed.

#[local] Instance Benign_readFile_caught filePath : Benign (readFile_caught filePath).
Proof. unfold readFile_caught. benign_cases. Qed.

#[local] Instance Benign_readFiles_from filePaths result : Benign (readFiles_from filePaths result).
Proof. revert result. induction filePaths; intros result; simpl; benign_cases. Qed.

#[local] Instance Benign_readFiles filePaths : Benign (readFiles filePaths).
Proof. unfold readFiles. typeclasses eauto. Qed.

#[local] Instance Benign_applyPatch p : Benign (applyPatch p).
Proof. unfold applyPatch. benign_cases. Qed.

#[local] Instance Benign_runCommand command args : Benign (runCommand command args).
Proof. unfold runCommand. benign_cases. Qed.

Lemma count_stream_chunks p role chunks :
  (forall c, p (Emit (stream_chunk role c)) = false) ->
  count p (map (fun c => Emit (stream_chunk role c)) chunks) = 0%nat.
Proof.
  intros Hp. induction chunks as [|c chunks IH]; [reflexivity|].
  cbn [map]. rewrite count_cons, Hp, IH. reflexivity.
Qed.

Lemma complete_streaming_log role prompt σ r l σ' :
  complete_streaming role prompt σ = (r, l, σ') ->
  count is_completion l = 0%nat
  /\ count is_review_call l = (if is_review_call (Complete role prompt) then 1 else 0)%nat
  /\ count is_diagnostic_round l = 0%nat
  /\ patchHistory σ' = patchHistory σ.
Proof.
  unfold complete_streaming.
  destruct (complete role prompt (world σ)) as [[chunks parsed|chunks msg] w];
    intros H; inversion H; subst;
    rewrite !count_cons, !count_stream_chunks by reflexivity;
    repeat split; simpl; lia.
Qed.

#[local] Instance Benign_complete_builder prompt : Benign (complete_streaming builder prompt).
Proof. intros σ r l σ' H. apply complete_streaming_log in H. exact H. Qed.

#[local] Instance Benign_complete_moderator prompt : Benign (complete_streaming moderator prompt).
Proof. intros σ r l σ' H. apply complete_streaming_log in H. exact H. Qed.

#[local] Instance Benign_parseJSON {T : Type} parsed (s : schema T) : Benign (parseJSON parsed s).
Proof. unfold parseJSON. benign_cases. Qed.

#[local] Instance Benign_detectOscillation p : Benign (detectOscillation p).
Proof. unfold detectOscillation. benign_cases. Qed.

#[local] Instance Benign_findStuckIssues : Benign findStuckIssues.
Proof. unfold findStuckIssues. benign_cases. Qed.

#[local] Instance Benign_runDiagnostics_loop commands results :
  Benign (runDiagnostics_loop commands results).
Proof. revert results. induction commands; intros results; simpl; benign_cases. Qed.

#[local] Instance Benign_runArbiterMode userRequest stuckIssue sharedState :
  Benign (runArbiterMode userRequest stuckIssue sharedState).
Proof. unfold runArbiterMode. benign_cases. Qed.

#[local] Instance Benign_callModerator userRequest p lastReview testsPass :
  Benign (callModerator userRequest p lastReview testsPass).
Proof. unfold callModerator. benign_cases. Qed.

#[local] Instance Benign_shouldRunReviewer i testsPass : Benign (shouldRunReviewer i testsPass).
Proof. unfold shouldRunReviewer. benign_cases. Qed.

#[local] Instance Benign_buildSharedState userRequest out issues :
  Benign (buildSharedState userRequest out issues).
Proof. unfold buildSharedState. benign_cases. Qed.

#[local] Instance Benign_push_builderMessage bm : Benign (push_builderMessage bm).
Proof. intros σ r l σ' H. inversion H; subst. auto. Qed.

#[local] Instance Benign_push_review rv : Benign (push_review rv).
Proof. intros σ r l σ' H. inversion H; subst. auto. Qed.

#[local] Instance Benign_run_commands cmds lastOutput : Benign (run_commands cmds lastOutput).
Proof. revert lastOutput. induction cmds; intros lastOutput; simpl; benign_cases. Qed.

#[local] Instance Benign_run_tests_phase bm : Benign (run_tests_phase bm).
Proof. unfold run_tests_phase. benign_cases. Qed.

(** ** One pass through the loop body *)

Lemma ends_well_app r l1 l2 :
  count is_completion l1 = 0%nat -> ends_well r l2 -> ends_well r (l1 ++ l2).
Proof.
  intros H1. destruct r as [[l'|]|e]; simpl.
  - intros H2. rewrite count_app. lia.
  - intros (init & o & -> & Hi & Ho). exists (l1 ++ init), o.
    rewrite count_app, app_assoc. repeat split; auto; lia.
  - intros H2. rewrite count_app. lia.
Qed.

Lemma ends_well_cons r o l :
  is_completion o = false -> ends_well r l -> ends_well r (o :: l).
Proof.
  intros Ho. apply (ends_well_app r [o] l).
  rewrite count_cons, Ho. reflexivity.
Qed.

Lemma ends_well_final o : terminal_obs o = true -> ends_well (Ret Return) [o].
Proof. intros Ho. exists [], o. auto. Qed.

(** Symbolic execution of a computation described by [H : m σ = (r, l, σ')]. *)
Ltac invert_prim H :=
  cbv [emit observe ret get lift raise push_patch push_review push_builderMessage put] in H;
  inversion H; subst; clear H.

Ltac exec H :=
  cbv beta zeta in H;
  lazymatch type of H with
  | bind ?m ?f ?σ = _ =>
      let Hm := fresh "Hm" in
      apply bind_inv in H as [(? & Hm & ?) | (? & ? & ? & ? & Hm & H & ?)];
      [ simplify_eq; exec Hm | simplify_eq; exec Hm; exec H ]
  | (match ?x with _ => _ end) _ = _ => destruct x eqn:?; exec H
  | emit _ _ = _ => invert_prim H
  | ret _ _ = _ => invert_prim H
  | get _ = _ => invert_prim H
  | lift _ _ = _ => invert_prim H
  | raise _ _ = _ => invert_prim H
  | push_patch _ _ = _ => invert_prim H
  | push_review _ _ = _ => invert_prim H
  | push_builderMessage _ _ = _ => invert_prim H
  | _ => idtac
  end.

Lemma detectOscillation_inv p σ r l σ' :
  detectOscillation p σ = (r, l, σ') ->
  σ' = σ /\ count is_completion l = 0%nat /\ count is_review_call l = 0%nat
  /\ count is_diagnostic_round l = 0%nat
  /\ (r = Ret true \/ (r = Ret false /\ ~ In p (patchHistory σ))).
Proof.
  intros H. unfold detectOscillation in H. exec H; auto 10.
  repeat split; auto. right. split; [reflexivity|].
  match goal with E : oscillation _ _ = None |- _ => rename E into Eo end.
  intros Hin. unfold oscillation in Eo.
  assert (Hi : includes (patchHistory σ') p = true).
  { unfold includes. apply existsb_exists. exists p. split; [exact Hin | apply String.eqb_refl]. }
  rewrite Hi in Eo. discriminate.
Qed.

Lemma runDiagnostics_log commands σ r l σ' :
  runDiagnostics commands σ = (r, l, σ') ->
  count is_completion l = 0%nat /\ count is_review_call l = 0%nat
  /\ count is_diagnostic_round l = 1%nat /\ patchHistory σ' = patchHistory σ.
Proof.
  intros H. unfold runDiagnostics in H. exec H.
  - apply benign_spec in Hm as (? & ? & ? & ?).
    rewrite !count_app, !count_cons, !count_nil. simpl. repeat split; auto; lia.
  - apply benign_spec in Hm as (? & ? & ? & ?).
    rewrite !count_app, !count_cons, !count_nil. simpl. repeat split; auto; lia.
Qed.

(** Turn what is known of the calls made into facts about their logs. *)
Ltac facts :=
  repeat match goal with
         | Hm : detectOscillation _ _ = _ |- _ =>
             apply detectOscillation_inv in Hm as (? & ? & ? & ? & ?)
         | Hm : runDiagnostics _ _ = _ |- _ =>
             apply runDiagnostics_log in Hm as (? & ? & ? & ?)
         | Hm : complete_streaming _ _ _ = _ |- _ =>
             apply complete_streaming_log in Hm as (? & ? & ? & ?)
         | Hm : ?m ?σ = (?r, ?l, ?σ') |- _ =>
             apply (benign_spec (m:=m)) in Hm as (? & ? & ? & ?)
         end.

Ltac counts :=
  rewrite ?count_app, ?count_cons, ?count_nil;
  cbn [is_completion is_review_call is_diagnostic_round is_cycle_complete] in *;
  try lia.

Ltac shape :=
  rewrite ?app_nil_r; cbn [app];
  repeat first
    [ assumption
    | apply ends_well_final; reflexivity
    | apply ends_well_cons; [reflexivity|]
    | apply ends_well_app; [solve [counts]|]
    | progress (cbn [ends_well]); solve [counts] ].

Ltac continues :=
  intros ? ?;
  repeat match goal with
         | Hc : forall l', ?r = Ret (Continue l') -> _, E : ?r = Ret (Continue _) |- _ =>
             specialize (Hc _ E)
         end;
  simplify_eq; destruct_and?;
  cbn [iteration lastPatch lastTestOutput openIssues with_openIssues] in *; counts.

Ltac implication :=
  let HR := fresh in
  intros HR ?;
  rewrite ?count_app, ?count_cons, ?count_nil in HR;
  cbn [is_completion is_review_call is_diagnostic_round is_cycle_complete] in *;
  first [ lia
        | match goal with
          | Hc : count is_review_call ?x = 1%nat -> _ -> _ |- _ =>
              apply Hc; [lia | assumption]
          end ].

Ltac history :=
  repeat match goal with
         | Hd : _ \/ _ /\ _ |- _ => destruct Hd as [? | [? ?]]
         end;
  simplify_eq;
  first [ left; congruence
        | right; eexists; split; [eassumption | congruence] ].

Ltac finish :=
  cbn [patchHistory reviewHistory builderMessages world] in *;
  repeat split; try congruence; try solve [counts]; try solve [shape];
  try solve [continues]; try solve [implication]; try solve [history].

Lemma check_max_after_changes_ok userRequest l review testsPass σ r log σ' :
  check_max_after_changes userRequest l review testsPass σ = (r, log, σ') ->
  ends_well r log
  /\ patchHistory σ' = patchHistory σ
  /\ count is_review_call log = 0%nat
  /\ count is_diagnostic_round log = 0%nat
  /\ (forall l', r = Ret (Continue l') ->
        iteration l' = iteration l /\ (iteration l < max_iterations config)%Z).
Proof.
  intros H. unfold check_max_after_changes in H. exec H; facts.
  all: finish.
Qed.

Lemma interpret_review_ok userRequest sharedState l review testsPass σ r log σ' :
  interpret_review userRequest sharedState l review testsPass σ = (r, log, σ') ->
  ends_well r log
  /\ patchHistory σ' = patchHistory σ
  /\ count is_review_call log = 0%nat
  /\ (count is_diagnostic_round log <= 1)%nat
  /\ (count is_diagnostic_round log = 1%nat -> verdict review = block)
  /\ (forall l', r = Ret (Continue l') ->
        iteration l' = (iteration l - Z.of_nat (count is_diagnostic_round log))%Z).
Proof.
  intros H. unfold interpret_review in H. exec H;
    repeat match goal with
           | Hc : check_max_after_changes _ _ _ _ _ = _ |- _ =>
               apply check_max_after_changes_ok in Hc as (? & ? & ? & ? & ?)
           end;
    facts.
  all: finish.
Qed.

Ltac use_stage_lemmas :=
  repeat match goal with
         | Hc : check_max_after_changes _ _ _ _ _ = _ |- _ =>
             apply check_max_after_changes_ok in Hc as (? & ? & ? & ? & ?)
         | Hc : interpret_review _ _ _ _ _ _ = _ |- _ =>
             apply interpret_review_ok in Hc as (? & ? & ? & ? & ? & ?)
         end.

Lemma review_stage_ok userRequest sharedState bm l testsPass σ r log σ' :
  review_stage userRequest sharedState bm l testsPass σ = (r, log, σ') ->
  ends_well r log
  /\ patchHistory σ' = patchHistory σ
  /\ (count is_diagnostic_round log <= count is_review_call log <= 1)%nat
  /\ (count is_review_call log = 1%nat -> review_mode config = final_only ->
        (max_iterations config <= iteration l)%Z)
  /\ (forall l', r = Ret (Continue l') ->
        iteration l' = (iteration l - Z.of_nat (count is_diagnostic_round log))%Z).
Proof.
  intros H. unfold review_stage, shouldRunReviewer in H. exec H;
    use_stage_lemmas; facts.
  all: cbn [verdict] in *.
  all: repeat match goal with
              | Hv : ?P -> approve = block |- _ =>
                  assert (~ P) by (intros HP; specialize (Hv HP); discriminate);
                  clear Hv
              end.
  all: finish.
Qed.

Lemma after_tests_ok userRequest sharedState bm p i l0 output σ r log σ' :
  after_tests userRequest sharedState bm p i l0 output σ = (r, log, σ') ->
  ends_well r log
  /\ patchHistory σ' = patchHistory σ
  /\ (count is_diagnostic_round log <= count is_review_call log <= 1)%nat
  /\ (count is_review_call log = 1%nat -> review_mode config = final_only ->
        (max_iterations config <= i)%Z)
  /\ (forall l', r = Ret (Continue l') ->
        iteration l' = (i - Z.of_nat (count is_diagnostic_round log))%Z).
Proof.
  intros H. unfold after_tests, tests_failed_branch in H. exec H;
    repeat match goal with
           | Hc : review_stage _ _ _ _ _ _ = _ |- _ =>
               apply review_stage_ok in Hc as (? & ? & ? & ? & ?)
           end;
    facts.
  all: finish.
Qed.

Lemma on_oscillation_ok userRequest p i σ r log σ' :
  on_oscillation userRequest p i σ = (r, log, σ') ->
  ends_well r log
  /\ patchHistory σ' = patchHistory σ
  /\ count is_review_call log = 0%nat
  /\ count is_diagnostic_round log = 0%nat
  /\ (forall l', r <> Ret (Continue l')).
Proof.
  intros H. unfold on_oscillation in H. exec H; facts.
  all: finish.
Qed.

Lemma patch_stage_ok userRequest sharedState bm p i l0 σ r log σ' :
  patch_stage userRequest sharedState bm p i l0 σ = (r, log, σ') ->
  ends_well r log
  /\ history_step (patchHistory σ) (patchHistory σ')
  /\ (count is_diagnostic_round log <= count is_review_call log <= 1)%nat
  /\ (count is_review_call log = 1%nat -> review_mode config = final_only ->
        (max_iterations config <= i)%Z)
  /\ (forall l', r = Ret (Continue l') ->
        iteration l' = (i - Z.of_nat (count is_diagnostic_round log))%Z).
Proof.
  intros H. unfold patch_stage in H. exec H;
    repeat match goal with
           | Hc : after_tests _ _ _ _ _ _ _ _ = _ |- _ =>
               apply after_tests_ok in Hc as (? & ? & ? & ? & ?)
           | Hc : on_oscillation _ _ _ _ = _ |- _ =>
               apply on_oscillation_ok in Hc as (? & ? & ? & ? & ?)
           end;
    facts.
  all: finish.
Qed.

Lemma iteration_body_ok userRequest l0 σ r log σ' :
  iteration_body userRequest l0 σ = (r, log, σ') ->
  ends_well r log
  /\ history_step (patchHistory σ) (patchHistory σ')
  /\ (count is_diagnostic_round log <= count is_review_call log <= 1)%nat
  /\ (count is_review_call log = 1%nat -> review_mode config = final_only ->
        (max_iterations config <= iteration l0 + 1)%Z)
  /\ (forall l', r = Ret (Continue l') ->
        iteration l' = (iteration l0 + 1 - Z.of_nat (count is_diagnostic_round log))%Z).
Proof.
  intros H. unfold iteration_body in H. exec H;
    repeat match goal with
           | Hc : patch_stage _ _ _ _ _ _ _ = _ |- _ =>
               apply patch_stage_ok in Hc as (? & ? & ? & ? & ?)
           end;
    facts.
  all: finish.
Qed.

(** A pass changes the patch history at one place only, the [push] that
    follows a negative oscillation test: at every point of the pass the
    history is the one before the pass or the one after it. *)
Lemma iteration_body_history userRequest l σ :
  history_step (patchHistory σ) (patchHistory (snd (iteration_body userRequest l σ))).
Proof.
  destruct (iteration_body userRequest l σ) as [[r log] σ'] eqn:E.
  apply iteration_body_ok in E as (_ & Hh & _). exact Hh.
Qed.

(** ** The whole cycle *)

Lemma untagged_at_iteration i log : untagged (at_iteration i log) = log.
Proof.
  unfold untagged, at_iteration. rewrite map_map. simpl. apply map_id.
Qed.

Lemma untagged_app l1 l2 : untagged (l1 ++ l2) = untagged l1 ++ untagged l2.
Proof. apply map_app. Qed.

Lemma ends_cycle_app r l1 l2 :
  count is_completion l1 = 0%nat -> ends_cycle r l2 -> ends_cycle r (l1 ++ l2).
Proof.
  intros H1. destruct r as [[| |]|e]; simpl.
  - intros (init & o & -> & Hi & Ho). exists (l1 ++ init), o.
    rewrite count_app, app_assoc. repeat split; auto; lia.
  - intros H2. rewrite count_app. lia.
  - intros H2. rewrite count_app. lia.
  - intros H2. rewrite count_app. lia.
Qed.

Lemma cycle_loop_shape fuel userRequest l σ :
  ends_cycle (outcome_of (cycle_loop fuel userRequest l σ))
    (untagged (log_of (cycle_loop fuel userRequest l σ))).
Proof.
  revert l σ. induction fuel as [|fuel IH]; intros l σ; simpl.
  - destruct (iteration l <? max_iterations config)%Z; reflexivity.
  - destruct (iteration l <? max_iterations config)%Z; [| reflexivity].
    destruct (iteration_body userRequest l σ) as [[r log] σ1] eqn:E.
    apply iteration_body_ok in E as (Hs & _).
    destruct r as [[l'|]|e]; cbn [outcome_of log_of fst snd].
    + specialize (IH l' σ1).
      destruct (cycle_loop fuel userRequest l' σ1) as [[r2 log2] σ2].
      cbn [outcome_of log_of fst snd] in *.
      rewrite untagged_app, untagged_at_iteration.
      apply ends_cycle_app; assumption.
    + rewrite untagged_at_iteration. exact Hs.
    + rewrite untagged_at_iteration. exact Hs.
Qed.

Lemma NoDup_history_step before after :
  history_step before after -> NoDup before -> NoDup after.
Proof.
  intros [-> | (p & Hp & ->)] Hn; [exact Hn|].
  apply NoDup_app. split; [exact Hn|]. split.
  - intros x Hx Hx'. apply list_elem_of_singleton in Hx'. subst.
    apply Hp, list_elem_of_In, Hx.
  - apply NoDup_singleton.
Qed.

Lemma cycle_loop_history fuel userRequest l σ :
  NoDup (patchHistory σ) ->
  NoDup (patchHistory (state_of (cycle_loop fuel userRequest l σ))).
Proof.
  revert l σ. induction fuel as [|fuel IH]; intros l σ Hn; simpl.
  - destruct (iteration l <? max_iterations config)%Z; exact Hn.
  - destruct (iteration l <? max_iterations config)%Z; [| exact Hn].
    destruct (iteration_body userRequest l σ) as [[r log] σ1] eqn:E.
    apply iteration_body_ok in E as (_ & Hh & _).
    apply NoDup_history_step in Hh; [| exact Hn].
    destruct r as [[l'|]|e]; cbn [state_of snd]; try exact Hh.
    specialize (IH l' σ1 Hh).
    destruct (cycle_loop fuel userRequest l' σ1) as [[r2 log2] σ2].
    exact IH.
Qed.

Lemma count_pos_of_In p o l : In o l -> p o = true -> (1 <= count p l)%nat.
Proof.
  induction l as [|x l IH]; simpl; [tauto|].
  intros [-> | Hin] Hp; rewrite count_cons.
  - rewrite Hp. lia.
  - specialize (IH Hin Hp). lia.
Qed.

Lemma In_at_iteration i j o log : In (j, o) (at_iteration i log) -> j = i /\ In o log.
Proof.
  unfold at_iteration. rewrite in_map_iff. intros (x & E & Hx).
  inversion E; subst. auto.
Qed.

Lemma cycle_loop_final_only fuel userRequest l σ :
  review_mode config = final_only ->
  (forall i o, In (i, o) (log_of (cycle_loop fuel userRequest l σ)) ->
               is_review_call o = true -> i = max_iterations config)
  /\ (count is_review_call (untagged (log_of (cycle_loop fuel userRequest l σ)))
      <= 1 + count is_diagnostic_round
               (untagged (log_of (cycle_loop fuel userRequest l σ))))%nat.
Proof.
  intros Hmode. revert l σ. induction fuel as [|fuel IH]; intros l σ; simpl.
  - destruct (iteration l <? max_iterations config)%Z; simpl;
      (split; [intros ? ? [] | unfold untagged, count; simpl; lia]).
  - destruct (iteration l <? max_iterations config)%Z eqn:Elt;
      [| simpl; split; [intros ? ? [] | unfold untagged, count; simpl; lia]].
    apply Z.ltb_lt in Elt.
    destruct (iteration_body userRequest l σ) as [[r log] σ1] eqn:E.
    apply iteration_body_ok in E as (_ & _ & Hc & Hmax & Hcont).
    assert (Htag : forall i o, In (i, o) (at_iteration (iteration l + 1) log) ->
                               is_review_call o = true -> i = max_iterations config).
    { intros i o Hin Ho. apply In_at_iteration in Hin as [-> Hin].
      pose proof (count_pos_of_In _ _ _ Hin Ho).
      assert (Hone : count is_review_call log = 1%nat) by lia.
      specialize (Hmax Hone Hmode). lia. }
    destruct r as [[l'|]|e]; cbn [log_of fst snd].
    + specialize (IH l' σ1). specialize (Hcont l' eq_refl).
      destruct fuel as [|fuel'].
      * simpl in *. destruct (iteration l' <? max_iterations config)%Z;
          cbn [log_of fst snd] in *; rewrite app_nil_r, untagged_at_iteration;
          (split; [exact Htag | lia]).
      * destruct (cycle_loop (S fuel') userRequest l' σ1) as [[r2 log2] σ2] eqn:E2.
        cbn [log_of fst snd] in *. destruct IH as [IHa IHb].
        split.
        -- intros i o Hin Ho. apply in_app_or in Hin as [Hin | Hin]; eauto.
        -- rewrite untagged_app, untagged_at_iteration, !count_app.
           destruct (Nat.eq_dec (count is_review_call log)
                       (count is_diagnostic_round log)) as [Heq | Hne]; [lia|].
           (* the reviewer ran and no diagnostics followed: the counter has
              reached [max_iterations] and the loop ends *)
           assert (Hone : count is_review_call log = 1%nat) by lia.
           specialize (Hmax Hone Hmode).
           assert (Hl' : (max_iterations config <= iteration l')%Z) by lia.
           simpl in E2. apply Z.ltb_ge in Hl'. rewrite Hl' in E2.
           inversion E2; subst.
           change (untagged []) with (@nil Obs). rewrite !count_nil. lia.
    + rewrite untagged_at_iteration. split; [exact Htag | lia].
    + rewrite untagged_at_iteration. split; [exact Htag | lia].
Qed.

Lemma events_untagged {T : Type} (log : list (T * Obs)) :
  events log = omap emitted (map snd log).
Proof.
  unfold events. induction log as [|[i o] log IH]; [reflexivity|].
  cbn. rewrite IH. destruct o; reflexivity.
Qed.

Lemma quiet_events l :
  count is_completion l = 0%nat ->
  Forall (fun e => is_cycle_complete e = false) (omap emitted l).
Proof.
  induction l as [|o l IH]; [constructor|].
  rewrite count_cons. intros H.
  destruct o as [e| |]; simpl in *; try (apply IH; lia).
  destruct (is_cycle_complete e) eqn:Ee; [lia|].
  constructor; [exact Ee | apply IH; lia].
Qed.

Lemma terminal_event o :
  terminal_obs o = true -> exists e, omap emitted [o] = [e] /\ is_terminal e = true.
Proof. destruct o as [e| |]; simpl; try discriminate. eauto. Qed.

(** C1, as the code has it.  Every run of [runCycle] emits at most one
    [cycle_complete] event and nothing after it: the events are a sequence
    without [cycle_complete] followed by at most one terminal event.  When
    [runCycle] returns from inside its loop that terminal event is there: a
    [cycle_complete], or the state machine's own [error], in which case the
    cycle has emitted no [cycle_complete].  Other [error] events may come
    before it: the parser's on a parse failure, and those of the arbiter and
    moderator sub-protocols. *)
Theorem runCycle_terminal_event fuel userRequest σ0 :
  exists quiet final,
    events (log_of (runCycle fuel userRequest σ0)) = quiet ++ final
    /\ Forall (fun e => is_cycle_complete e = false) quiet
    /\ (final = [] \/ exists e, final = [e] /\ is_terminal e = true)
    /\ (outcome_of (runCycle fuel userRequest σ0) = Ret Returned -> final <> []).
Proof.
  unfold runCycle.
  pose proof (cycle_loop_shape fuel userRequest (mkLocals 0 "" None [])
                (mkState (world σ0) [] [] [])) as Hs.
  destruct (cycle_loop fuel userRequest (mkLocals 0 "" None [])
              (mkState (world σ0) [] [] [])) as [[r log] σ].
  cbn [outcome_of log_of fst snd] in *.
  rewrite events_untagged. cbn [map snd].
  change (map snd log) with (untagged log).
  set (start := status [lit "Starting build/review cycle..."]).
  change (omap emitted (Emit start :: untagged log))
    with (start :: omap emitted (untagged log)).
  assert (Hq : forall l, count is_completion l = 0%nat ->
                         Forall (fun e => is_cycle_complete e = false)
                           (start :: omap emitted l)).
  { intros l Hl. constructor; [reflexivity | apply quiet_events, Hl]. }
  destruct r as [[| |]|e]; simpl in Hs.
  - destruct Hs as (init & o & -> & Hi & Ho).
    apply terminal_event in Ho as (e & He & Ht).
    exists (start :: omap emitted init), [e]. rewrite omap_app, He.
    repeat split; eauto; discriminate.
  - exists (start :: omap emitted (untagged log)), [].
    rewrite app_nil_r. repeat split; auto; discriminate.
  - exists (start :: omap emitted (untagged log)), [].
    rewrite app_nil_r. repeat split; auto; discriminate.
  - exists (start :: omap emitted (untagged log)), [].
    rewrite app_nil_r. repeat split; auto; discriminate.
Qed.

(** C4, as the code has it.  Under [review_mode = final_only] every call of
    the reviewer is made with the counter [iteration] equal to
    [max_iterations], and the reviewer is called at most once more than
    there are uncertainty-diagnostic rounds in the cycle: such a round
    decrements the counter, and the pass that follows reviews again. *)
Theorem final_only_reviewer_calls fuel userRequest σ0 :
  review_mode config = final_only ->
  (forall i prompt,
      In (i, Complete reviewer prompt) (log_of (runCycle fuel userRequest σ0)) ->
      i = max_iterations config)
  /\ (count is_review_call (untagged (log_of (runCycle fuel userRequest σ0)))
      <= 1 + count is_diagnostic_round
               (untagged (log_of (runCycle fuel userRequest σ0))))%nat.
Proof.
  intros Hmode. unfold runCycle.
  pose proof (cycle_loop_final_only fuel userRequest (mkLocals 0 "" None [])
                (mkState (world σ0) [] [] []) Hmode) as [Ha Hb].
  destruct (cycle_loop fuel userRequest (mkLocals 0 "" None [])
              (mkState (world σ0) [] [] [])) as [[r log] σ].
  cbn [log_of fst snd] in *. split.
  - intros i prompt [E | Hin]; [discriminate|]. eapply Ha; eauto.
  - unfold untagged in *. cbn [map snd]. rewrite !count_cons. simpl. lia.
Qed.

(** C10.  After any number of passes of the loop of [runCycle] the patch
    history holds pairwise distinct patches: it is emptied when the cycle
    starts, and a pass changes it only by appending the new patch after
    [detectOscillation] has found that [patchHistory.includes] is false. *)
Theorem patchHistory_NoDup fuel userRequest σ0 :
  NoDup (patchHistory (state_of (runCycle fuel userRequest σ0))).
Proof.
  unfold runCycle.
  pose proof (cycle_loop_history fuel userRequest (mkLocals 0 "" None [])
                (mkState (world σ0) [] [] []) (NoDup_nil_2)) as H.
  destruct (cycle_loop fuel userRequest (mkLocals 0 "" None [])
              (mkState (world σ0) [] [] [])) as [[r log] σ].
  exact H.
Qed.

(** ** Step 3: the commands run (C8) *)

Lemma is_zero_true (code : option Z) : is_zero code = true <-> code = Some 0%Z.
Proof.
  destruct code as [n|]; cbn; [|split; discriminate].
  rewrite Z.eqb_eq. split; [intros ->; reflexivity | intros [= ->]; reflexivity].
Qed.

(** [runCommand] throws nothing: it answers with the output of the child
    that it starts and leaves the world as the child has left it. *)
Lemma runCommand_spec command args σ :
  runCommand command args σ
  = (Ret (output_of (fst (run_child command args (world σ)))),
     [Exec command args],
     set_world (snd (run_child command args (world σ))) σ).
Proof.
  unfold runCommand, bind, execa.
  destruct (run_child command args (world σ)) as [[result|msg|msg] w]; reflexivity.
Qed.


Lemma runCommand_inv command args σ :
  exists result σ', runCommand command args σ = (Ret result, [Exec command args], σ').
Proof. rewrite runCommand_spec. eauto. Qed.



(** ** The oscillation detector (C5) *)

Lemma includes_In (history : list string) (p : string) :
  includes history p = true <-> In p history.
Proof.
  unfold includes. rewrite existsb_exists. split.
  - intros (x & Hx & E). apply String.eqb_eq in E. subst. exact Hx.
  - intros H. exists p. split; [exact H | apply String.eqb_refl].
Qed.

Lemma above_threshold_lt (q : Q) : above_threshold q = true <-> (95 # 100 < q)%Q.
Proof.
  unfold above_threshold. rewrite negb_true_iff. split.
  - intros H. apply Qnot_le_lt. intros L. apply Qle_bool_iff in L. congruence.
  - intros H. destruct (Qle_bool q (95 # 100)) eqn:E; [| reflexivity].
    apply Qle_bool_iff in E. exfalso. eapply Qlt_not_le; eauto.
Qed.

Lemma oscillation_iff (history : list string) (p : string) :
  is_Some (oscillation history p) <->
  In p history
  \/ ((2 <= length history)%nat
      /\ exists lastPatch, last history = Some lastPatch
                           /\ (95 # 100 < patchSimilarity lastPatch p)%Q).
Proof.
  unfold oscillation.
  destruct (includes history p) eqn:Ei.
  - split; [intros _; left; apply includes_In; exact Ei | intros _; eauto].
  - assert (Hn : ~ In p history).
    { intros H. apply includes_In in H. congruence. }
    destruct (2 <=? length history)%nat eqn:El.
    + apply Nat.leb_le in El.
      destruct (last history) as [lastPatch|] eqn:Ela.
      * destruct (above_threshold (patchSimilarity lastPatch p)) eqn:Ea.
        -- split; [intros _ | intros _; eauto].
           right. split; [exact El|]. exists lastPatch. split; [reflexivity|].
           apply above_threshold_lt; exact Ea.
        -- split; [intros [x Hx]; discriminate|].
           intros [H | (_ & l' & E & Hlt)]; [contradiction|].
           inversion E; subst. apply above_threshold_lt in Hlt. congruence.
      * split; [intros [x Hx]; discriminate|].
        intros [H | (_ & l' & E & _)]; [contradiction | discriminate].
    + apply Nat.leb_gt in El.
      split; [intros [x Hx]; discriminate|].
      intros [H | (H2 & _)]; [contradiction | lia].
Qed.

(** C5, as the code has it.  [detectOscillation] answers true exactly when
    the new patch is equal to some patch of the history, or the history
    holds at least two patches and the Jaccard similarity of the line sets
    of its last patch and the new one is strictly above 0.95. *)
Theorem detectOscillation_iff p σ :
  exists stuck,
    fst (fst (detectOscillation p σ)) = Ret stuck
    /\ (stuck = true <->
        In p (patchHistory σ)
        \/ ((2 <= length (patchHistory σ))%nat
            /\ exists lastPatch, last (patchHistory σ) = Some lastPatch
                                 /\ (95 # 100 < patchSimilarity lastPatch p)%Q)).
Proof.
  pose proof (oscillation_iff (patchHistory σ) p) as Hi.
  unfold detectOscillation, bind, get. cbn.
  destruct (oscillation (patchHistory σ) p) as [msg|]; cbn.
  - exists true. split; [reflexivity|]. split; [intros _; apply Hi; eauto | reflexivity].
  - exists false. split; [reflexivity|]. split; [discriminate|].
    intros H. apply Hi in H. destruct H; discriminate.
Qed.

(** ** Patch application (C6) *)

(** C6, on the path where [git apply] fails.  When the patch passes the
    guard and [git apply] exits with a code other than 0 (or is ended by a
    signal, with no exit code) without touching the temporary file,
    [applyPatch] reports a failure and returns with the temporary file
    still in the workspace: the [catch] branch does not remove it. *)
Theorem applyPatch_leaves_temp_file p σ result w :
  validatePatch (allow_paths config) p = Ret (mkValidation true None) ->
  run_child "git" ["apply"; "--whitespace=nowarn"; tempPatchFile]
    (set_files (<[tempPatchFile := p]> (files (world σ))) (world σ)) = (Exited result, w) ->
  exitCode result <> Some 0%Z ->
  files w !! tempPatchFile = Some p ->
  exists err log σ',
    applyPatch p σ = (Ret (mkApplyResult false (Some err)), log, σ')
    /\ files (world σ') !! tempPatchFile = Some p.
Proof.
  intros Hv Hgit Hcode Hfile.
  unfold applyPatch, bind, lift, writeFileSync, execa. rewrite Hv.
  cbn [valid negb world set_world]. rewrite Hgit.
  destruct (is_zero (exitCode result)) eqn:Ez;
    [apply is_zero_true in Ez; contradiction|].
  cbn [andb negb].
  eexists _, _, _. split; [reflexivity|]. exact Hfile.
Qed.

(** The later [applyPatch] does what C6 says: however [git apply] ends,
    the temporary file is gone when [applyPatch_later] returns after having
    written it. *)
Lemma applyPatch_later_removes_temp_file p σ :
  valid (validatePatch_later (allow_paths config) p) = true ->
  exists answer log σ',
    applyPatch_later p σ = (Ret answer, log, σ')
    /\ files (world σ') !! tempPatchFile = None.
Proof.
  intros Hv. unfold applyPatch_later. rewrite Hv. cbn [negb].
  unfold bind, writeFileSync, runProcess, existsSync, unlinkSync, ret.
  cbn [world set_world files set_files].
  destruct (run_child _ _ _) as [[result|msg|msg] w]; cbn [world set_world files set_files];
    destruct (files w !! tempPatchFile) as [text|] eqn:Ef;
    cbn [bool_decide]; rewrite ?Ef;
    try (rewrite bool_decide_eq_true_2 by eauto);
    try (rewrite bool_decide_eq_false_2 by (intros [? ?]; discriminate));
    cbn [world set_world files set_files]; rewrite ?Ef;
    eexists _, _, _; (split; [reflexivity|]);
    cbn [world set_world files set_files];
    first [ apply lookup_delete_eq | exact Ef ].
Qed.

(** ** File requests (C3) *)

Lemma readFile_caught_returns filePath σ :
  exists entry, readFile_caught filePath σ = (Ret entry, [], σ).
Proof.
  unfold readFile_caught.
  destruct (isPathAllowed (allow_paths config) filePath) as [[|]|[]]; cbn; eauto.
  unfold bind, readFileSync. cbn.
  destruct (files (world σ) !! path_join workspaceRoot filePath); cbn; eauto.
Qed.

Lemma readFiles_from_returns filePaths : forall result σ,
  exists contents, readFiles_from filePaths result σ = (Ret contents, [], σ).
Proof.
  induction filePaths as [|f fs IH]; intros result σ; cbn; [eauto|].
  destruct (readFile_caught_returns f σ) as (entry & E).
  unfold bind. rewrite E.
  destruct (IH (<[f := entry]> result) σ) as (contents & E2). rewrite E2. eauto.
Qed.

(** What a file request does to the loop: the pass ends with [continue],
    the note appended to [openIssues], and the counter one above its value
    at the start of the pass. *)
Lemma files_needed_consumes_iteration userRequest l0 σ chunks v w bm file more :
  complete builder
    (BuilderPrompt
       (mkSharedState userRequest (allow_paths config) (last (patchHistory σ))
          (lastTestOutput l0) (openIssues l0)))
    (world σ) = (Replied chunks (Some v), w) ->
  BuilderMessageSchema v = Some bm ->
  files_needed bm = Some (file :: more) ->
  exists log σ',
    iteration_body userRequest l0 σ
    = (Ret (Continue
              (mkLocals (iteration l0 + 1) (lastPatch l0) (lastTestOutput l0)
                 (openIssues l0
                  ++ [[lit "Files provided: "; lit (join ", " (file :: more))]]))),
       log, σ')
    /\ count is_review_call log = 0%nat
    /\ patchHistory σ' = patchHistory σ.
Proof.
  intros Hc Hs Hf.
  unfold iteration_body, bind, buildSharedState, get, complete_streaming, parseJSON.
  cbn -[readFiles join]. rewrite Hc. rewrite Hs. cbn -[readFiles join].
  rewrite Hf. cbn -[readFiles join].
  match goal with
  | |- context [readFiles ?fs ?s] =>
      destruct (readFiles_from_returns fs ∅ s) as (contents & E);
      unfold readFiles; rewrite E
  end.
  cbn -[join]. eexists _, _. split; [reflexivity|].
  split; [| reflexivity].
  rewrite !count_cons, count_app, count_stream_chunks by reflexivity.
  reflexivity.
Qed.

(** * Properties of the tools and of the sub-protocols *)

(** ** [applyPatch] *)

Lemma check_paths_valid (allowPaths filePaths : list string) (v : Validation) :
  check_paths allowPaths filePaths = Ret v -> valid v = true -> v = mkValidation true None.
Proof.
  induction filePaths as [|f rest IH]; cbn [check_paths].
  - intros E _. inversion E. reflexivity.
  - destruct (isPathAllowed allowPaths f) as [[|]|e]; [exact IH | | discriminate].
    intros E. inversion E. discriminate.
Qed.

Lemma applyPatch_inv p σ answer log σ' :
    applyPatch p σ = (Ret answer, log, σ') ->
    (log = [] \/ log = [Exec "git" ["apply"; "--whitespace=nowarn"; tempPatchFile]])
    /\ (log <> [] -> validatePatch (allow_paths config) p = Ret (mkValidation true None))
    /\ (success answer = true ->
        log <> []
        /\ (exists result w,
              run_child "git" ["apply"; "--whitespace=nowarn"; tempPatchFile]
                (set_files (<[tempPatchFile := p]> (files (world σ))) (world σ))
              = (Exited result, w)
              /\ exitCode result = Some 0%Z)
        /\ files (world σ') !! tempPatchFile = None).
Proof.
  intros H. unfold applyPatch in H.
  apply bind_inv in H as [(e & H & ?) | (v & l1 & σ1 & l2 & Hv & H & ->)]; [discriminate|].
  unfold lift in Hv. inversion Hv; subst l1 σ1. clear Hv.
  match goal with E : validatePatch _ _ = _ |- _ => rename E into Ev end.
  destruct (valid v) eqn:Evalid; cbn [negb] in H.
  - assert (v = mkValidation true None) as -> by (eapply check_paths_valid; eauto).
    unfold bind, writeFileSync, execa, unlinkSync, ret in H.
    cbn [world set_world files set_files] in H.
    destruct (run_child _ _ _) as [[result|msg|msg] w] eqn:Egit.
    + cbn [andb] in H. destruct (is_zero (exitCode result)) eqn:Ecode; cbn [negb] in H.
      * cbn [world set_world files set_files] in H.
        destruct (files w !! tempPatchFile) eqn:Ef; inversion H; subst; cbn [app].
        -- repeat split; auto; try discriminate.
           ++ eexists _, _. split; [reflexivity | apply is_zero_true; exact Ecode].
           ++ cbn. apply lookup_delete_eq.
        -- repeat split; auto; discriminate.
      * inversion H; subst. cbn [app]. repeat split; auto; discriminate.
    + inversion H; subst. cbn [app]. repeat split; auto; discriminate.
    + inversion H; subst. cbn [app]. repeat split; auto; discriminate.
  - unfold ret in H. inversion H; subst. cbn [app success].
    repeat split; auto; try discriminate; congruence.
Qed.

(** X4.  [applyPatch] starts at most one child process, [git apply] on the
    temporary file, and only for a patch that the guard accepts; it reports
    success only when that process has exited with code 0, and then the
    temporary file is gone. *)
Theorem applyPatch_sound p σ answer log σ' :
  applyPatch p σ = (Ret answer, log, σ') ->
  (log = [] \/ log = [Exec "git" ["apply"; "--whitespace=nowarn"; tempPatchFile]])
  /\ (log <> [] -> validatePatch (allow_paths config) p = Ret (mkValidation true None))
  /\ (success answer = true ->
      log <> []
      /\ (exists result w,
            run_child "git" ["apply"; "--whitespace=nowarn"; tempPatchFile]
              (set_files (<[tempPatchFile := p]> (files (world σ))) (world σ))
            = (Exited result, w)
            /\ exitCode result = Some 0%Z)
      /\ files (world σ') !! tempPatchFile = None).
Proof. apply applyPatch_inv. Qed.

(** ** [readFile] and [readFiles] *)

Lemma readFiles_from_lookup filePaths : forall result σ,
  exists contents,
    readFiles_from filePaths result σ = (Ret contents, [], σ)
    /\ forall f,
         contents !! f
         = if bool_decide (f ∈ filePaths)
           then Some (match fst (fst (readFile_caught f σ)) with
                      | Ret entry => entry
                      | Raise e => Raise e
                      end)
           else result !! f.
Proof.
  induction filePaths as [|g rest IH]; intros result σ; cbn [readFiles_from].
  - exists result. split; [reflexivity|]. intros f.
    rewrite bool_decide_eq_false_2 by (apply not_elem_of_nil). reflexivity.
  - destruct (readFile_caught_returns g σ) as (entry & E).
    unfold bind. rewrite E.
    destruct (IH (<[g := entry]> result) σ) as (contents & E2 & Hl). rewrite E2.
    exists contents. split; [reflexivity|]. intros f. rewrite Hl.
    destruct (decide (f ∈ rest)) as [Hin | Hout].
    + rewrite !bool_decide_eq_true_2; [reflexivity | right; exact Hin | exact Hin].
    + rewrite (bool_decide_eq_false_2 _ Hout).
      destruct (decide (f = g)) as [-> | Hne].
      * rewrite lookup_insert_eq, bool_decide_eq_true_2 by left. rewrite E. reflexivity.
      * rewrite lookup_insert_ne by congruence.
        rewrite bool_decide_eq_false_2; [reflexivity|].
        intros Hc. apply elem_of_cons in Hc as [? | ?]; contradiction.
Qed.

(** X5.  [readFiles] answers with one entry for each path asked for and no
    other; it throws nothing, starts nothing and leaves the workspace as it
    is.  The entry of a path that the allow-list refuses is the error text,
    whatever the file holds; the entry of an allowed path is the text of the
    file at that path under the workspace root when a file that can be read
    is there, and an error text otherwise: [File not found] when nothing is
    at the path, the message of the error of [readFileSync] when what is
    there cannot be read (a directory, say).  (The key [__proto__] is set
    aside: assigning to it adds no property to a JavaScript object.) *)
Theorem readFiles_entries filePaths σ :
  "__proto__" ∉ filePaths ->
  exists contents,
    readFiles filePaths σ = (Ret contents, [], σ)
    /\ (forall f, f ∉ filePaths -> contents !! f = None)
    /\ (forall f, f ∈ filePaths ->
          isPathAllowed (allow_paths config) f = Ret false ->
          contents !! f
          = Some (Ret (FileError [lit "ERROR: "; lit "Path "; lit f;
                                  lit " is not in allowlist"])))
    /\ (forall f, f ∈ filePaths ->
          isPathAllowed (allow_paths config) f = Ret true ->
          contents !! f
          = Some (Ret (match files (world σ) !! path_join workspaceRoot f with
                       | Some text => FileText text
                       | None => FileError [lit "ERROR: "; read_failure f]
                       end))).
Proof.
  intros _. unfold readFiles.
  destruct (readFiles_from_lookup filePaths ∅ σ) as (contents & E & Hl).
  exists contents. split; [exact E|]. repeat split; intros f Hf.
  - rewrite Hl, bool_decide_eq_false_2 by exact Hf. apply lookup_empty.
  - intros Ha. rewrite Hl, bool_decide_eq_true_2 by exact Hf.
    unfold readFile_caught. rewrite Ha. reflexivity.
  - intros Ha. rewrite Hl, bool_decide_eq_true_2 by exact Hf.
    unfold readFile_caught. rewrite Ha. unfold bind, readFileSync. cbn.
    destruct (files (world σ) !! path_join workspaceRoot f); reflexivity.
Qed.

(** ** [runDiagnostics] *)

Lemma runDiagnostics_loop_spec commands : forall results σ,
  exists outputs' log σ',
    runDiagnostics_loop commands results σ
    = (Ret (results ++ zip_with diagnostic_block commands outputs'), log, σ')
    /\ commands_run log = invocation <$> commands
    /\ outputs log = outputs'
    /\ length outputs' = length commands.
Proof.
  induction commands as [|cmd rest IH]; intros results σ; cbn [runDiagnostics_loop].
  - exists [], [], σ. rewrite app_nil_r. repeat split.
  - destruct (runCommand_inv (command_of cmd) (args_of cmd) σ) as (result & σ1 & E).
    unfold bind at 1. rewrite E. unfold bind at 1. cbn [emit observe].
    destruct (IH (results ++ [diagnostic_block cmd result]) σ1)
      as (outs & log & σ' & E2 & Hc & Ho & Hl).
    rewrite E2. exists (result :: outs). eexists _, _. split.
    + cbn [zip_with]. rewrite <- app_assoc. reflexivity.
    + cbn [app commands_run outputs omap list_omap length fmap list_fmap] in *.
      fold (commands_run log). fold (outputs log). rewrite Hc, Ho, Hl. repeat split.
Qed.

(** X15.  [runDiagnostics] announces the commands, then starts every one of them,
    in order and whatever the exit codes (it has no [break]), streams each
    result as a [tests_output] event, and returns one block of text for each
    command with its result; it throws nothing. *)
Theorem runDiagnostics_runs_all commands σ :
  exists results log σ',
    runDiagnostics commands σ
    = (Ret (join_messages [lit nl; lit nl] (zip_with diagnostic_block commands results)),
       Emit (diagnostic_run commands) :: log, σ')
    /\ commands_run log = invocation <$> commands
    /\ outputs log = results
    /\ length results = length commands.
Proof.
  unfold runDiagnostics. unfold bind at 1. cbn [emit observe].
  destruct (runDiagnostics_loop_spec commands [] σ) as (outs & log & σ' & E & Hc & Ho & Hl).
  unfold bind. rewrite E. cbn [app ret]. exists outs, log, σ'.
  rewrite app_nil_r. repeat split; assumption.
Qed.

(** ** [callModerator] *)


Lemma last_snoc_obs (l : list Obs) (o : Obs) : last (l ++ [o]) = Some o.
Proof. apply last_snoc. Qed.

Lemma complete_streaming_counts role prompt σ r l σ' :
  complete_streaming role prompt σ = (r, l, σ') ->
  count is_error_obs l = 0%nat
  /\ count is_moderator_call l = (if is_moderator_call (Complete role prompt) then 1 else 0)%nat
  /\ commands_run l = [].
Proof.
  unfold complete_streaming.
  destruct (complete role prompt (world σ)) as [[chunks parsed|chunks msg] w];
    intros H; inversion H; subst;
    rewrite !count_cons, !count_stream_chunks by reflexivity;
    (split; [reflexivity | split; [destruct role; reflexivity |]]);
    cbn [commands_run omap list_omap]; induction chunks; auto.
Qed.

Lemma callModerator_inv userRequest p lastReview testsPass σ :
  exists answer log σ',
    callModerator userRequest p lastReview testsPass σ = (Ret answer, log, σ')
    /\ (count is_moderator_call log <= 1)%nat
    /\ (moderatorProvider_set = false -> count is_moderator_call log = 0%nat)
    /\ commands_run log = []
    /\ match answer with
       | Some dec =>
           last log = Some (Emit (moderator_decision dec))
           /\ count is_error_obs log = 0%nat
       | None =>
           (exists msg, last log = Some (Emit (error msg)))
           /\ count is_error_obs log = 1%nat
       end.
Proof.
  destruct (callModerator userRequest p lastReview testsPass σ) as [[r log] σ'] eqn:H.
  unfold callModerator in H. destruct moderatorProvider_set eqn:Eset; cbn [negb] in H.
  - unfold bind at 1 in H. cbn [emit observe] in H.
    unfold bind at 1, attempt in H.
    destruct (complete_streaming moderator _ σ) as [[reply l1] σ1] eqn:Ec.
    apply complete_streaming_counts in Ec as (He & Hm & Hx). cbn in Hm.
    destruct reply as [parsed|e].
    + unfold bind at 1, parseJSON in H.
      destruct parsed as [v|]; [destruct (ModeratorDecisionSchema v) as [dec|] |];
        cbn in H; inversion H; subst; clear H;
        eexists _, _, _; (split; [reflexivity|]);
        rewrite ?app_nil_r;
        rewrite ?count_cons, ?count_app, ?count_cons, ?count_nil, ?He, ?Hm; cbn;
        (repeat split; try lia; try discriminate).
      all: try (unfold commands_run; rewrite omap_app; fold (commands_run l1);
                rewrite Hx; reflexivity).
      all: try (rewrite app_comm_cons; apply last_snoc).
      all: try (eexists; rewrite app_comm_cons; apply last_snoc).
    + destruct e; cbn in H; inversion H; subst; clear H;
        eexists _, _, _; (split; [reflexivity|]);
        rewrite ?app_nil_r;
        rewrite ?count_cons, ?count_app, ?count_cons, ?count_nil, ?He, ?Hm; cbn;
        (repeat split; try lia; try discriminate).
      all: try (unfold commands_run; rewrite omap_app; fold (commands_run l1);
                rewrite Hx; reflexivity).
      all: try (eexists; rewrite app_comm_cons; apply last_snoc).
  - cbn in H. inversion H; subst. eexists _, _, _. split; [reflexivity|].
    repeat split; cbn; eauto.
Qed.

(** X16.  [callModerator] throws nothing: a rejection of the moderator's back end
    is caught.  It calls the back end at most once, and not at all when no
    moderator is configured.  When it returns a decision, the last thing it
    has done is to emit it, and it has emitted no [error]; when it returns
    none, the last thing it has done is to emit an [error], its only one. *)
Theorem callModerator_returns userRequest p lastReview testsPass σ :
  exists answer log σ',
    callModerator userRequest p lastReview testsPass σ = (Ret answer, log, σ')
    /\ (count is_moderator_call log <= 1)%nat
    /\ (moderatorProvider_set = false -> count is_moderator_call log = 0%nat)
    /\ commands_run log = []
    /\ match answer with
       | Some dec =>
           last log = Some (Emit (moderator_decision dec))
           /\ count is_error_obs log = 0%nat
       | None =>
           (exists msg, last log = Some (Emit (error msg)))
           /\ count is_error_obs log = 1%nat
       end.
Proof. apply callModerator_inv. Qed.

(** ** [runArbiterMode] *)


(** ** Passes without a review *)

(** X18.  A pass in which the reviewer is not consulted ends the cycle with a
    success.  Under [final_only] before the last iteration, and under
    [selective] at an odd iteration before the last one (the first one
    included, whatever [review_on_test_pass] says), a patch whose tests pass
    is approved without review: the only event that can come before the
    [cycle_complete] is the status of the skipped review. *)
Theorem unreviewed_pass_is_approved userRequest sharedState bm p i l0 output σ :
  exitCode output = Some 0%Z ->
  (i < max_iterations config)%Z ->
  review_mode config = final_only
  \/ (review_mode config = selective /\ Z.rem i 2 <> 0%Z) ->
  exists skipped_status,
    after_tests userRequest sharedState bm p i l0 output σ
    = (Ret Return,
       skipped_status
       ++ [Emit (cycle_complete true
                   [lit "Implementation approved! ";
                    lit "Tests passed and review was skipped per configuration"] i)],
       σ)
    /\ (skipped_status = []
        \/ skipped_status = [Emit (status [lit "Skipping review (tests passed on first try)"])]).
Proof.
  intros Hcode Hlt Hmode.
  unfold after_tests, testsPass_of. rewrite Hcode. cbn [is_zero Z.eqb negb].
  unfold review_stage, shouldRunReviewer. cbn [iteration].
  assert (Hmax : (max_iterations config <=? i)%Z = false) by (apply Z.leb_gt; exact Hlt).
  destruct Hmode as [-> | [-> Hodd]].
  - rewrite Hmax. exists []. split; [reflexivity | auto].
  - assert (Hrem : (Z.rem i 2 =? 0)%Z = false) by (apply Z.eqb_neq; exact Hodd).
    rewrite Hmax, Hrem. cbn [andb negb].
    destruct ((i =? 1)%Z && true && negb (review_on_test_pass config)).
    + eexists. split; [reflexivity | auto].
    + exists []. split; [reflexivity | auto].
Qed.

(** * More properties of the cycle *)

(** ** How long the loop runs *)

Lemma cycle_loop_fuel fuel userRequest : forall l σ,
  outcome_of (cycle_loop fuel userRequest l σ) = Ret OutOfFuel ->
  (iteration l + Z.of_nat fuel
   < max_iterations config
     + Z.of_nat (count is_diagnostic_round
                   (untagged (log_of (cycle_loop fuel userRequest l σ)))))%Z.
Proof.
  induction fuel as [|fuel IH]; intros l σ; cbn [cycle_loop].
  - destruct (iteration l <? max_iterations config)%Z eqn:Elt; cbn; [| discriminate].
    intros _. apply Z.ltb_lt in Elt. lia.
  - destruct (iteration l <? max_iterations config)%Z eqn:Elt; [| discriminate].
    destruct (iteration_body userRequest l σ) as [[r log] σ1] eqn:E.
    apply iteration_body_ok in E as (_ & _ & Hc & _ & Hcont).
    destruct r as [[l'|]|e]; cbn [outcome_of log_of fst snd]; try discriminate.
    specialize (IH l' σ1). specialize (Hcont l' eq_refl).
    destruct (cycle_loop fuel userRequest l' σ1) as [[r2 log2] σ2].
    cbn [outcome_of log_of fst snd] in *. intros H. specialize (IH H).
    rewrite untagged_app, untagged_at_iteration, count_app. lia.
Qed.

(** X21.  How long the loop of [runCycle] can go on.  A run that is still
    inside the loop after [n] passes has made more than [n - max_iterations]
    uncertainty-diagnostic rounds: every pass but those that end in such a
    round moves the counter one step towards [max_iterations], so that only
    these rounds can keep the loop going beyond [max_iterations] passes. *)
Theorem passes_beyond_max_iterations fuel userRequest σ0 :
  outcome_of (runCycle fuel userRequest σ0) = Ret OutOfFuel ->
  (Z.of_nat fuel
   < max_iterations config
     + Z.of_nat (count is_diagnostic_round
                   (untagged (log_of (runCycle fuel userRequest σ0)))))%Z.
Proof.
  unfold runCycle.
  pose proof (cycle_loop_fuel fuel userRequest (mkLocals 0 "" None [])
                (mkState (world σ0) [] [] [])) as H.
  destruct (cycle_loop fuel userRequest (mkLocals 0 "" None [])
              (mkState (world σ0) [] [] [])) as [[r log] σ].
  cbn [outcome_of log_of fst snd iteration] in *.
  intros Hout. specialize (H Hout).
  unfold untagged in *. cbn [map snd]. rewrite count_cons.
  cbn. lia.
Qed.

(** ** The iteration count of a [cycle_complete] *)


Lemma quiet_reports i l : count is_completion l = 0%nat -> Forall (reports i) l.
Proof.
  induction l as [|o l IH]; [constructor|].
  rewrite count_cons. intros H.
  destruct (is_completion o) eqn:Eo; [lia|].
  constructor; [| apply IH; lia].
  destruct o as [[]| |]; cbn in *; auto; discriminate.
Qed.

Ltac reporting :=
  rewrite ?app_nil_r; cbn [iteration with_openIssues] in *;
  repeat first
    [ assumption
    | apply Forall_nil_2
    | apply Forall_cons_2; [exact I || reflexivity |]
    | apply Forall_app_2
    | apply quiet_reports; assumption ].

Lemma check_max_after_changes_reports userRequest l review testsPass σ r log σ' :
  check_max_after_changes userRequest l review testsPass σ = (r, log, σ') ->
  Forall (reports (iteration l)) log.
Proof.
  intros H. unfold check_max_after_changes in H. exec H; facts; reporting.
Qed.

Lemma interpret_review_reports userRequest sharedState l review testsPass σ r log σ' :
  interpret_review userRequest sharedState l review testsPass σ = (r, log, σ') ->
  Forall (reports (iteration l)) log.
Proof.
  intros H. unfold interpret_review in H. exec H;
    repeat match goal with
           | Hc : check_max_after_changes _ _ _ _ _ = _ |- _ =>
               apply check_max_after_changes_reports in Hc
           end;
    facts; reporting.
Qed.

Lemma review_stage_reports userRequest sharedState bm l testsPass σ r log σ' :
  review_stage userRequest sharedState bm l testsPass σ = (r, log, σ') ->
  Forall (reports (iteration l)) log.
Proof.
  intros H. unfold review_stage in H. exec H;
    repeat match goal with
           | Hc : interpret_review _ _ _ _ _ _ = _ |- _ =>
               apply interpret_review_reports in Hc
           end;
    facts; reporting.
Qed.

Lemma after_tests_reports userRequest sharedState bm p i l0 output σ r log σ' :
  after_tests userRequest sharedState bm p i l0 output σ = (r, log, σ') ->
  Forall (reports i) log.
Proof.
  intros H. unfold after_tests, tests_failed_branch in H. exec H;
    repeat match goal with
           | Hc : review_stage _ _ _ _ _ _ = _ |- _ =>
               apply review_stage_reports in Hc
           end;
    facts; reporting.
Qed.

Lemma on_oscillation_reports userRequest p i σ r log σ' :
  on_oscillation userRequest p i σ = (r, log, σ') -> Forall (reports i) log.
Proof.
  intros H. unfold on_oscillation in H. exec H; facts; reporting.
Qed.

Lemma patch_stage_reports userRequest sharedState bm p i l0 σ r log σ' :
  patch_stage userRequest sharedState bm p i l0 σ = (r, log, σ') ->
  Forall (reports i) log.
Proof.
  intros H. unfold patch_stage in H. exec H;
    repeat match goal with
           | Hc : after_tests _ _ _ _ _ _ _ _ = _ |- _ =>
               apply after_tests_reports in Hc
           | Hc : on_oscillation _ _ _ _ = _ |- _ =>
               apply on_oscillation_reports in Hc
           end;
    facts; reporting.
Qed.

Lemma iteration_body_reports userRequest l0 σ r log σ' :
  iteration_body userRequest l0 σ = (r, log, σ') ->
  Forall (reports (iteration l0 + 1)) log.
Proof.
  intros H. unfold iteration_body in H. exec H;
    repeat match goal with
           | Hc : patch_stage _ _ _ _ _ _ _ = _ |- _ =>
               apply patch_stage_reports in Hc
           end;
    facts; reporting.
Qed.

Lemma cycle_loop_range fuel userRequest : forall l σ,
  (0 <= iteration l)%Z ->
  Forall (fun x => (1 <= fst x <= max_iterations config)%Z /\ reports (fst x) (snd x))
    (log_of (cycle_loop fuel userRequest l σ)).
Proof.
  induction fuel as [|fuel IH]; intros l σ Hl; cbn [cycle_loop].
  - destruct (iteration l <? max_iterations config)%Z; constructor.
  - destruct (iteration l <? max_iterations config)%Z eqn:Elt; [| constructor].
    apply Z.ltb_lt in Elt.
    destruct (iteration_body userRequest l σ) as [[r log] σ1] eqn:E.
    pose proof (iteration_body_reports _ _ _ _ _ _ E) as Hr.
    apply iteration_body_ok in E as (_ & _ & Hc & _ & Hcont).
    assert (Hpass : Forall (fun x => (1 <= fst x <= max_iterations config)%Z
                                     /\ reports (fst x) (snd x))
                      (at_iteration (iteration l + 1) log)).
    { unfold at_iteration. apply Forall_map. eapply Forall_impl; [exact Hr|].
      cbn. intros o Ho. split; [lia | exact Ho]. }
    destruct r as [[l'|]|e]; cbn [log_of fst snd]; try exact Hpass.
    specialize (Hcont l' eq_refl).
    assert (Hl' : (0 <= iteration l')%Z) by lia.
    specialize (IH l' σ1 Hl').
    destruct (cycle_loop fuel userRequest l' σ1) as [[r2 log2] σ2].
    cbn [log_of fst snd] in *. apply Forall_app_2; assumption.
Qed.

(** X20.  Every [cycle_complete] of a cycle reports a number of iterations
    between 1 and [max_iterations] ([max_iterations] being an integer): the
    counter starts at 0, a pass begins only below [max_iterations] and adds
    one, and the only decrement follows an increment. *)
Theorem cycle_complete_iterations fuel userRequest σ0 :
  Forall iterations_in_range (events (log_of (runCycle fuel userRequest σ0))).
Proof.
  unfold runCycle.
  pose proof (cycle_loop_range fuel userRequest (mkLocals 0 "" None [])
                (mkState (world σ0) [] [] []) (Z.le_refl 0)) as H.
  destruct (cycle_loop fuel userRequest (mkLocals 0 "" None [])
              (mkState (world σ0) [] [] [])) as [[r log] σ].
  cbn [log_of fst snd] in *. unfold events. cbn [omap list_omap snd].
  constructor; [exact I|].
  fold (@events Z log). unfold events.
  induction H as [|[i o] rest [Hi Hr] _ IH]; [constructor|].
  cbn [omap list_omap snd fst] in *. destruct o as [e| |]; try exact IH.
  constructor; [| exact IH].
  destruct e; cbn in *; auto. subst. exact Hi.
Qed.

(** ** Oscillation *)

(** X19.  When the detector answers true the cycle ends in that pass, with a
    [cycle_complete], and the patch is neither recorded nor applied: no
    child process is started, [git apply] included.  The cycle reports a
    success in that case only if the moderator is enabled and has decided
    [accept_builder]. *)
Theorem oscillation_ends_the_cycle userRequest sharedState bm p i l0 σ :
  is_Some (oscillation (patchHistory σ) p) ->
  exists log success msg σ',
    patch_stage userRequest sharedState bm p i l0 σ
    = (Ret Return, Emit (patch_ready p) :: log ++ [Emit (cycle_complete success msg i)], σ')
    /\ commands_run log = []
    /\ patchHistory σ' = patchHistory σ
    /\ (success = true ->
        enable_moderator config = true
        /\ exists dec, decision dec = accept_builder
                       /\ In (Emit (moderator_decision dec)) log).
Proof.
  intros [m Hm]. unfold patch_stage.
  unfold bind at 1. cbn [emit observe].
  unfold bind at 1, detectOscillation. unfold bind at 1, get. rewrite Hm.
  unfold bind at 1. cbn [emit observe ret app].
  unfold on_oscillation. unfold bind at 1, get. cbn [app].
  destruct (enable_moderator config) eqn:Een.
  - destruct (last (reviewHistory σ)) as [lastReview|] eqn:El.
    + destruct (callModerator_inv userRequest p lastReview false σ)
        as (answer & log & σ1 & E & _ & _ & Hx & Hlast).
      pose proof (benign_spec _ _ _ _ E) as (_ & _ & _ & Hh).
      unfold bind at 1. unfold bind at 1. rewrite E. cbn [ret app].
      rewrite app_nil_r.
      destruct answer as [dec|]; cbn [accepted_builder].
      * destruct (decision dec) eqn:Ed; cbn [emit observe bind ret app];
          eexists (_ :: log), _, _, _; (split; [cbn [app]; rewrite ?app_nil_r; reflexivity|]);
          cbn [commands_run omap list_omap]; fold (commands_run log);
          (split; [exact Hx | split; [exact Hh | try discriminate]]).
        intros _. split; [reflexivity|]. exists dec. split; [exact Ed|].
        right. destruct Hlast as [Hl _]. apply last_Some in Hl as [l' ->].
        apply in_or_app. right. left. reflexivity.
      * cbn [emit observe bind ret app].
        eexists (_ :: log), _, _, _. split; [cbn [app]; rewrite ?app_nil_r; reflexivity|].
        cbn [commands_run omap list_omap]. fold (commands_run log).
        split; [exact Hx | split; [exact Hh | discriminate]].
    + cbn [bind ret emit observe app].
      eexists [_], _, _, _. split; [reflexivity|].
      split; [reflexivity | split; [reflexivity | discriminate]].
  - cbn [bind ret emit observe app].
    eexists [_], _, _, _. split; [reflexivity|].
    split; [reflexivity | split; [reflexivity | discriminate]].
Qed.

(** ** What an approval stands on *)

Lemma count_approval_quiet l : count is_completion l = 0%nat -> count is_approval l = 0%nat.
Proof.
  induction l as [|o l IH]; [reflexivity|].
  rewrite !count_cons. intros H.
  destruct (is_completion o) eqn:Eo; [lia|]. rewrite IH by lia.
  destruct o as [[]| |]; cbn in *; try reflexivity; discriminate.
Qed.

Lemma outputs_app l1 l2 : outputs (l1 ++ l2) = outputs l1 ++ outputs l2.
Proof. apply omap_app. Qed.

Lemma complete_streaming_outputs role prompt σ r l σ' :
  complete_streaming role prompt σ = (r, l, σ') -> outputs l = [].
Proof.
  unfold complete_streaming.
  destruct (complete role prompt (world σ)) as [[chunks parsed|chunks msg] w];
    intros H; inversion H; subst; cbn [outputs omap list_omap];
    induction chunks; auto.
Qed.

Lemma parseJSON_outputs {T : Type} parsed (schema_ : schema T) σ r l σ' :
  parseJSON parsed schema_ σ = (r, l, σ') -> outputs l = [].
Proof.
  unfold parseJSON. destruct parsed as [v|]; [destruct (schema_ v) |];
    cbn; intros H; inversion H; subst; auto.
Qed.

Lemma shouldRunReviewer_outputs i testsPass σ r l σ' :
  shouldRunReviewer i testsPass σ = (r, l, σ') -> outputs l = [].
Proof.
  unfold shouldRunReviewer. intros H. exec H; reflexivity.
Qed.

Lemma run_commands_outputs rest : forall cmd lastOutput σ,
  exists ok final log σ',
    run_commands (cmd :: rest) lastOutput σ = (Ret final, log, σ')
    /\ outputs log = ok ++ [final].
Proof.
  induction rest as [|cmd2 rest IH]; intros cmd lastOutput σ;
    destruct (runCommand_inv (command_of cmd) (args_of cmd) σ) as (result & σ1 & E).
  - exists [], result. cbn [run_commands]. unfold bind. rewrite E. cbn.
    destruct (negb (is_zero (exitCode result))); cbn;
      (eexists _, _; split; reflexivity).
  - change (run_commands (cmd :: cmd2 :: rest) lastOutput)
      with (let* result := runCommand (command_of cmd) (args_of cmd) in
            perform emit (tests_output result) then
            if negb (is_zero (exitCode result)) then ret result
            else run_commands (cmd2 :: rest) result).
    unfold bind at 1. rewrite E. unfold bind at 1. cbn [emit observe].
    destruct (is_zero (exitCode result)); cbn [negb].
    + destruct (IH cmd2 result σ1) as (ok & final & log & σ' & E2 & Ho).
      exists (result :: ok), final. rewrite E2.
      eexists _, _. split; [reflexivity|].
      cbn [app outputs omap list_omap]. fold (outputs log). rewrite Ho. reflexivity.
    + exists [], result. cbn. eexists _, _. split; reflexivity.
Qed.

Lemma run_tests_phase_outputs bm σ r log σ' :
  run_tests_phase bm σ = (r, log, σ') ->
  exists ok final, r = Ret final /\ outputs log = ok ++ [final].
Proof.
  unfold run_tests_phase. intros H.
  unfold bind at 1 in H. cbn [emit observe] in H.
  destruct (run bm) as [[|cmd rest]|].
  - destruct (runCommand_inv (command_of (test_command config))
                (args_of (test_command config)) σ) as (result & σ1 & E).
    unfold bind in H. rewrite E in H. cbn in H. inversion H; subst.
    exists [], result. split; reflexivity.
  - destruct (run_commands_outputs rest cmd (mkCommandResult "" "" (Some 0%Z)) σ)
      as (ok & final & l & σ1 & E & Ho).
    rewrite E in H. inversion H; subst. exists ok, final. split; [reflexivity|].
    cbn [app outputs omap list_omap]. exact Ho.
  - destruct (runCommand_inv (command_of (test_command config))
                (args_of (test_command config)) σ) as (result & σ1 & E).
    unfold bind in H. rewrite E in H. cbn in H. inversion H; subst.
    exists [], result. split; reflexivity.
Qed.

Ltac approvals :=
  rewrite ?app_nil_r; rewrite ?count_app, ?count_cons, ?count_nil;
  repeat match goal with
         | H : count is_completion ?l = 0%nat |- context [count is_approval ?l] =>
             rewrite (count_approval_quiet l H)
         | H : count is_approval ?l = 0%nat |- context [count is_approval ?l] =>
             rewrite H
         end;
  cbn [is_approval is_approval_event String.eqb Ascii.eqb Bool.eqb];
  try reflexivity; try lia.

Lemma check_max_after_changes_no_approval userRequest l review testsPass σ r log σ' :
  check_max_after_changes userRequest l review testsPass σ = (r, log, σ') ->
  count is_approval log = 0%nat.
Proof.
  intros H. unfold check_max_after_changes in H. exec H; facts; approvals.
Qed.

Lemma on_oscillation_no_approval userRequest p i σ r log σ' :
  on_oscillation userRequest p i σ = (r, log, σ') -> count is_approval log = 0%nat.
Proof.
  intros H. unfold on_oscillation in H. exec H; facts; approvals.
Qed.

(** What is known of the results streamed by the calls made. *)
Ltac streamed :=
  repeat match goal with
         | Hm : complete_streaming _ _ _ = (_, ?l, _) |- _ =>
             lazymatch goal with
             | _ : outputs l = [] |- _ => fail
             | _ => pose proof (complete_streaming_outputs _ _ _ _ _ _ Hm)
             end
         | Hm : parseJSON _ _ _ = (_, ?l, _) |- _ =>
             lazymatch goal with
             | _ : outputs l = [] |- _ => fail
             | _ => pose proof (parseJSON_outputs _ _ _ _ _ _ Hm)
             end
         | Hm : shouldRunReviewer _ _ _ = (_, ?l, _) |- _ =>
             lazymatch goal with
             | _ : outputs l = [] |- _ => fail
             | _ => pose proof (shouldRunReviewer_outputs _ _ _ _ _ _ Hm)
             end
         end.

Ltac no_outputs :=
  rewrite ?app_nil_r; rewrite ?outputs_app;
  repeat match goal with
         | H : outputs ?l = [] |- context [outputs ?l] => rewrite H
         end;
  reflexivity.

Lemma interpret_review_approval userRequest sharedState l review testsPass σ r log σ' :
  interpret_review userRequest sharedState l review testsPass σ = (r, log, σ') ->
  count is_approval log = 0%nat \/ outputs log = [].
Proof.
  intros H. unfold interpret_review in H. exec H;
    repeat match goal with
           | Hc : check_max_after_changes _ _ _ _ _ = _ |- _ =>
               apply check_max_after_changes_no_approval in Hc
           end;
    facts.
  all: first [ right; reflexivity | left; solve [approvals] ].
Qed.

Lemma review_stage_approval userRequest sharedState bm l testsPass σ r log σ' :
  review_stage userRequest sharedState bm l testsPass σ = (r, log, σ') ->
  count is_approval log = 0%nat \/ outputs log = [].
Proof.
  intros H. unfold review_stage in H. exec H; streamed;
    repeat match goal with
           | Hc : interpret_review _ _ _ _ _ _ = _ |- _ =>
               apply interpret_review_approval in Hc as [Hc | Hc]
           end;
    facts.
  all: first [ left; solve [approvals] | right; solve [no_outputs] ].
Qed.

Lemma after_tests_approval userRequest sharedState bm p i l0 output σ r log σ' :
  after_tests userRequest sharedState bm p i l0 output σ = (r, log, σ') ->
  count is_approval log = 0%nat \/ (exitCode output = Some 0%Z /\ outputs log = []).
Proof.
  intros H. unfold after_tests, tests_failed_branch, testsPass_of in H.
  destruct (is_zero (exitCode output)) eqn:Ecode; cbn [negb] in H.
  - apply is_zero_true in Ecode. apply review_stage_approval in H as [H | H]; auto.
  - left. exec H; approvals.
Qed.

Lemma detectOscillation_outputs p σ r l σ' :
  detectOscillation p σ = (r, l, σ') -> outputs l = [].
Proof. unfold detectOscillation. intros H. exec H; reflexivity. Qed.

Lemma patch_stage_approval userRequest sharedState bm p i l0 σ r log σ' :
  patch_stage userRequest sharedState bm p i l0 σ = (r, log, σ') ->
  count is_approval log = 0%nat \/ approval_grounds log σ'.
Proof.
  intros H. unfold patch_stage in H. exec H;
    repeat match goal with
           | Hc : on_oscillation _ _ _ _ = _ |- _ =>
               apply on_oscillation_no_approval in Hc
           end.
  all: try solve [facts; left; approvals].
  (* the pass has reached the branch on the result of the tests *)
  match goal with
  | Hc : after_tests _ _ _ _ _ _ ?out ?s = (_, ?la, _) |- _ =>
      pose proof (after_tests_ok _ _ _ _ _ _ _ _ _ _ _ Hc) as (_ & Hhist & _);
      apply after_tests_approval in Hc as [Hc | [Hcode Hout]]
  end.
  - left. facts. approvals.
  - right.
    match goal with
    | Hd : detectOscillation _ _ = _ |- _ =>
        pose proof (detectOscillation_outputs _ _ _ _ _ Hd) as Hdo;
        apply detectOscillation_inv in Hd as (-> & _)
    end.
    match goal with
    | Ha : applyPatch _ _ = (Ret ?answer, _, _), Hs : negb (success ?answer) = false |- _ =>
        apply negb_false_iff in Hs;
        pose proof (benign_spec _ _ _ _ Ha) as (_ & _ & _ & Hha);
        apply applyPatch_inv in Ha as (Hlog & Hvalid & Hsucc);
        destruct (Hsucc Hs) as (Hne & _);
        destruct Hlog as [-> | ->]; [congruence|]
    end.
    match goal with
    | Ht : run_tests_phase _ _ = _ |- _ =>
        pose proof (benign_spec _ _ _ _ Ht) as (_ & _ & _ & Hht);
        apply run_tests_phase_outputs in Ht as (ok & final & Ef & Hto)
    end.
    inversion Ef; subst. exists p. rewrite ?app_nil_r. cbn [app].
    split; [left; reflexivity|].
    split; [apply Hvalid; discriminate|].
    split.
    { right. apply in_or_app. right. right. right. left. reflexivity. }
    split.
    { exists final. split; [| exact Hcode].
      cbn [outputs omap list_omap]. rewrite !omap_app. cbn [omap list_omap].
      fold (outputs x0). rewrite Hdo. cbn [app omap list_omap].
      rewrite omap_app.
      match goal with |- context [omap _ ?a ++ omap _ ?b] =>
        fold (outputs a); fold (outputs b) end.
      rewrite Hto, Hout, app_nil_r. apply last_snoc. }
    rewrite Hhist, Hht, Hha. cbn [patchHistory]. apply last_snoc.
Qed.

Lemma iteration_body_approval userRequest l0 σ r log σ' :
  iteration_body userRequest l0 σ = (r, log, σ') ->
  count is_approval log = 0%nat \/ approval_grounds log σ'.
Proof.
  intros H. unfold iteration_body in H. exec H.
  all: try solve [facts; left; approvals].
  all: match goal with
       | Hc : patch_stage _ _ _ _ _ _ _ = _ |- _ =>
           apply patch_stage_approval in Hc
             as [Hc | (q & Hq1 & Hq2 & Hq3 & (out & Hq4 & Hq5) & Hq6)]
       end.
  all: try solve [left; facts; approvals].
  all: right; exists q;
    repeat match goal with
           | Hm : buildSharedState _ _ _ _ = (_, ?l, _) |- _ =>
               assert (l = []) as -> by (unfold buildSharedState in Hm; exec Hm; reflexivity);
               clear Hm
           end;
    streamed; rewrite ?app_nil_r; cbn [app];
    (split; [right; right; apply in_or_app; right; apply in_or_app; right; exact Hq1|]);
    (split; [exact Hq2|]);
    (split; [right; right; apply in_or_app; right; apply in_or_app; right; exact Hq3|]);
    (split; [| exact Hq6]);
    exists out; (split; [| exact Hq5]);
    unfold outputs in *; cbn [omap list_omap]; rewrite !omap_app;
    repeat match goal with
           | Ho : omap _ ?l = [] |- _ => rewrite Ho; clear Ho
           end;
    cbn [app]; exact Hq4.
Qed.

Lemma approval_grounds_app before log σ' :
  approval_grounds log σ' -> approval_grounds (before ++ log) σ'.
Proof.
  intros (p & H1 & H2 & H3 & (out & H4 & H5) & H6). exists p.
  split; [apply in_or_app; right; exact H1|].
  split; [exact H2|].
  split; [apply in_or_app; right; exact H3|].
  split; [| exact H6].
  exists out. split; [| exact H5].
  rewrite outputs_app. apply last_Some in H4 as [l' E]. rewrite E, app_assoc.
  apply last_snoc.
Qed.

Lemma cycle_loop_approval fuel userRequest : forall l σ,
  count is_approval (untagged (log_of (cycle_loop fuel userRequest l σ))) = 0%nat
  \/ approval_grounds (untagged (log_of (cycle_loop fuel userRequest l σ)))
       (state_of (cycle_loop fuel userRequest l σ)).
Proof.
  induction fuel as [|fuel IH]; intros l σ; cbn [cycle_loop].
  - destruct (iteration l <? max_iterations config)%Z; left; reflexivity.
  - destruct (iteration l <? max_iterations config)%Z; [| left; reflexivity].
    destruct (iteration_body userRequest l σ) as [[r log] σ1] eqn:E.
    pose proof (iteration_body_approval _ _ _ _ _ _ E) as Ha.
    apply iteration_body_ok in E as (Hs & _).
    destruct r as [[l'|]|e]; cbn [log_of state_of fst snd];
      rewrite ?untagged_at_iteration; try exact Ha.
    specialize (IH l' σ1).
    destruct (cycle_loop fuel userRequest l' σ1) as [[r2 log2] σ2].
    cbn [log_of state_of fst snd] in *.
    rewrite untagged_app, untagged_at_iteration.
    destruct IH as [IH | IH].
    + left. rewrite count_app, IH, (count_approval_quiet log Hs). reflexivity.
    + right. apply approval_grounds_app, IH.
Qed.

Lemma count_approval_In l e :
  In e (omap emitted l) -> is_approval_event e = true -> (1 <= count is_approval l)%nat.
Proof.
  induction l as [|o l IH]; [intros []|].
  rewrite count_cons. destruct o as [e'| |]; cbn [omap list_omap emitted is_approval].
  - intros [-> | Hin] He; [rewrite He; lia | specialize (IH Hin He); lia].
  - intros Hin He. specialize (IH Hin He). lia.
  - intros Hin He. specialize (IH Hin He). lia.
Qed.

(** X22.  An approval stands on a tested patch.  If a cycle emits a
    [cycle_complete] that reports an approval, be it the reviewer's or that
    of a skipped review, then a patch was announced that the guard accepts
    and that is the last of the patch history, [git apply] was started, and
    the last command result streamed has the exit code 0. *)
Theorem approval_is_grounded fuel userRequest σ0 e :
  In e (events (log_of (runCycle fuel userRequest σ0))) ->
  is_approval_event e = true ->
  approval_grounds (untagged (log_of (runCycle fuel userRequest σ0)))
    (state_of (runCycle fuel userRequest σ0)).
Proof.
  rewrite events_untagged. fold (untagged (log_of (runCycle fuel userRequest σ0))).
  unfold runCycle.
  pose proof (cycle_loop_approval fuel userRequest (mkLocals 0 "" None [])
                (mkState (world σ0) [] [] [])) as H.
  destruct (cycle_loop fuel userRequest (mkLocals 0 "" None [])
              (mkState (world σ0) [] [] [])) as [[r log] σ].
  cbn [log_of state_of fst snd] in *. unfold untagged in *. cbn [map snd].
  intros Hin He. apply count_approval_In in Hin; [| exact He].
  rewrite count_cons in Hin. cbn [is_approval is_approval_event] in Hin.
  destruct H as [H | H]; [lia|].
  apply (approval_grounds_app [_]), H.
Qed.

(** * The daemon *)

(** ** The other public methods *)

(** X24.  [runTests] throws nothing and streams one result: it announces
    the run, starts the configured test command, split at its spaces, and
    emits what has become of the child.  That is what the child has written
    and its exit code when it has run; no exit code and empty outputs when
    the child could not be spawned, [execa] resolving in that case as it is
    called with [reject: false]; the exit code 1 with the message on the
    standard error when [spawn] has thrown, which is the case that the
    [catch] of [runCommand] answers. *)
Theorem runTests_reports σ :
  exists result σ',
    runTests σ
    = (Ret tt,
       [Emit (status [lit "Running tests..."]);
        Exec (command_of (test_command config)) (args_of (test_command config));
        Emit (tests_output result)],
       σ')
    /\ (forall exited w,
          run_child (command_of (test_command config)) (args_of (test_command config))
            (world σ) = (Exited exited, w) ->
          result = exited)
    /\ (forall msg w,
          run_child (command_of (test_command config)) (args_of (test_command config))
            (world σ) = (SpawnFailed msg, w) ->
          result = mkCommandResult "" "" None)
    /\ (forall msg w,
          run_child (command_of (test_command config)) (args_of (test_command config))
            (world σ) = (SpawnThrew msg, w) ->
          result = mkCommandResult "" msg (Some 1%Z)).
Proof.
  unfold runTests, bind, runCommand, bind, execa. cbn [emit observe].
  destruct (run_child _ _ (world σ)) as [[exited|msg|msg] w];
    cbn; eexists _, _; (split; [reflexivity|]);
    (split; [| split]); intros ? ? E; inversion E; reflexivity.
Qed.

(** X23.  [Orchestrator.applyPatch] ends on one of two events: the status
    [Patch applied successfully], and then the guard accepts the patch,
    [git apply] was started and the temporary file is gone; or an [error],
    the only one it emits. *)
Theorem Orchestrator_applyPatch_reports p σ log σ' :
  Orchestrator_applyPatch p σ = (Ret tt, log, σ') ->
  exists before final,
    log = before ++ [Emit final]
    /\ count is_error_obs before = 0%nat
    /\ ((final = status [lit "Patch applied successfully"]
         /\ validatePatch (allow_paths config) p = Ret (mkValidation true None)
         /\ In (Exec "git" ["apply"; "--whitespace=nowarn"; tempPatchFile]) before
         /\ files (world σ') !! tempPatchFile = None)
        \/ is_error final = true).
Proof.
  intros H. unfold Orchestrator_applyPatch in H. exec H.
  - eexists [_], _. split; [reflexivity|]. split; [reflexivity|]. right. reflexivity.
  - match goal with
    | Ha : applyPatch _ _ = _ |- _ => apply applyPatch_inv in Ha as (Hlog & Hvalid & Hsucc)
    end.
    match goal with Hs : success _ = true |- _ => destruct (Hsucc Hs) as (Hne & _ & Hfile) end.
    destruct Hlog as [-> | ->]; [congruence|].
    eexists [_; _; _], _. split; [reflexivity|]. split; [reflexivity|]. left.
    split; [reflexivity|]. split; [apply Hvalid; discriminate|].
    split; [right; right; left; reflexivity | exact Hfile].
  - match goal with
    | Ha : applyPatch _ _ = _ |- _ => apply applyPatch_inv in Ha as (Hlog & _)
    end.
    destruct Hlog as [-> | ->].
    + eexists [_; _], _. split; [reflexivity|]. split; [reflexivity|]. right. reflexivity.
    + eexists [_; _; _], _. split; [reflexivity|]. split; [reflexivity|]. right. reflexivity.
Qed.

(** ** The message handler *)


(** A message that is not one of the three kinds starts nothing: the
    handler sends one [error] and leaves the orchestrator as it is.  The
    same holds for a text that is not JSON. *)
Theorem invalid_message_is_refused fuel data σ :
  data ≫= ClientMessageSchema = None ->
  exists msg, on_message fuel data σ = ([Emit (error msg)], σ).
Proof.
  unfold on_message. destruct data as [message|]; cbn.
  - intros ->. eauto.
  - eauto.
Qed.
End Machine.

(** ** Scripted environments

    A closed run needs a concrete environment.  A script answers the calls
    of [complete] from one queue per role and the child processes from one
    queue, in order; a child changes no file.  An empty queue rejects. *)

Record Script : Type := mkScript {
  builder_replies : list Completion;
  reviewer_replies : list Completion;
  moderator_replies : list Completion;
  children : list ChildResult
}.

Definition scripted_complete (role : Role) (prompt : Prompt) (w : @World Script)
  : Completion * @World Script :=
  let s := ext w in
  match role with
  | builder =>
      match builder_replies s with
      | c :: rest =>
          (c, mkWorld (files w)
                (mkScript rest (reviewer_replies s) (moderator_replies s) (children s)))
      | [] => (Rejected [] "script exhausted", w)
      end
  | reviewer =>
      match reviewer_replies s with
      | c :: rest =>
          (c, mkWorld (files w)
                (mkScript (builder_replies s) rest (moderator_replies s) (children s)))
      | [] => (Rejected [] "script exhausted", w)
      end
  | moderator =>
      match moderator_replies s with
      | c :: rest =>
          (c, mkWorld (files w)
                (mkScript (builder_replies s) (reviewer_replies s) rest (children s)))
      | [] => (Rejected [] "script exhausted", w)
      end
  end.

Definition scripted_child (command : string) (args : list string) (w : @World Script)
  : ChildResult * @World Script :=
  let s := ext w in
  match children s with
  | c :: rest =>
      (c, mkWorld (files w)
            (mkScript (builder_replies s) (reviewer_replies s) (moderator_replies s) rest))
  | [] => (SpawnFailed "script exhausted", w)
  end.

(** A fresh orchestrator in an empty workspace with the given script. *)
Definition initial (s : Script) : @State Script :=
  mkState (mkWorld ∅ s) [] [] [].

(** [runCycle] in a scripted environment. *)
Definition run_scripted (cfg : Config) (fuel : nat) (s : Script)
  : throws Outcome * list (Z * Obs) * @State Script :=
  runCycle scripted_child scripted_complete cfg "/ws" fuel "request" (initial s).

(** The configuration of the README, with the defaults of [ConfigSchema]. *)
Definition default_config : Config :=
  mkConfig "npm test" ["src/**/*.ts"; "test/**/*.ts"] 3 always true false None None 2000 balanced.

Definition with_max_iterations (n : Z) (c : Config) : Config :=
  mkConfig (test_command c) (allow_paths c) n (review_mode c) (review_on_test_pass c)
    (enable_moderator c) (moderator_provider c) (moderator_model c)
    (context_summary_threshold c) (review_strictness c).

Definition with_review_mode (m : ReviewMode) (c : Config) : Config :=
  mkConfig (test_command c) (allow_paths c) (max_iterations c) m (review_on_test_pass c)
    (enable_moderator c) (moderator_provider c) (moderator_model c)
    (context_summary_threshold c) (review_strictness c).

(** Replies of the agents, as JSON values. *)
Definition builder_patch (p : string) : Completion :=
  Replied [] (Some (JObject [("patch", JString p); ("run", JArray [JString "npm test"])])).

Definition builder_files (paths : list string) : Completion :=
  Replied [] (Some (JObject [("files_needed", JArray (map JString paths))])).

Definition review_with (v : string) (more : list (string * json)) : Completion :=
  Replied [] (Some (JObject ([("verdict", JString v); ("issues", JArray []);
                              ("stopping", JString "s")] ++ more))).

Definition exit_with (code : Z) : ChildResult :=
  Exited (mkCommandResult "" "" (Some code)).

(** A unified diff that touches [src/sub/<name>.ts]. *)
Definition diff_of (name : string) : string :=
  "--- a/src/sub/" +:+ name +:+ ".ts" +:+ nl +:+ "+++ b/src/sub/" +:+ name +:+ ".ts".

(** A text of several lines. *)
Definition lines (ls : list string) : string := join nl ls.

Definition twenty_lines : list string :=
  ["l01"; "l02"; "l03"; "l04"; "l05"; "l06"; "l07"; "l08"; "l09"; "l10";
   "l11"; "l12"; "l13"; "l14"; "l15"; "l16"; "l17"; "l18"; "l19"; "l20"].

(** The patch of the first test of [tools.test.ts], "should accept patches
    for allowed paths", run there with the allow-list
    [['src/**/*.ts', 'test/**/*.ts']]. *)
Definition patch_of_first_test : string :=
  lines ["--- a/src/index.ts";
         "+++ b/src/index.ts";
         "@@ -1,0 +2,3 @@";
         "+export function hello() {";
         "+  return 'world';";
         "+}"].

(** A reviewer response with [verdict = block] and no [block_reason]. *)
Definition block_without_reason : json :=
  JObject [("verdict", JString "block"); ("issues", JArray []); ("stopping", JString "s")].

(** A reviewer response with [block_reason = uncertainty] and no
    [diagnostics_needed]. *)
Definition uncertainty_without_diagnostics : json :=
  JObject [("verdict", JString "block"); ("issues", JArray []); ("stopping", JString "s");
           ("block_reason", JString "uncertainty")].

(** *** Review values as JSON

    The JSON object a reviewer sends for a given review: every field that
    is set, under its name. *)

Definition optional_property {A : Type} (key : string) (encode : A -> json) (o : option A)
  : list (string * json) :=
  match o with
  | Some a => [(key, encode a)]
  | None => []
  end.

Definition severity_name (s : Severity) : string :=
  match s with critical => "critical" | major => "major" | minor => "minor" end.

Definition verdict_name (v : Verdict) : string :=
  match v with
  | approve => "approve" | request_changes => "request_changes" | block => "block"
  end.

Definition block_reason_name (b : BlockReason) : string :=
  match b with
  | definite_bug => "definite_bug" | uncertainty => "uncertainty" | needs_human => "needs_human"
  end.

Definition strings_to_json (l : list string) : json := JArray (JString <$> l).

Definition issue_to_json (i : Issue) : json :=
  JObject ([("severity", JString (severity_name (severity i)));
            ("description", JString (description i))]
           ++ optional_property "how_to_verify" JString (how_to_verify i)
           ++ optional_property "issue_id" JString (issue_id i)
           ++ optional_property "uncertainty" JBool (uncertain i)).

Definition review_to_json (r : Review) : json :=
  JObject ([("verdict", JString (verdict_name (verdict r)));
            ("issues", JArray (issue_to_json <$> issues r));
            ("stopping", JString (stopping r))]
           ++ optional_property "suggested_patch" JString (suggested_patch r)
           ++ optional_property "extra_tests" strings_to_json (extra_tests r)
           ++ optional_property "block_reason"
                (fun b => JString (block_reason_name b)) (block_reason r)
           ++ optional_property "diagnostics_needed" strings_to_json (diagnostics_needed r)).

(** *** Scripts of the runs evaluated below *)

(** The builder asks for a file, then would send a patch that passes the
    tests and the review. *)
Definition file_request_script : Script :=
  mkScript [builder_files ["src/sub/a.ts"]; builder_patch (diff_of "a")]
    [review_with "approve" []] [] [exit_with 0; exit_with 0].

(** The builder's reply is not JSON. *)
Definition parse_failure_script : Script :=
  mkScript [Replied [] None] [] [] [].

(** Two patches that pass the tests; the reviewer first blocks for
    uncertainty and asks for one diagnostic command, then approves. *)
Definition uncertainty_script : Script :=
  mkScript [builder_patch (diff_of "a"); builder_patch (diff_of "b")]
    [review_with "block" [("block_reason", JString "uncertainty");
                          ("diagnostics_needed", JArray [JString "npm run test:verbose"])];
     review_with "approve" []]
    []
    [exit_with 0; exit_with 0; exit_with 0; exit_with 0; exit_with 0].

(** A patch that passes the tests; the reviewer blocks without a reason. *)
Definition block_without_reason_script : Script :=
  mkScript [builder_patch (diff_of "a")]
    [Replied [] (Some block_without_reason)] [] [exit_with 0; exit_with 0].

(** [git apply] fails. *)
Definition apply_failure_script : Script :=
  mkScript [] [] [] [Exited (mkCommandResult "" "error: corrupt patch at line 3" (Some 128%Z))].

Definition final_only_once : Config :=
  with_review_mode final_only (with_max_iterations 1 default_config).

(** The calls of the builder among the observations of a log. *)
Definition is_builder_call (o : Obs) : bool :=
  match o with Complete builder _ => true | _ => false end.

(** ** More inputs of the properties evaluated below *)

Definition example_tree : list Dirent :=
  [FileEntry "a.ts"; DirEntry ".git" [FileEntry "config"];
   DirEntry "src" [FileEntry "b.ts";
                   DirEntry "x" [FileEntry "c.ts"; DirEntry "y" [FileEntry "d.ts"]]];
   DirEntry "node_modules" [FileEntry "m.js"]; FileEntry ".env"].

(** One command that exits with code 0: [git apply] succeeds. *)
Definition apply_success_script : Script :=
  mkScript [] [] [] [exit_with 0].



(** The happy path: one patch, tests that pass, an approval. *)
Definition happy_script : Script :=
  mkScript [builder_patch (diff_of "a")] [review_with "approve" []] []
    [exit_with 0; exit_with 0].

(** The shared state and the builder message of a first pass. *)
Definition first_shared_state : SharedState :=
  mkSharedState "request" (allow_paths default_config) None None [].

Definition patch_message (p : string) : BuilderMessage :=
  mkBuilderMessage None None (Some p) None (Some ["npm test"]) None.

(** A workspace that holds one source file and one file outside the
    allow-list. *)
Definition two_files : @State Script :=
  mkState
    (mkWorld (<["/ws/src/sub/a.ts" := "export const a = 1;"]>
                (<["/ws/secrets/key.ts" := "secret"]> ∅))
       (mkScript [] [] [] []))
    [] [] [].


(** ** A builder that never repeats itself and a reviewer that is never sure *)

(** [n] strokes. *)
Fixpoint tally (n : nat) : string :=
  match n with
  | O => ""
  | S m => String "i" (tally m)
  end.

(** The [n]-th patch of the builder: a diff of one line of the file
    [src/f] followed by [n] strokes, no line of which is a line of another
    of its patches. *)
Definition fresh_prefixes : list string :=
  ["--- a/src/f"; "+++ b/src/f"; "@@ -1 +1 @@ f"; "-old "; "+new "].

Definition fresh_lines (n : nat) : list string :=
  map (fun prefix => prefix +:+ tally n) fresh_prefixes.

Definition fresh_patch (n : nat) : string := lines (fresh_lines n).

(** The environment keeps count of the patches that the builder has sent.
    The builder answers with the next patch, whatever it is told; the
    reviewer blocks for uncertainty and names no diagnostic to run. *)
Definition restless_complete (role : Role) (prompt : Prompt) (w : @World nat)
  : Completion * @World nat :=
  match role with
  | builder => (builder_patch (fresh_patch (ext w)), mkWorld (files w) (S (ext w)))
  | _ =>
      (review_with "block" [("block_reason", JString "uncertainty");
                            ("diagnostics_needed", JArray [])], w)
  end.

(** Every command exits with code 0 and leaves the files as they are. *)
Definition restless_child (command : string) (args : list string) (w : @World nat)
  : ChildResult * @World nat :=
  (exit_with 0, w).

(** The configuration of the README with the directory [src/] allowed. *)
Definition restless_config : Config :=
  mkConfig "npm test" ["src/"] 3 always true false None None 2000 balanced.

(** The patch history holds patches that the builder has sent so far. *)
Definition sent_before (k : nat) (history : list string) : Prop :=
  Forall (fun p => exists j, (j < k)%nat /\ p = fresh_patch j) history.

(** * Properties of the pure parts *)

(** ** The matcher agrees with the words of a pattern *)

Lemma append_empty_inv (s1 s2 : string) : s1 +:+ s2 = "" -> s1 = "" /\ s2 = "".
Proof. destruct s1; simpl; [auto | discriminate]. Qed.

Lemma append_cons_inv (s1 s2 s : string) (c : ascii) :
  s1 +:+ s2 = String c s ->
  (s1 = "" /\ s2 = String c s) \/ (exists s1', s1 = String c s1' /\ s = s1' +:+ s2).
Proof.
  destruct s1 as [|d s1']; simpl; intros H.
  - left; auto.
  - right. inversion H; subst. eauto.
Qed.

Lemma nullable_lang (r : re) : nullable r = true <-> lang r "".
Proof.
  split.
  - induction r; simpl; intros H; try discriminate.
    + constructor.
    + apply orb_true_iff in H as [H|H]; [apply lang_alt_l | apply lang_alt_r]; auto.
    + apply andb_true_iff in H as [H1 H2].
      change "" with ("" +:+ ""). constructor; auto.
    + constructor.
  - intros H. remember "" as s eqn:Es. induction H; simpl; try discriminate; auto.
    + rewrite IHlang; auto.
    + rewrite IHlang, orb_true_r; auto.
    + apply append_empty_inv in Es as [-> ->]. rewrite IHlang1, IHlang2; auto.
Qed.

Lemma lang_deriv (c : ascii) (r : re) (s : string) :
  lang r (String c s) -> lang (deriv c r) s.
Proof.
  intros H. remember (String c s) as w eqn:Ew. revert c s Ew.
  induction H; intros a t Ew; simpl; try discriminate.
  - inversion Ew; subst. rewrite Ascii.eqb_refl. constructor.
  - inversion Ew; subst. rewrite H. constructor.
  - inversion Ew; subst. destruct (Ascii.eqb_spec a d); [contradiction | constructor].
  - apply lang_alt_l; auto.
  - apply lang_alt_r; auto.
  - apply append_cons_inv in Ew as [[-> ->] | (s1' & -> & ->)].
    + apply nullable_lang in H. rewrite H. apply lang_alt_r; auto.
    + destruct (nullable r1); [apply lang_alt_l |]; constructor; auto.
  - apply append_cons_inv in Ew as [[-> ->] | (s1' & -> & ->)].
    + apply IHlang2; auto.
    + constructor; auto.
Qed.

Lemma deriv_lang (c : ascii) (r : re) (s : string) :
  lang (deriv c r) s -> lang r (String c s).
Proof.
  revert s. induction r; simpl; intros s H.
  - inversion H.
  - inversion H.
  - destruct (Ascii.eqb_spec c c0); inversion H; subst. constructor.
  - destruct (line_terminator c) eqn:E; inversion H; subst. constructor; auto.
  - destruct (Ascii.eqb_spec c c0); inversion H; subst. constructor; auto.
  - inversion H; subst; [apply lang_alt_l | apply lang_alt_r]; auto.
  - destruct (nullable r1) eqn:E.
    + inversion H; subst.
      * match goal with H1 : lang (Cat _ _) _ |- _ => inversion H1; subst end.
        change (String c (s1 +:+ s2)) with (String c s1 +:+ s2). constructor; auto.
      * change (String c s) with ("" +:+ String c s). constructor; auto.
        apply nullable_lang; auto.
    + inversion H; subst.
      change (String c (s1 +:+ s2)) with (String c s1 +:+ s2). constructor; auto.
  - inversion H; subst.
    change (String c (s1 +:+ s2)) with (String c s1 +:+ s2). constructor; auto.
Qed.

Lemma matches_lang (r : re) (s : string) : matches r s = true <-> lang r s.
Proof.
  revert r. induction s as [|c s IH]; intros r; simpl.
  - apply nullable_lang.
  - rewrite IH. split; [apply deriv_lang | apply lang_deriv].
Qed.

(** ** The allow-list (C2) *)

(** C2, at the inputs where the code departs from it.  With the allow-list
    [["src/**/*.ts"]] the matcher of [isPathAllowed] refuses [src/a.ts]:
    [**] followed by [/] becomes [.*.*/], which needs a second slash.  The
    three other paths of the claim come out as it says.  Besides, [*]
    crosses a slash, [?] is read as the quantifier of the character before
    it, [.] stands for any character, and the prefix test does not stop at
    a directory boundary. *)
Theorem isPathAllowed_not_glob :
  isPathAllowed ["src/**/*.ts"] "src/a.ts" = Ret false
  /\ isPathAllowed ["src/**/*.ts"] "src/sub/b.ts" = Ret true
  /\ isPathAllowed ["src/**/*.ts"] "src/a.js" = Ret false
  /\ isPathAllowed ["src/**/*.ts"] "lib/a.ts" = Ret false
  /\ isPathAllowed ["src/*.ts"] "src/sub/b.ts" = Ret true
  /\ isPathAllowed ["src/?.ts"] "src/a.ts" = Ret false
  /\ isPathAllowed ["src/a.ts"] "src/a-ts" = Ret true
  /\ isPathAllowed ["src"] "srcfoo/x" = Ret true.
Proof. vm_compute. repeat split; reflexivity. Qed.

(** The first test of [tools.test.ts] expects [valid] to be true for this
    patch; the guard built on [isPathAllowed] answers false. *)
Example first_test_of_tools_fails :
  validatePatch ["src/**/*.ts"; "test/**/*.ts"] patch_of_first_test
  = Ret (mkValidation false (Some "Patch touches disallowed path: src/index.ts")).
Proof. vm_compute. reflexivity. Qed.

(** The allow-list of the later [tools.ts] gives the four answers of the
    claim; in a pattern that has a [*], [*] and [?] stay inside a path
    segment and [.] is literal; a pattern without [*] is compared as it is,
    or as a directory prefix. *)
Example isPathAllowed_later_examples :
  isPathAllowed_later ["src/**/*.ts"] "src/a.ts" = true
  /\ isPathAllowed_later ["src/**/*.ts"] "src/sub/b.ts" = true
  /\ isPathAllowed_later ["src/**/*.ts"] "src/a.js" = false
  /\ isPathAllowed_later ["src/**/*.ts"] "lib/a.ts" = false
  /\ isPathAllowed_later ["src/*.ts"] "src/sub/b.ts" = false
  /\ isPathAllowed_later ["*/?.ts"] "src/a.ts" = true
  /\ isPathAllowed_later ["*/?.ts"] "src//.ts" = false
  /\ isPathAllowed_later ["src/*a.ts"] "src/a-ts" = false
  /\ isPathAllowed_later ["src"] "srcfoo/x" = false
  /\ isPathAllowed_later ["src"] "src/x" = true.
Proof. vm_compute. repeat split; reflexivity. Qed.

(** ** The patch guard (C9) *)

Lemma touched_paths_none (ls : list string) :
  (forall line, In line ls -> header_match line = None) ->
  flat_map header_paths ls = [].
Proof.
  induction ls as [|l ls IH]; simpl; intros H; [reflexivity|].
  rewrite IH by auto. unfold header_paths.
  rewrite (H l) by auto. destruct (_ || _); reflexivity.
Qed.

(** C9, as the code has it.  A patch none of whose lines matches the header
    pattern is accepted by [validatePatch], whatever the allow-list: the
    guard checks the paths it extracts and has no check of the diff format. *)
Theorem validatePatch_without_header (allowPaths : list string) (p : string) :
  (forall line, In line (split newline p) -> header_match line = None) ->
  validatePatch allowPaths p = Ret (mkValidation true None).
Proof.
  intros H. unfold validatePatch, touched_paths.
  rewrite touched_paths_none by exact H. reflexivity.
Qed.

(** The theorem above at the text [hello world]. *)
Lemma validatePatch_without_header_witness :
  (forall line, In line (split newline "hello world") -> header_match line = None)
  /\ validatePatch ["src/**/*.ts"] "hello world" = Ret (mkValidation true None).
Proof.
  assert (H : forall line, In line (split newline "hello world") ->
                           header_match line = None).
  { simpl. intros line [<- | []]. reflexivity. }
  split; [exact H |].
  apply (validatePatch_without_header ["src/**/*.ts"] "hello world" H).
Defined.

(** C9 as stated fails: the text [hello world] has no line that matches
    the header pattern, and [validatePatch] returns [{valid: true}] for it. *)
Lemma validatePatch_accepts_plain_text :
  (forall line, In line (split newline "hello world") -> header_match line = None)
  /\ validatePatch ["src/**/*.ts"] "hello world" = Ret (mkValidation true None).
Proof.
  split; [| reflexivity].
  simpl. intros line [<- | []]. reflexivity.
Qed.

(** ** The schema of reviews (C7) *)

Lemma z_array_strings (l : list string) : z_array z_string (strings_to_json l) = Some l.
Proof.
  unfold z_array, strings_to_json. apply mapM_fmap_Forall_Some.
  apply Forall_forall. reflexivity.
Qed.

Lemma IssueSchema_issue_to_json (i : Issue) : IssueSchema (issue_to_json i) = Some i.
Proof.
  destruct i as [sev desc how id unc].
  destruct sev, how, id, unc; reflexivity.
Qed.

(** Every review value is the result of parsing some response: the schema
    constrains the fields one by one and nothing across them. *)
Lemma ReviewSchema_accepts_every_review (r : Review) :
  ReviewSchema (review_to_json r) = Some r.
Proof.
  destruct r as [verd iss sugg extra stop reason diag].
  assert (Hi : z_array IssueSchema (JArray (issue_to_json <$> iss)) = Some iss).
  { unfold z_array. apply mapM_fmap_Forall_Some. apply Forall_forall.
    intros i _. apply IssueSchema_issue_to_json. }
  unfold ReviewSchema, review_to_json;
    cbn [verdict issues stopping suggested_patch extra_tests block_reason
         diagnostics_needed].
  destruct verd, sugg, extra, reason as [[]|], diag;
    cbn -[z_array]; rewrite Hi; cbn -[z_array]; rewrite ?z_array_strings; reflexivity.
Qed.

(** C7, at the inputs where the code departs from it.  The response parser
    accepts a review whose verdict is [block] and that has no
    [block_reason], and one whose [block_reason] is [uncertainty] and that
    has no [diagnostics_needed]: it returns the review and emits no error. *)
Theorem parseJSON_accepts_block_without_reason (Ext : Type) (σ : @State Ext) :
  parseJSON (Some block_without_reason) ReviewSchema σ
  = (Ret (Some (mkReview block [] None None "s" None None)), [], σ)
  /\ parseJSON (Some uncertainty_without_diagnostics) ReviewSchema σ
     = (Ret (Some (mkReview block [] None None "s" (Some uncertainty) None)), [], σ).
Proof. split; reflexivity. Qed.

(** * Runs in scripted environments *)

(** ** Terminal events (C1) *)

(** C1 as stated fails: when the builder's reply is not JSON, the cycle
    emits two terminal events, the [error] of [parseJSON] and then the
    [error] of [runCycle]. *)
Lemma parse_failure_emits_two_errors :
  outcome_of (run_scripted default_config 10 parse_failure_script) = Ret Returned
  /\ List.filter is_terminal
       (events (log_of (run_scripted default_config 10 parse_failure_script)))
     = [error [lit "Failed to parse JSON: "; library_message];
        error [lit "Builder produced invalid response"]].
Proof. vm_compute. split; reflexivity. Qed.

(** ** File requests (C3) *)

(** C3, at the input where the code departs from it.  With
    [max_iterations = 1] a file request on the first pass uses up the only
    iteration: the loop ends, the builder is never asked again although the
    files were read for it, and the cycle ends without a terminal event.
    With [max_iterations = 2] the same answers end in a [cycle_complete]
    that counts two iterations, the file request being one of them. *)
Theorem files_needed_on_last_iteration :
  outcome_of (run_scripted (with_max_iterations 1 default_config) 10 file_request_script)
  = Ret LoopExited
  /\ count is_builder_call
       (untagged (log_of (run_scripted (with_max_iterations 1 default_config) 10
                            file_request_script))) = 1%nat
  /\ List.filter is_terminal
       (events (log_of (run_scripted (with_max_iterations 1 default_config) 10
                          file_request_script))) = []
  /\ List.filter is_terminal
       (events (log_of (run_scripted (with_max_iterations 2 default_config) 10
                          file_request_script)))
     = [cycle_complete true [lit "Implementation approved! "; lit "s"] 2].
Proof. vm_compute. repeat split; reflexivity. Qed.

(** ** Review under [final_only] (C4) *)

(** C4 as stated fails: under [final_only] with [max_iterations = 1], a
    reviewer that first blocks for uncertainty is called a second time. *)
Lemma final_only_reviews_twice :
  review_mode final_only_once = final_only
  /\ outcome_of (run_scripted final_only_once 10 uncertainty_script) = Ret Returned
  /\ count is_review_call
       (untagged (log_of (run_scripted final_only_once 10 uncertainty_script))) = 2%nat
  /\ count is_diagnostic_round
       (untagged (log_of (run_scripted final_only_once 10 uncertainty_script))) = 1%nat.
Proof. vm_compute. repeat split; reflexivity. Qed.

(** The theorem on reviews under [final_only], at the run above. *)
Lemma final_only_reviewer_calls_witness :
  review_mode final_only_once = final_only
  /\ ((forall i prompt,
         In (i, Complete reviewer prompt)
           (log_of (run_scripted final_only_once 10 uncertainty_script)) ->
         i = max_iterations final_only_once)
      /\ (count is_review_call
            (untagged (log_of (run_scripted final_only_once 10 uncertainty_script)))
          <= 1 + count is_diagnostic_round
                   (untagged (log_of (run_scripted final_only_once 10
                                        uncertainty_script))))%nat).
Proof.
  split; [reflexivity |].
  apply (final_only_reviewer_calls scripted_child scripted_complete final_only_once
           "/ws" 10 "request" (initial uncertainty_script)).
  reflexivity.
Defined.

(** ** The oscillation detector (C5) *)

(** C5 as stated fails, on both counts.  With one patch in the history, a
    new patch with the same set of lines (similarity 1) is not classified
    as stuck; and with two patches in the history, a new patch whose
    similarity to the last one is exactly 0.95 is not classified as stuck. *)
Lemma detectOscillation_not_as_specified :
  fst (fst (detectOscillation (lines ["b"; "a"])
              (mkState (mkWorld ∅ tt) [lines ["a"; "b"]] [] []))) = Ret false
  /\ stuck_as_specified [lines ["a"; "b"]] (lines ["b"; "a"]) = true
  /\ Qeq_bool (patchSimilarity (lines twenty_lines) (lines (removelast twenty_lines)))
       (95 # 100) = true
  /\ fst (fst (detectOscillation (lines (removelast twenty_lines))
                 (mkState (mkWorld ∅ tt) [lines ["x"]; lines twenty_lines] [] [])))
     = Ret false
  /\ stuck_as_specified [lines ["x"]; lines twenty_lines]
       (lines (removelast twenty_lines)) = true.
Proof. vm_compute. repeat split; reflexivity. Qed.

(** ** Patch application (C6) *)

(** The theorem on the temporary file, in a workspace where [git apply]
    exits with code 128: the file is there after [applyPatch]. *)
Lemma applyPatch_leaves_temp_file_witness :
  exists err log σ',
    applyPatch scripted_child default_config "/ws" (diff_of "a")
      (initial apply_failure_script)
    = (Ret (mkApplyResult false (Some err)), log, σ')
    /\ files (world σ') !! "/ws/.dualagent-temp.patch" = Some (diff_of "a").
Proof.
  apply (applyPatch_leaves_temp_file scripted_child default_config "/ws" (diff_of "a")
           (initial apply_failure_script)
           (mkCommandResult "" "error: corrupt patch at line 3" (Some 128%Z))
           (mkWorld (<["/ws/.dualagent-temp.patch" := diff_of "a"]> ∅)
              (mkScript [] [] [] []))).
  - vm_compute. reflexivity.
  - reflexivity.
  - discriminate.
  - vm_compute. reflexivity.
Defined.

(** ** A block without a reason (C7) *)

(** What the state machine does with the review that the parser should
    have refused: no branch of the verdict applies, the pass ends, and with
    the counter at its maximum the cycle ends without a terminal event. *)
Example block_without_reason_ends_silently :
  outcome_of (run_scripted (with_max_iterations 1 default_config) 10
                block_without_reason_script) = Ret LoopExited
  /\ List.filter is_terminal
       (events (log_of (run_scripted (with_max_iterations 1 default_config) 10
                          block_without_reason_script))) = [].
Proof. vm_compute. split; reflexivity. Qed.

(** ** The scenarios of the specification *)

(** Scenario 1, the happy path: one iteration, approved. *)
Example scenario_happy_path :
  List.filter is_terminal
    (events (log_of (run_scripted default_config 10
                       (mkScript [builder_patch (diff_of "a")] [review_with "approve" []]
                          [] [exit_with 0; exit_with 0]))))
  = [cycle_complete true [lit "Implementation approved! "; lit "s"] 1].
Proof. vm_compute. reflexivity. Qed.

(** Scenario 4, uncertainty diagnostics: the counter is decremented, and
    the approval that follows reports one iteration. *)
Example scenario_uncertainty :
  List.filter is_terminal
    (events (log_of (run_scripted default_config 10 uncertainty_script)))
  = [cycle_complete true [lit "Implementation approved! "; lit "s"] 1].
Proof. vm_compute. reflexivity. Qed.

(** Scenario 6, a disallowed path: one [patch_ready], then the guard's
    [error], and no [cycle_complete]. *)
Example scenario_disallowed_path :
  List.filter (fun e => is_terminal e || match e with patch_ready _ => true | _ => false end)
    (events (log_of (run_scripted default_config 10
                       (mkScript [builder_patch (lines ["--- a/secrets/key.ts";
                                                        "+++ b/secrets/key.ts"])]
                          [] [] []))))
  = [patch_ready (lines ["--- a/secrets/key.ts"; "+++ b/secrets/key.ts"]);
     error [lit "Patch touches disallowed path: secrets/key.ts"]].
Proof. vm_compute. reflexivity. Qed.

(** * More properties of the pure parts *)

(** ** Strings *)

Lemma append_String (c : ascii) (a b : string) : String c a +:+ b = String c (a +:+ b).
Proof. reflexivity. Qed.

Lemma append_empty_l (b : string) : "" +:+ b = b.
Proof. reflexivity. Qed.

Lemma append_empty_r (a : string) : a +:+ "" = a.
Proof. induction a as [|c a IH]; [reflexivity|]. rewrite append_String, IH. reflexivity. Qed.

Lemma append_assoc (a b c : string) : (a +:+ b) +:+ c = a +:+ (b +:+ c).
Proof.
  induction a as [|x a IH]; [reflexivity|].
  rewrite !append_String, IH. reflexivity.
Qed.

Lemma chars_app (a b : string) : chars (a +:+ b) = chars a ++ chars b.
Proof.
  induction a as [|c a IH]; [reflexivity|].
  change (String c a +:+ b) with (String c (a +:+ b)). cbn [chars]. rewrite IH. reflexivity.
Qed.

Lemma startsWith_String (c d : ascii) (s p : string) :
  startsWith (String c s) (String d p) = Ascii.eqb d c && startsWith s p.
Proof.
  unfold startsWith. cbn [String.prefix].
  destruct (ascii_dec d c); destruct (Ascii.eqb_spec d c); try congruence; reflexivity.
Qed.

Lemma split_nonempty (sep : ascii) (s : string) : split sep s <> [].
Proof.
  destruct s as [|c s]; simpl; [discriminate|].
  destruct (Ascii.eqb c sep); [discriminate|].
  destruct (split sep s); discriminate.
Qed.

Lemma join_cons (sep x : string) (xs : list string) :
  xs <> [] -> join sep (x :: xs) = x +:+ sep +:+ join sep xs.
Proof. destruct xs; [congruence | reflexivity]. Qed.

Lemma join_snoc (sep x : string) (xs : list string) :
  xs <> [] -> join sep (xs ++ [x]) = join sep xs +:+ sep +:+ x.
Proof.
  induction xs as [|y ys IH]; [intros H; congruence|]. intros _.
  destruct ys as [|z zs]; [reflexivity|].
  change ((y :: z :: zs) ++ [x]) with (y :: ((z :: zs) ++ [x])).
  rewrite join_cons by (destruct zs; discriminate).
  rewrite IH by discriminate. rewrite (join_cons sep y (z :: zs)) by discriminate.
  rewrite !append_assoc. reflexivity.
Qed.

Lemma join_split (sep : ascii) (s : string) :
  join (String sep "") (split sep s) = s.
Proof.
  induction s as [|c s IH]; [reflexivity|].
  pose proof (split_nonempty sep s) as Hn. cbn [split].
  destruct (Ascii.eqb_spec c sep) as [-> | Hc].
  - rewrite join_cons by exact Hn. rewrite IH. reflexivity.
  - destruct (split sep s) as [|w ws]; [congruence|].
    destruct ws as [|w' ws].
    + cbn in *. congruence.
    + rewrite join_cons by discriminate. rewrite join_cons in IH by discriminate.
      rewrite <- IH. reflexivity.
Qed.

Lemma split_parts (sep : ascii) (s : string) :
  Forall (fun part => forallb (fun c => negb (Ascii.eqb c sep)) (chars part) = true)
    (split sep s).
Proof.
  induction s as [|c s IH]; simpl.
  - repeat constructor.
  - destruct (Ascii.eqb c sep) eqn:Ec.
    + constructor; [reflexivity | exact IH].
    + destruct (split sep s) as [|w ws]; [repeat constructor; simpl; rewrite Ec; reflexivity|].
      inversion IH; subst. constructor; [| assumption].
      simpl. rewrite Ec. assumption.
Qed.

(** A string without the separator is one part. *)
Lemma split_one (sep : ascii) (s : string) :
  forallb (fun c => negb (Ascii.eqb c sep)) (chars s) = true -> split sep s = [s].
Proof.
  induction s as [|c s IH]; cbn [chars forallb split]; [reflexivity|].
  intros H. apply andb_true_iff in H as [Hc Hs]. apply negb_true_iff in Hc.
  rewrite Hc, (IH Hs). reflexivity.
Qed.

Lemma split_app_sep (sep : ascii) (part rest : string) :
  forallb (fun c => negb (Ascii.eqb c sep)) (chars part) = true ->
  split sep (part +:+ String sep rest) = part :: split sep rest.
Proof.
  induction part as [|c part IH]; cbn [chars forallb]; intros H.
  - rewrite append_empty_l. cbn [split]. rewrite Ascii.eqb_refl. reflexivity.
  - apply andb_true_iff in H as [Hc Hs]. apply negb_true_iff in Hc.
    rewrite append_String. cbn [split]. rewrite Hc, (IH Hs). reflexivity.
Qed.

(** Splitting what was joined gives the parts back. *)
Lemma split_join (sep : ascii) (parts : list string) :
  parts <> [] ->
  Forall (fun part => forallb (fun c => negb (Ascii.eqb c sep)) (chars part) = true) parts ->
  split sep (join (String sep "") parts) = parts.
Proof.
  induction parts as [|x xs IH]; [intros H; congruence|]. intros _ H.
  inversion H as [|? ? Hx Hxs]; subst.
  destruct xs as [|y ys].
  - apply split_one, Hx.
  - rewrite join_cons by discriminate. rewrite append_String, append_empty_l.
    rewrite split_app_sep by exact Hx. rewrite IH; [reflexivity | discriminate | exact Hxs].
Qed.

(** ** Command lines *)

(** X10.  A command line is run as its first part with the other parts as
    arguments, the parts being what [cmd.split(' ')] gives: joined by single
    spaces they give the command line back, and no part holds a space (so
    quoting is not understood, and two spaces in a row give an empty
    argument). *)
Theorem command_line_parts (cmd : string) :
  join " " (command_of cmd :: args_of cmd) = cmd
  /\ Forall (fun part => forallb (fun c => negb (Ascii.eqb c " ")) (chars part) = true)
       (command_of cmd :: args_of cmd).
Proof.
  assert (E : command_of cmd :: args_of cmd = split " " cmd).
  { unfold command_of, args_of. pose proof (split_nonempty " " cmd).
    destruct (split " " cmd); [congruence | reflexivity]. }
  rewrite E. split; [apply (join_split " ") | apply split_parts].
Qed.

(** ** What the patch guard reads and answers *)

Lemma plus_or_minus_inv (c : ascii) :
  plus_or_minus c = true -> c = "+"%char \/ c = "-"%char.
Proof.
  unfold plus_or_minus.
  destruct (Ascii.eqb_spec c "+"); [auto|].
  destruct (Ascii.eqb_spec c "-"); [auto | discriminate].
Qed.

Lemma a_or_b_inv (c : ascii) : a_or_b c = true -> c = "a"%char \/ c = "b"%char.
Proof.
  unfold a_or_b.
  destruct (Ascii.eqb_spec c "a"); [auto|].
  destruct (Ascii.eqb_spec c "b"); [auto | discriminate].
Qed.

Lemma header_paths_spec (line p : string) :
  In p (header_paths line) <->
  (exists prefix, In prefix header_prefixes /\ line = prefix +:+ p)
  /\ p <> "" /\ p <> "/dev/null"
  /\ forallb (fun c => negb (line_terminator c)) (chars p) = true.
Proof.
  split.
  - unfold header_paths. destruct (startsWith line "--- " || startsWith line "+++ ") eqn:Es;
      [| intros []].
    destruct (header_match line) as [q|] eqn:Eh; [| intros []].
    destruct (negb (q =? "/dev/null")) eqn:Ed; [| intros []].
    intros [<- | []].
    unfold header_match in Eh.
    destruct line as [|c1 [|c2 [|c3 [|c4 [|c5 [|c6 rest]]]]]]; try discriminate.
    destruct (_ && _) eqn:Ec in Eh; [| discriminate]. inversion Eh; subst rest. clear Eh.
    repeat (apply andb_true_iff in Ec as [Ec ?]).
    apply negb_true_iff in Ed. apply String.eqb_neq in Ed.
    match goal with H : negb (q =? "") = true |- _ =>
      apply negb_true_iff in H; apply String.eqb_neq in H end.
    repeat split; auto.
    destruct (Ascii.eqb_spec c4 " "); [subst | discriminate].
    destruct (Ascii.eqb_spec c6 "/"); [subst | discriminate].
    rewrite !startsWith_String in Es.
    repeat match goal with
           | H : plus_or_minus _ = true |- _ => apply plus_or_minus_inv in H as [-> | ->]
           | H : a_or_b _ = true |- _ => apply a_or_b_inv in H as [-> | ->]
           end;
      cbn in Es; try discriminate;
      first [ exists "--- a/"; split; [simpl; tauto | reflexivity]
            | exists "--- b/"; split; [simpl; tauto | reflexivity]
            | exists "+++ a/"; split; [simpl; tauto | reflexivity]
            | exists "+++ b/"; split; [simpl; tauto | reflexivity] ].
  - intros ((prefix & Hp & ->) & Hne & Hd & Hl).
    apply String.eqb_neq in Hne, Hd.
    unfold header_prefixes in Hp. simpl in Hp.
    destruct Hp as [<- | [<- | [<- | [<- | []]]]];
      unfold header_paths, header_match; cbv [String.append];
      rewrite !startsWith_String; cbn -[String.eqb line_terminator];
      rewrite Hne, Hl; cbn -[String.eqb]; rewrite Hd; cbn; auto.
Qed.

(** X1.  The guard reads a path off a line exactly when the line is one of the
    four header beginnings followed by the path, the path being non-empty,
    free of line terminators and other than [/dev/null]. *)
Theorem touched_paths_spec (patch p : string) :
  In p (touched_paths patch) <->
  (exists prefix, In prefix header_prefixes /\ In (prefix +:+ p) (split newline patch))
  /\ p <> "" /\ p <> "/dev/null"
  /\ forallb (fun c => negb (line_terminator c)) (chars p) = true.
Proof.
  unfold touched_paths. rewrite in_flat_map. split.
  - intros (line & Hin & Hp). apply header_paths_spec in Hp as ((prefix & Hpre & ->) & H).
    split; [eauto | exact H].
  - intros ((prefix & Hpre & Hin) & H). exists (prefix +:+ p). split; [exact Hin|].
    apply header_paths_spec. split; [eauto | exact H].
Qed.

Lemma check_paths_verdict (allowPaths filePaths : list string) (v : Validation) :
  check_paths allowPaths filePaths = Ret v ->
  (v = mkValidation true None
   /\ Forall (fun f => isPathAllowed allowPaths f = Ret true) filePaths)
  \/ (exists before f after,
        filePaths = before ++ f :: after
        /\ Forall (fun g => isPathAllowed allowPaths g = Ret true) before
        /\ isPathAllowed allowPaths f = Ret false
        /\ v = mkValidation false (Some ("Patch touches disallowed path: " +:+ f))).
Proof.
  induction filePaths as [|f rest IH]; cbn [check_paths].
  - intros E. inversion E. left. split; [reflexivity | constructor].
  - destruct (isPathAllowed allowPaths f) as [[|]|e] eqn:Ef; [| | discriminate].
    + intros E. destruct (IH E) as [[-> Hall] | (before & g & after & -> & Hb & Hg & ->)].
      * left. split; [reflexivity | constructor; assumption].
      * right. exists (f :: before), g, after. repeat split; auto.
    + intros E. inversion E. right. exists [], f, rest. repeat split; auto.
Qed.

(** X2.  What the guard answers.  When [validatePatch] returns, either it says
    [{valid: true}] and every path it has read off the patch is allowed, or
    it names the first path, in the order of the patch, that the allow-list
    refuses, all paths before it being allowed. *)
Theorem validatePatch_verdict (allowPaths : list string) (patch : string) (v : Validation) :
  validatePatch allowPaths patch = Ret v ->
  (v = mkValidation true None
   /\ Forall (fun f => isPathAllowed allowPaths f = Ret true) (touched_paths patch))
  \/ (exists before f after,
        touched_paths patch = before ++ f :: after
        /\ Forall (fun g => isPathAllowed allowPaths g = Ret true) before
        /\ isPathAllowed allowPaths f = Ret false
        /\ v = mkValidation false (Some ("Patch touches disallowed path: " +:+ f))).
Proof. apply check_paths_verdict. Qed.

Lemma validatePatch_verdict_witness :
  validatePatch ["src/**/*.ts"] (lines ["--- a/src/sub/a.ts"; "+++ b/secrets/key.ts"])
  = Ret (mkValidation false (Some "Patch touches disallowed path: secrets/key.ts"))
  /\ ((mkValidation false (Some "Patch touches disallowed path: secrets/key.ts")
       = mkValidation true None
       /\ Forall (fun f => isPathAllowed ["src/**/*.ts"] f = Ret true)
            (touched_paths (lines ["--- a/src/sub/a.ts"; "+++ b/secrets/key.ts"])))
      \/ (exists before f after,
            touched_paths (lines ["--- a/src/sub/a.ts"; "+++ b/secrets/key.ts"])
            = before ++ f :: after
            /\ Forall (fun g => isPathAllowed ["src/**/*.ts"] g = Ret true) before
            /\ isPathAllowed ["src/**/*.ts"] f = Ret false
            /\ mkValidation false (Some "Patch touches disallowed path: secrets/key.ts")
               = mkValidation false (Some ("Patch touches disallowed path: " +:+ f)))).
Proof.
  split; [vm_compute; reflexivity|].
  apply (validatePatch_verdict ["src/**/*.ts"]
           (lines ["--- a/src/sub/a.ts"; "+++ b/secrets/key.ts"])).
  vm_compute. reflexivity.
Defined.

Lemma suffix_ends_with (x rest l : string) (c : ascii) :
  x +:+ rest = l +:+ String c "" -> rest <> "" -> exists r, rest = r +:+ String c "".
Proof.
  revert l. induction x as [|d x IH]; intros l E Hne.
  - exists l. exact E.
  - destruct l as [|d' l]; rewrite ?append_String, ?append_empty_l in E.
    + inversion E as [[Ed Ex]]. apply append_empty_inv in Ex as [_ Ex]. contradiction.
    + inversion E; subst. eapply IH; eauto.
Qed.

Lemma header_match_carriage_return (l : string) :
  header_match (l +:+ String carriage_return "") = None.
Proof.
  destruct (header_match _) as [rest|] eqn:E; [| reflexivity]. exfalso.
  unfold header_match in E.
  destruct (l +:+ _) as [|c1 [|c2 [|c3 [|c4 [|c5 [|c6 rest']]]]]] eqn:El; try discriminate.
  destruct (_ && _) eqn:Ec in E; [| discriminate]. inversion E; subst rest'. clear E.
  apply andb_true_iff in Ec as [Ec Hl]. apply andb_true_iff in Ec as [_ Hne].
  apply negb_true_iff, String.eqb_neq in Hne.
  symmetry in El.
  change (String c1 (String c2 (String c3 (String c4 (String c5 (String c6 rest))))))
    with (String c1 (String c2 (String c3 (String c4 (String c5 (String c6 ""))))) +:+ rest)
    in El.
  apply suffix_ends_with in El as [r ->]; [| exact Hne].
  rewrite chars_app, forallb_app in Hl. apply andb_true_iff in Hl as [_ Hl].
  cbn in Hl. discriminate.
Qed.

(** X3.  Line endings.  A patch each line of which is empty or ends with a
    carriage return, as a patch with CR LF line endings is once split at its
    line feeds, passes the guard with any allow-list: [.] matches no carriage
    return and [$] is the end of the line, so no header is recognized and no
    path is checked. *)
Theorem validatePatch_carriage_returns (allowPaths : list string) (patch : string) :
  (forall line, In line (split newline patch) ->
                line = "" \/ exists l, line = l +:+ String carriage_return "") ->
  validatePatch allowPaths patch = Ret (mkValidation true None).
Proof.
  intros H. unfold validatePatch, touched_paths.
  rewrite touched_paths_none; [reflexivity|].
  intros line Hin. destruct (H line Hin) as [-> | [l ->]]; [reflexivity|].
  apply header_match_carriage_return.
Qed.

Lemma validatePatch_carriage_returns_witness :
  (forall line,
      In line (split newline ("--- a/secrets/key.ts" +:+ crlf +:+ "+++ b/secrets/key.ts" +:+ crlf)) ->
      line = "" \/ exists l, line = l +:+ String carriage_return "")
  /\ validatePatch ["src/**/*.ts"]
       ("--- a/secrets/key.ts" +:+ crlf +:+ "+++ b/secrets/key.ts" +:+ crlf)
     = Ret (mkValidation true None).
Proof.
  assert (H : forall line,
             In line (split newline ("--- a/secrets/key.ts" +:+ crlf
                                     +:+ "+++ b/secrets/key.ts" +:+ crlf)) ->
             line = "" \/ exists l, line = l +:+ String carriage_return "").
  { intros line Hin. vm_compute in Hin.
    destruct Hin as [<- | [<- | [<- | []]]]; [right | right | left; reflexivity].
    - exists "--- a/secrets/key.ts". reflexivity.
    - exists "+++ b/secrets/key.ts". reflexivity. }
  split; [exact H|].
  apply (validatePatch_carriage_returns ["src/**/*.ts"] _ H).
Defined.

(** ** The similarity of two patches *)

Lemma line_set_nonempty (p : string) : (1 <= size (line_set p))%nat.
Proof.
  unfold line_set. pose proof (split_nonempty newline p) as Hn.
  destruct (split newline p) as [|l ls]; [congruence|].
  cbn [list_to_set].
  assert (Hs : ({[l]} : gset string) ⊆ {[l]} ∪ list_to_set ls) by set_solver.
  apply subseteq_size in Hs. rewrite size_singleton in Hs. exact Hs.
Qed.

Lemma Zpos_of_nat (n : nat) : (1 <= n)%nat -> Z.pos (Pos.of_nat n) = Z.of_nat n.
Proof.
  intros H. destruct n as [|n]; [lia|].
  rewrite <- Pos.of_nat_succ, Zpos_P_of_succ_nat. lia.
Qed.

Lemma union_size_pos (a b : string) : (1 <= size (line_set a ∪ line_set b))%nat.
Proof.
  pose proof (line_set_nonempty a).
  assert (Hs : line_set a ⊆ line_set a ∪ line_set b) by set_solver.
  apply subseteq_size in Hs. lia.
Qed.

(** X11.  [patchSimilarity] stays between 0 and 1, and is a quotient of two
    sizes the second of which is not 0: the set of lines of a string is
    never empty. *)
Theorem patchSimilarity_range (patch1 patch2 : string) :
  (0 <= patchSimilarity patch1 patch2)%Q /\ (patchSimilarity patch1 patch2 <= 1)%Q
  /\ (1 <= size (line_set patch1 ∪ line_set patch2))%nat.
Proof.
  pose proof (union_size_pos patch1 patch2) as Hu.
  unfold patchSimilarity. destruct (patch1 =? patch2).
  - repeat split; [discriminate | apply Qle_refl | exact Hu].
  - cbv zeta. unfold Qle. cbn [Qnum Qden]. rewrite Zpos_of_nat by exact Hu.
    assert (Hs : line_set patch1 ∩ line_set patch2 ⊆ line_set patch1 ∪ line_set patch2)
      by set_solver.
    apply subseteq_size in Hs. repeat split; [lia | lia | exact Hu].
Qed.

(** X12.  The similarity does not depend on the order of its arguments. *)
Theorem patchSimilarity_sym (patch1 patch2 : string) :
  patchSimilarity patch1 patch2 = patchSimilarity patch2 patch1.
Proof.
  unfold patchSimilarity. rewrite (String.eqb_sym patch1 patch2).
  destruct (patch2 =? patch1); [reflexivity|]. cbv zeta.
  rewrite (comm_L (∩) (line_set patch1)), (comm_L (∪) (line_set patch1)). reflexivity.
Qed.

(** X13.  The two ends of the scale.  The similarity is 1 exactly when the two
    patches have the same set of lines, whatever the order and the number
    of occurrences of the lines, and 0 exactly when they are different
    strings with no line in common. *)
Theorem patchSimilarity_extremes (patch1 patch2 : string) :
  (patchSimilarity patch1 patch2 == 1 <-> line_set patch1 = line_set patch2)%Q
  /\ (patchSimilarity patch1 patch2 == 0 <->
      patch1 <> patch2 /\ line_set patch1 ## line_set patch2)%Q.
Proof.
  pose proof (union_size_pos patch1 patch2) as Hu.
  unfold patchSimilarity. destruct (String.eqb_spec patch1 patch2) as [-> | Hne].
  - split; [split; reflexivity|]. split; [discriminate | intros [H _]; congruence].
  - cbv zeta. unfold Qeq. cbn [Qnum Qden]. rewrite Zpos_of_nat by exact Hu.
    assert (Hs : line_set patch1 ∩ line_set patch2 ⊆ line_set patch1 ∪ line_set patch2)
      by set_solver.
    split; split.
    + intros E.
      assert (Hsize : (size (line_set patch1 ∪ line_set patch2)
                       <= size (line_set patch1 ∩ line_set patch2))%nat) by lia.
      pose proof (set_subseteq_size_eq _ _ Hs Hsize) as Heq.
      apply leibniz_equiv. set_solver.
    + intros E. rewrite E.
      replace (line_set patch2 ∩ line_set patch2) with (line_set patch2) by set_solver.
      replace (line_set patch2 ∪ line_set patch2) with (line_set patch2) by set_solver.
      lia.
    + intros E. split; [exact Hne|].
      assert (Hz : size (line_set patch1 ∩ line_set patch2) = 0%nat) by lia.
      apply size_empty_inv in Hz. set_solver.
    + intros [_ Hd].
      assert (Hz : line_set patch1 ∩ line_set patch2 = ∅) by set_solver.
      rewrite Hz, size_empty. lia.
Qed.

(** ** Stuck issues *)

Lemma truthy_Some (o : option string) (s : string) :
  truthy o = Some s <-> o = Some s /\ s <> "".
Proof.
  unfold truthy. destruct o as [x|].
  - destruct (String.eqb_spec x ""); split.
    + discriminate.
    + intros [E Hs]. inversion E; subst. contradiction.
    + intros E. inversion E; subst. auto.
    + intros [E _]. exact E.
  - split; [discriminate | intros [E _]; discriminate].
Qed.

Lemma last_two {A : Type} (l : list A) (x y : A) (rest : list A) :
  rev l = y :: x :: rest <-> l = rev rest ++ [x; y].
Proof.
  split.
  - intros E. rewrite <- (rev_involutive l), E. cbn [rev]. rewrite <- app_assoc. reflexivity.
  - intros ->. rewrite rev_app_distr, rev_involutive. reflexivity.
Qed.

(** X14.  The stuck issues are the issues of the last review that carry a
    non-empty [issue_id] under which the review before it had an issue of
    severity critical or major.  With fewer than two reviews there is none;
    the severity that counts is the one the issue had in the earlier
    review. *)
Theorem findStuckIssues_spec (reviewHistory : list Review) (issue : Issue) :
  In issue (findStuckIssues_in reviewHistory) <->
  exists earlier prevReview lastReview id prevIssue,
    reviewHistory = earlier ++ [prevReview; lastReview]
    /\ In issue (issues lastReview)
    /\ issue_id issue = Some id /\ id <> ""
    /\ In prevIssue (issues prevReview)
    /\ issue_id prevIssue = Some id
    /\ (severity prevIssue = critical \/ severity prevIssue = major).
Proof.
  unfold findStuckIssues_in. split.
  - destruct (rev reviewHistory) as [|lastReview [|prevReview rest]] eqn:Er;
      [intros [] | intros [] |].
    apply last_two in Er. rewrite filter_In. intros [Hin Hc].
    destruct (truthy (issue_id issue)) as [id|] eqn:Et; [| discriminate].
    apply truthy_Some in Et as [Eid Hne].
    apply existsb_exists in Hc as (prevIssue & Hp & Hs).
    apply andb_true_iff in Hs as [Hsame Hsev].
    exists (rev rest), prevReview, lastReview, id, prevIssue.
    repeat split; auto.
    + rewrite Eid in Hsame. unfold same_issue_id in Hsame.
      destruct (issue_id prevIssue) as [x|]; [| discriminate].
      apply String.eqb_eq in Hsame. congruence.
    + destruct (severity prevIssue); auto; discriminate.
  - intros (earlier & prevReview & lastReview & id & prevIssue & -> & Hin & Eid & Hne
            & Hp & Epid & Hsev).
    rewrite rev_app_distr. cbn [rev app]. rewrite filter_In. split; [exact Hin|].
    assert (Et : truthy (issue_id issue) = Some id) by (apply truthy_Some; auto).
    rewrite Et. apply existsb_exists. exists prevIssue. split; [exact Hp|].
    rewrite Eid, Epid. cbn [same_issue_id]. rewrite String.eqb_refl.
    destruct Hsev as [-> | ->]; reflexivity.
Qed.

(** ** The globs of the later allow-list *)

Lemma slashes_app (a b : string) : slashes (a +:+ b) = (slashes a + slashes b)%nat.
Proof. unfold slashes. rewrite chars_app, List.filter_app, length_app. reflexivity. Qed.

Lemma lang_Chr_inv (c : ascii) (s : string) : lang (Chr c) s -> s = String c "".
Proof. intros H. inversion H. reflexivity. Qed.

Lemma lang_NotChr_inv (c : ascii) (s : string) :
  lang (NotChr c) s -> exists d, d <> c /\ s = String d "".
Proof. intros H. inversion H; subst. eauto. Qed.

Lemma lang_Cat_inv (r1 r2 : re) (s : string) :
  lang (Cat r1 r2) s -> exists s1 s2, s = s1 +:+ s2 /\ lang r1 s1 /\ lang r2 s2.
Proof. intros H. inversion H; subst. eauto. Qed.

Lemma lang_Eps_inv (s : string) : lang Eps s -> s = "".
Proof. intros H. inversion H. reflexivity. Qed.

Lemma slashes_String (c : ascii) (s : string) :
  slashes (String c s) = ((if Ascii.eqb "/" c then 1 else 0) + slashes s)%nat.
Proof. unfold slashes. cbn [chars List.filter]. destruct (Ascii.eqb "/" c); reflexivity. Qed.

Lemma lang_Star_no_slash (s : string) : lang (Star (NotChr "/")) s -> slashes s = 0%nat.
Proof.
  intros H. remember (Star (NotChr "/")) as r eqn:Er.
  induction H; try discriminate; [reflexivity|].
  inversion Er; subst. rewrite slashes_app, IHlang2 by reflexivity.
  apply lang_NotChr_inv in H as (d & Hd & ->).
  rewrite slashes_String. destruct (Ascii.eqb_spec "/" d); [congruence | reflexivity].
Qed.

Lemma lang_glob_char (c : ascii) (s : string) :
  c <> "*"%char -> lang (glob_char c) s -> slashes s = slashes (String c "").
Proof.
  intros Hc. unfold glob_char. destruct (Ascii.eqb_spec c "?") as [-> | Hq]; intros H.
  - apply lang_NotChr_inv in H as (d & Hd & ->). rewrite !slashes_String.
    destruct (Ascii.eqb_spec "/" d); [congruence | reflexivity].
  - apply lang_Chr_inv in H as ->. reflexivity.
Qed.

Lemma globToRegExp_from_segments (pattern : string) : forall path,
  has_double_star pattern = false ->
  lang (globToRegExp_from false pattern) path -> slashes path = slashes pattern.
Proof.
  induction pattern as [|c rest IH]; intros path Hd H.
  - apply lang_Eps_inv in H as ->. reflexivity.
  - cbn [globToRegExp_from] in H.
    assert (Hrest : has_double_star rest = false).
    { cbn [has_double_star] in Hd. destruct rest; [reflexivity|].
      apply orb_false_iff in Hd as [_ Hd]. exact Hd. }
    destruct (Ascii.eqb_spec c "*") as [-> | Hc].
    + destruct rest as [|next rest'].
      * apply lang_Cat_inv in H as (s1 & s2 & -> & H1 & H2).
        apply lang_Eps_inv in H2 as ->. apply lang_Star_no_slash in H1.
        rewrite slashes_app, H1. reflexivity.
      * cbn [has_double_star] in Hd. apply orb_false_iff in Hd as [Hn _].
        cbn in Hn. rewrite Hn in H.
        apply lang_Cat_inv in H as (s1 & s2 & -> & H1 & H2).
        apply lang_Star_no_slash in H1. apply IH in H2; [| exact Hrest].
        rewrite slashes_app, H1, H2. rewrite (slashes_String "*"). reflexivity.
    + apply lang_Cat_inv in H as (s1 & s2 & -> & H1 & H2).
      apply lang_glob_char in H1; [| exact Hc]. apply IH in H2; [| exact Hrest].
      rewrite slashes_app, H1, H2. rewrite !slashes_String.
      change (slashes "") with 0%nat. lia.
Qed.

(** X8.  A single [*] and a [?] stay inside a path segment.  When no two [*]
    follow each other in a glob, every path that the pattern of
    [globToRegExp] matches has as many slashes as the glob: the pattern is
    anchored at both ends and none of its wildcards stands for a slash. *)
Theorem globToRegExp_segments (pattern path : string) :
  has_double_star pattern = false ->
  matches (globToRegExp pattern) path = true ->
  slashes path = slashes pattern.
Proof.
  intros Hd H. apply matches_lang in H.
  apply globToRegExp_from_segments; assumption.
Qed.

Lemma globToRegExp_segments_witness :
  has_double_star "src/*.ts" = false
  /\ matches (globToRegExp "src/*.ts") "src/a.ts" = true
  /\ slashes "src/a.ts" = slashes "src/*.ts".
Proof.
  split; [reflexivity|]. split; [reflexivity|].
  apply (globToRegExp_segments "src/*.ts" "src/a.ts"); reflexivity.
Defined.

Lemma lang_Star_Dot (s : string) :
  forallb (fun c => negb (line_terminator c)) (chars s) = true -> lang (Star Dot) s.
Proof.
  induction s as [|c s IH]; cbn [chars forallb]; intros H.
  - constructor.
  - apply andb_true_iff in H as [Hc Hs]. apply negb_true_iff in Hc.
    change (String c s) with (String c "" +:+ s).
    constructor; [constructor; exact Hc | apply IH; exact Hs].
Qed.

(** A prefix without [*] is translated on its own. *)
Lemma globToRegExp_from_prefix (pre rest s1 s2 : string) :
  contains_star pre = false ->
  lang (globToRegExp_from false pre) s1 ->
  lang (globToRegExp_from false rest) s2 ->
  lang (globToRegExp_from false (pre +:+ rest)) (s1 +:+ s2).
Proof.
  revert s1. induction pre as [|c pre IH]; intros s1 Hs H1 H2.
  - apply lang_Eps_inv in H1 as ->. exact H2.
  - unfold contains_star in Hs. cbn [chars existsb] in Hs.
    apply orb_false_iff in Hs as [Hc Hs].
    change (String c pre +:+ rest) with (String c (pre +:+ rest)).
    rewrite Ascii.eqb_sym in Hc.
    cbn [globToRegExp_from] in *. rewrite Hc in *.
    apply lang_Cat_inv in H1 as (t1 & t2 & -> & Ht1 & Ht2).
    rewrite append_assoc. constructor; [exact Ht1|]. apply IH; assumption.
Qed.

(** X9.  [**/] stands for any number of directories, none included.  After a
    prefix without [*], the glob [pre**/post] matches what [pre] matches
    followed by what [post] matches, and also with any run of directories
    between the two. *)
Theorem globToRegExp_any_directories (pre post s1 s2 dirs : string) :
  contains_star pre = false ->
  matches (globToRegExp pre) s1 = true ->
  matches (globToRegExp post) s2 = true ->
  forallb (fun c => negb (line_terminator c)) (chars dirs) = true ->
  matches (globToRegExp (pre +:+ "**/" +:+ post)) (s1 +:+ s2) = true
  /\ matches (globToRegExp (pre +:+ "**/" +:+ post)) (s1 +:+ dirs +:+ "/" +:+ s2) = true.
Proof.
  intros Hs H1 H2 Hd. apply matches_lang in H1, H2. unfold globToRegExp in *.
  split; apply matches_lang; apply globToRegExp_from_prefix; try assumption.
  - change (globToRegExp_from false ("**/" +:+ post))
      with (Cat any_directories (globToRegExp_from false post)).
    change s2 with ("" +:+ s2). constructor; [| exact H2].
    apply lang_alt_r. constructor.
  - change (globToRegExp_from false ("**/" +:+ post))
      with (Cat any_directories (globToRegExp_from false post)).
    rewrite <- append_assoc. constructor; [| exact H2].
    apply lang_alt_l. constructor; [apply lang_Star_Dot; exact Hd | constructor].
Qed.

Lemma globToRegExp_any_directories_witness :
  matches (globToRegExp ("src/" +:+ "**/" +:+ "*.ts")) ("src/" +:+ "a.ts") = true
  /\ matches (globToRegExp ("src/" +:+ "**/" +:+ "*.ts"))
       ("src/" +:+ "sub/deep" +:+ "/" +:+ "a.ts") = true.
Proof.
  apply (globToRegExp_any_directories "src/" "*.ts" "src/" "a.ts" "sub/deep"); reflexivity.
Defined.

(** ** [listFiles] *)

Lemma listed_name_segment (name : string) :
  listed_name name = true -> name <> "" /\ name <> "." /\ name <> "..".
Proof.
  unfold listed_name, plain_name, skipped. intros H.
  apply andb_true_iff in H as [Hp Hs]. apply andb_true_iff in Hp as [Hne _].
  apply negb_true_iff in Hne. apply String.eqb_neq in Hne.
  apply negb_true_iff, orb_false_iff in Hs as [Hs _].
  repeat split; [exact Hne | |]; intros ->; discriminate.
Qed.

Lemma normalize_segments_plain (allowAboveRoot : bool) (segments : list string) :
  forall stack,
    Forall (fun seg => seg <> "" /\ seg <> "." /\ seg <> "..") segments ->
    normalize_segments allowAboveRoot segments stack = rev stack ++ segments.
Proof.
  induction segments as [|seg rest IH]; intros stack H; cbn [normalize_segments].
  - rewrite app_nil_r. reflexivity.
  - inversion H as [|? ? (H1 & H2 & H3) Hrest]; subst.
    apply String.eqb_neq in H1, H2, H3. rewrite H1, H2, H3. cbn [orb].
    rewrite IH by exact Hrest. cbn [rev]. rewrite <- app_assoc. reflexivity.
Qed.

Lemma ends_with_slash_String (c : ascii) (s : string) :
  ends_with_slash (String c s) = if String.eqb s "" then Ascii.eqb c "/" else ends_with_slash s.
Proof.
  unfold ends_with_slash. cbn [chars rev]. destruct s as [|d s]; [reflexivity|].
  cbn [String.eqb chars rev]. destruct (rev (chars s) ++ [d]) as [|x xs] eqn:E.
  - destruct (rev (chars s)); discriminate.
  - reflexivity.
Qed.

Lemma ends_with_slash_app (a b : string) :
  b <> "" -> ends_with_slash (a +:+ b) = ends_with_slash b.
Proof.
  intros Hb. induction a as [|c a IH]; [reflexivity|].
  rewrite append_String, ends_with_slash_String, IH.
  destruct (String.eqb_spec (a +:+ b) ""); [| reflexivity].
  destruct a; [rewrite append_empty_l in *; contradiction | discriminate].
Qed.

Lemma plain_name_no_trailing_slash (name : string) :
  plain_name name = true -> ends_with_slash name = false.
Proof.
  unfold plain_name. intros H. apply andb_true_iff in H as [_ H].
  induction name as [|c name IH]; [reflexivity|].
  cbn [chars forallb] in H. apply andb_true_iff in H as [Hc Hs]. apply negb_true_iff in Hc.
  rewrite ends_with_slash_String. destruct (String.eqb name ""); [exact Hc | apply IH, Hs].
Qed.

Lemma plain_name_first (name : string) :
  plain_name name = true -> exists c rest, name = String c rest /\ Ascii.eqb c "/" = false.
Proof.
  unfold plain_name. destruct name as [|c rest]; [discriminate|].
  cbn [chars forallb String.eqb negb andb]. intros H.
  apply andb_true_iff in H as [Hc _]. apply negb_true_iff in Hc. eauto.
Qed.

Lemma plain_name_parts (name : string) :
  plain_name name = true ->
  forallb (fun c => negb (Ascii.eqb c "/")) (chars name) = true.
Proof. unfold plain_name. intros H. apply andb_true_iff in H as [_ H]. exact H. Qed.

(** A path made of names that [walk] lists is in normal form. *)
Lemma path_normalize_names (names : list string) :
  names <> [] -> Forall (fun name => listed_name name = true) names ->
  path_normalize (join "/" names) = join "/" names.
Proof.
  intros Hne Hall.
  assert (Hplain : Forall (fun name => plain_name name = true) names).
  { eapply Forall_impl; [exact Hall|]. cbv beta. unfold listed_name.
    intros name H. apply andb_true_iff in H as [H _]. exact H. }
  assert (Hfirst : exists c rest, join "/" names = String c rest /\ Ascii.eqb c "/" = false).
  { destruct names as [|x xs]; [congruence|].
    inversion Hplain as [|? ? Hx _]; subst.
    apply plain_name_first in Hx as (c & rest & -> & Hc).
    destruct xs; [eauto|]. rewrite join_cons by discriminate.
    rewrite append_String. eauto. }
  assert (Hlast : ends_with_slash (join "/" names) = false).
  { destruct (exists_last Hne) as (init & l & ->).
    apply Forall_app in Hplain as [_ Hl]. inversion Hl as [|? ? Hl' _]; subst.
    destruct init as [|y ys].
    - apply plain_name_no_trailing_slash, Hl'.
    - rewrite join_snoc by discriminate. rewrite <- append_assoc.
      rewrite ends_with_slash_app; [apply plain_name_no_trailing_slash, Hl'|].
      apply plain_name_first in Hl' as (c & rest & -> & _). discriminate. }
  destruct Hfirst as (c & rest & Ej & Hc).
  unfold path_normalize. rewrite Hlast.
  assert (Es : split "/" (join "/" names) = names).
  { apply (split_join "/"); [exact Hne|].
    eapply Forall_impl; [exact Hplain|]. apply plain_name_parts. }
  rewrite Es.
  assert (Ea : startsWith (join "/" names) "/" = false).
  { rewrite Ej, startsWith_String, Ascii.eqb_sym, Hc. reflexivity. }
  rewrite Ea. cbn [negb].
  rewrite normalize_segments_plain.
  2:{ eapply Forall_impl; [exact Hall|]. apply listed_name_segment. }
  cbn [rev app]. rewrite Ej at 1. cbn [String.eqb].
  rewrite Ej at 1. cbn [String.eqb]. reflexivity.
Qed.

Lemma path_join_names (dirs : list string) (name : string) :
  Forall (fun name => listed_name name = true) dirs -> listed_name name = true ->
  path_join (join "/" dirs) name = join "/" (dirs ++ [name]).
Proof.
  intros Hd Hn. unfold path_join.
  assert (Hname : name <> "") by (apply listed_name_segment in Hn; tauto).
  destruct dirs as [|d ds].
  - cbn [join String.concat String.eqb app].
    apply (path_normalize_names [name]); [discriminate | auto].
  - assert (Hj : join "/" (d :: ds) <> "").
    { inversion Hd as [|? ? Hd' _]; subst. apply listed_name_segment in Hd' as [Hd' _].
      destruct d; [congruence|]. destruct ds; [discriminate|].
      rewrite join_cons by discriminate. discriminate. }
    apply String.eqb_neq in Hj, Hname. rewrite Hj, Hname.
    rewrite <- join_snoc by discriminate.
    apply path_normalize_names; [discriminate|].
    apply Forall_app. split; [exact Hd | auto].
Qed.

Lemma file_at_nonempty (entries : list Dirent) (names : list string) :
  file_at entries names -> names <> [].
Proof. intros H. destruct H; discriminate. Qed.

Lemma well_named_In (entries : list Dirent) (entry : Dirent) :
  well_named entries = true -> In entry entries ->
  plain_name (entry_name entry) = true
  /\ match entry with
     | DirEntry _ below => well_named below = true
     | FileEntry _ => True
     end.
Proof.
  unfold well_named. rewrite forallb_forall. intros H Hin. specialize (H entry Hin).
  destruct entry as [name|name below]; cbn [well_named_entry entry_name] in *;
    apply andb_true_iff in H as [Hp Hb]; auto.
Qed.

Lemma walk_spec (k : nat) : forall depth entries dirs,
  (depth + k = 3)%nat -> length dirs = depth ->
  Forall (fun name => listed_name name = true) dirs ->
  well_named entries = true ->
  forall p,
    In p (walk entries (join "/" dirs) depth) <->
    exists names,
      file_at entries names /\ p = join "/" (dirs ++ names)
      /\ (length dirs + length names <= 3)%nat
      /\ Forall (fun name => skipped name = false) names.
Proof.
  induction k as [|k IH]; intros depth entries dirs Hk Hlen Hdirs Hwell p.
  - assert (depth = 3%nat) as -> by lia. cbn. split; [intros []|].
    intros (names & Hf & _ & Hl & _). apply file_at_nonempty in Hf.
    destruct names; [congruence | cbn in Hl; lia].
  - subst depth. unfold walk, walk_with.
    assert (Hd : (2 <? length dirs)%nat = false) by (apply Nat.ltb_ge; lia).
    rewrite Hd. rewrite in_flat_map. split.
    + intros (entry & Hin & Hp).
      destruct (well_named_In _ _ Hwell Hin) as [Hplain Hbelow].
      destruct entry as [name|name below]; cbn [walk_entry entry_name] in *;
        destruct (skipped name) eqn:Es; try contradiction.
      * destruct Hp as [<- | []]. exists [name].
        rewrite path_join_names; [| exact Hdirs | unfold listed_name; rewrite Hplain, Es; auto].
        repeat split; [constructor; exact Hin | cbn; lia | constructor; auto].
      * assert (Hl : listed_name name = true) by (unfold listed_name; rewrite Hplain, Es; auto).
        rewrite path_join_names in Hp by assumption.
        apply (IH (length dirs + 1)%nat below (dirs ++ [name])) in Hp;
          [| lia | rewrite length_app; cbn; lia | apply Forall_app; auto | exact Hbelow].
        destruct Hp as (names & Hf & -> & Hlen' & Hs).
        exists (name :: names). rewrite <- app_assoc in *. rewrite length_app in Hlen'.
        cbn in *. repeat split; [econstructor; eauto | lia | constructor; auto].
    + intros (names & Hf & -> & Hl & Hs).
      destruct Hf as [entries name Hin | entries name below names Hin Hf].
      * exists (FileEntry name). split; [exact Hin|].
        destruct (well_named_In _ _ Hwell Hin) as [Hplain _].
        inversion Hs; subst. cbn [walk_entry entry_name] in *.
        match goal with H : skipped name = false |- _ => rewrite H end.
        rewrite path_join_names; [left; reflexivity | exact Hdirs |].
        unfold listed_name. rewrite Hplain. cbn.
        match goal with H : skipped name = false |- _ => rewrite H end. reflexivity.
      * exists (DirEntry name below). split; [exact Hin|].
        destruct (well_named_In _ _ Hwell Hin) as [Hplain Hbelow].
        inversion Hs as [|? ? Hsn Hsr]; subst. cbn [walk_entry entry_name] in *.
        rewrite Hsn.
        assert (Hln : listed_name name = true)
          by (unfold listed_name; rewrite Hplain, Hsn; reflexivity).
        rewrite path_join_names by assumption.
        apply (IH (length dirs + 1)%nat below (dirs ++ [name]));
          [lia | rewrite length_app; cbn; lia | apply Forall_app; auto | exact Hbelow |].
        exists names. rewrite <- app_assoc. rewrite length_app. cbn in *.
        repeat split; auto; lia.
Qed.

(** X6.  What [listFiles] lists, for a tree whose names are not empty and have
    no slash: the files reached from the root through at most two
    directories, no name on the way and no file name beginning with a dot
    or being [node_modules]; each as its names joined by slashes. *)
Theorem listFiles_spec (root : list Dirent) (p : string) :
  well_named root = true ->
  (In p (listFiles root) <->
   exists names,
     file_at root names /\ p = join "/" names /\ (length names <= 3)%nat
     /\ Forall (fun name => skipped name = false) names).
Proof.
  intros Hwell. unfold listFiles.
  apply (walk_spec 3 0 root [] eq_refl eq_refl (Forall_nil_2 _) Hwell p).
Qed.

Lemma listFiles_spec_witness :
  well_named example_tree = true
  /\ (In "src/x/c.ts" (listFiles example_tree) <->
      exists names,
        file_at example_tree names /\ "src/x/c.ts" = join "/" names
        /\ (length names <= 3)%nat
        /\ Forall (fun name => skipped name = false) names).
Proof.
  split; [reflexivity|].
  apply (listFiles_spec example_tree "src/x/c.ts"). reflexivity.
Defined.

Example listFiles_example :
  listFiles example_tree = ["a.ts"; "src/b.ts"; "src/x/c.ts"].
Proof. vm_compute. reflexivity. Qed.

(** ** The back ends and the status summary *)

Lemma consume_text {Item : Type} (content_of : Item -> option string) (onChunk : bool)
  (stream : Stream Item) :
  forall fullResponse chunks text,
    consume content_of onChunk stream fullResponse = (chunks, Ret text) ->
    text = fullResponse +:+ String.concat "" (omap content_of (stream_items stream))
    /\ chunks = if onChunk then omap content_of (stream_items stream) else [].
Proof.
  induction stream as [|item rest IH|msg]; intros fullResponse chunks text; cbn [consume].
  - intros E. inversion E; subst. rewrite append_empty_r. destruct onChunk; auto.
  - destruct (content_of item) as [content|] eqn:Ec.
    + destruct (consume content_of onChunk rest (fullResponse +:+ content))
        as [chunks' result] eqn:E.
      intros E'. inversion E'; subst. apply IH in E as [-> ->].
      cbn [stream_items omap list_omap]. rewrite Ec. split; [| destruct onChunk; reflexivity].
      rewrite append_assoc. f_equal.
      destruct (omap content_of _); [cbn; rewrite append_empty_r; reflexivity | reflexivity].
    + intros E. apply IH in E as [-> ->]. cbn [stream_items omap list_omap]. rewrite Ec. auto.
  - discriminate.
Qed.

Lemma consume_result {Item : Type} (content_of : Item -> option string) (stream : Stream Item) :
  forall fullResponse,
    snd (consume content_of true stream fullResponse)
    = snd (consume content_of false stream fullResponse).
Proof.
  induction stream as [|item rest IH|msg]; intros fullResponse; cbn [consume];
    [reflexivity | | reflexivity].
  destruct (content_of item) as [content|]; [| apply IH].
  specialize (IH (fullResponse +:+ content)).
  destruct (consume content_of true rest _), (consume content_of false rest _). exact IH.
Qed.

(** X26.  Whichever back end [createProvider] picks, the text that
    [complete] resolves with does not depend on whether the caller has
    passed the optional callback [onChunk].  With a callback, the text is
    the concatenation of the chunks passed to it, in order; without one,
    nothing is passed.  The OpenAI back end passes no empty chunk. *)
Theorem complete_is_concatenation (provider : Provider) (onChunk : bool)
  (stream : Stream (ProviderItem provider)) (chunks : list string) (text : string) :
  provider_complete (LLMProvider := createProvider provider) onChunk stream
  = (chunks, Ret text) ->
  (if onChunk then text = String.concat "" chunks else chunks = [])
  /\ snd (provider_complete (LLMProvider := createProvider provider) (negb onChunk) stream)
     = Ret text
  /\ (provider = openai -> Forall (fun chunk => chunk <> "") chunks).
Proof.
  intros E.
  assert (Hother : snd (provider_complete (LLMProvider := createProvider provider)
                          (negb onChunk) stream) = Ret text).
  { destruct provider; cbn [createProvider ProviderItem] in *;
      unfold provider_complete, OpenAIProvider, AnthropicProvider in *;
      destruct onChunk; cbn [negb];
      first [ rewrite <- consume_result | rewrite consume_result ];
      rewrite E; reflexivity. }
  split; [| split; [exact Hother|]]; clear Hother.
  - destruct provider; cbn [createProvider ProviderItem] in *;
      unfold provider_complete, OpenAIProvider, AnthropicProvider in E;
      apply consume_text in E as [-> ->]; destruct onChunk; reflexivity.
  - intros ->. cbn [createProvider ProviderItem] in *.
    unfold provider_complete, OpenAIProvider in E.
    apply consume_text in E as [_ ->]. destruct onChunk; [| constructor].
    induction (stream_items stream) as [|[s|] items IH];
      cbn [omap list_omap OpenAI_content]; try constructor; auto.
    destruct (String.eqb_spec s ""); cbn; auto.
Qed.

(** X7.  [gitStatusSummary] answers [No changes] exactly when the four
    lists of the status are empty. *)
Theorem gitStatusSummary_no_changes (status : StatusResult) :
  gitStatusSummary status = "No changes" <->
  modified status = [] /\ created status = [] /\ deleted status = []
  /\ not_added status = [].
Proof.
  destruct status as [m c d u]. unfold gitStatusSummary. cbn [modified created deleted not_added].
  split.
  - destruct m, c, d, u; auto; unfold status_line; cbn [app];
      match goal with
      | |- context [join nl (?x :: ?rest)] =>
          destruct rest; cbn; intros; discriminate
      end.
  - intros (-> & -> & -> & ->). reflexivity.
Qed.

(** * More runs in scripted environments *)

(** [applyPatch] where [git apply] exits with code 0. *)
Lemma applyPatch_sound_witness :
  exists log σ',
    applyPatch scripted_child default_config "/ws" (diff_of "a") (initial apply_success_script)
    = (Ret (mkApplyResult true None), log, σ')
    /\ log <> []
    /\ files (world σ') !! "/ws/.dualagent-temp.patch" = None.
Proof.
  eexists _, _. split; [vm_compute; reflexivity|].
  edestruct (applyPatch_sound scripted_child default_config "/ws" (diff_of "a")
               (initial apply_success_script)) as (_ & _ & H).
  - vm_compute. reflexivity.
  - destruct (H eq_refl) as (Hne & _ & Hfile). split; [exact Hne | exact Hfile].
Defined.

(** [readFiles] on an allowed file and on one outside the allow-list. *)
Lemma readFiles_entries_witness :
  exists contents,
    readFiles default_config "/ws" ["src/sub/a.ts"; "secrets/key.ts"] two_files
    = (Ret contents, [], two_files)
    /\ contents !! "secrets/key.ts"
       = Some (Ret (FileError [lit "ERROR: "; lit "Path "; lit "secrets/key.ts";
                               lit " is not in allowlist"]))
    /\ contents !! "src/sub/a.ts" = Some (Ret (FileText "export const a = 1;"))
    /\ contents !! "src/sub/b.ts" = None.
Proof.
  destruct (readFiles_entries default_config "/ws" ["src/sub/a.ts"; "secrets/key.ts"]
              two_files) as (contents & E & Hout & Hrefused & Hallowed).
  - intros H. repeat (apply elem_of_cons in H as [H | H]; [discriminate|]).
    apply elem_of_nil in H. exact H.
  - exists contents. split; [exact E|]. split; [| split].
    + apply Hrefused; [right; left | vm_compute; reflexivity].
    + rewrite Hallowed; [vm_compute; reflexivity | left | vm_compute; reflexivity].
    + apply Hout. intros H. repeat (apply elem_of_cons in H as [H | H]; [discriminate|]).
      apply elem_of_nil in H. exact H.
Defined.


(** Under [final_only] with three iterations allowed, a first patch whose
    tests pass is approved without review. *)
Lemma unreviewed_pass_is_approved_witness :
  exists skipped_status,
    after_tests scripted_child scripted_complete (with_review_mode final_only default_config)
      "/ws" "request" first_shared_state (patch_message (diff_of "a")) (diff_of "a") 1
      (mkLocals 0 "" None []) (mkCommandResult "" "" (Some 0%Z)) (initial happy_script)
    = (Ret Return,
       skipped_status
       ++ [Emit (cycle_complete true
                   [lit "Implementation approved! ";
                    lit "Tests passed and review was skipped per configuration"] 1)],
       initial happy_script)
    /\ (skipped_status = []
        \/ skipped_status
           = [Emit (status [lit "Skipping review (tests passed on first try)"])]).
Proof.
  apply (unreviewed_pass_is_approved scripted_child scripted_complete
           (with_review_mode final_only default_config) "/ws" "request" first_shared_state
           (patch_message (diff_of "a")) (diff_of "a") 1 (mkLocals 0 "" None [])
           (mkCommandResult "" "" (Some 0%Z)) (initial happy_script)).
  - reflexivity.
  - reflexivity.
  - left. reflexivity.
Defined.

(** One pass with a reviewer that asks for diagnostics, [max_iterations]
    being 1: the run is still inside the loop. *)
Lemma passes_beyond_max_iterations_witness :
  outcome_of (run_scripted (with_max_iterations 1 default_config) 1 uncertainty_script)
  = Ret OutOfFuel
  /\ (1 < 1 + Z.of_nat (count is_diagnostic_round
                          (untagged (log_of (run_scripted
                                               (with_max_iterations 1 default_config) 1
                                               uncertainty_script)))))%Z.
Proof.
  split; [vm_compute; reflexivity|].
  apply (passes_beyond_max_iterations scripted_child scripted_complete
           (with_max_iterations 1 default_config) "/ws" 1 "request"
           (initial uncertainty_script)).
  vm_compute. reflexivity.
Defined.

(** A patch that is already in the history. *)
Lemma oscillation_ends_the_cycle_witness :
  exists log success msg σ',
    patch_stage scripted_child scripted_complete default_config "/ws" "request"
      first_shared_state (patch_message (diff_of "a")) (diff_of "a") 2
      (mkLocals 1 (diff_of "a") None [])
      (mkState (mkWorld ∅ (mkScript [] [] [] [])) [diff_of "a"] [] [])
    = (Ret Return,
       Emit (patch_ready (diff_of "a")) :: log ++ [Emit (cycle_complete success msg 2)], σ')
    /\ commands_run log = []
    /\ patchHistory σ' = [diff_of "a"].
Proof.
  edestruct (oscillation_ends_the_cycle scripted_child scripted_complete default_config
               "/ws" "request" first_shared_state (patch_message (diff_of "a"))
               (diff_of "a") 2 (mkLocals 1 (diff_of "a") None [])
               (mkState (mkWorld ∅ (mkScript [] [] [] [])) [diff_of "a"] [] []))
    as (log & success & msg & σ' & E & Hc & Hh & _).
  - eexists. vm_compute. reflexivity.
  - exists log, success, msg, σ'. split; [exact E|]. split; [exact Hc | exact Hh].
Defined.

(** The approval of the happy path. *)
Lemma approval_is_grounded_witness :
  approval_grounds default_config "/ws"
    (untagged (log_of (run_scripted default_config 10 happy_script)))
    (state_of (run_scripted default_config 10 happy_script)).
Proof.
  apply (approval_is_grounded scripted_child scripted_complete default_config "/ws" 10
           "request" (initial happy_script)
           (cycle_complete true [lit "Implementation approved! "; lit "s"] 1)).
  - vm_compute. tauto.
  - reflexivity.
Defined.

(** [Orchestrator.applyPatch] where [git apply] exits with code 0. *)
Lemma Orchestrator_applyPatch_reports_witness :
  exists log σ' before final,
    Orchestrator_applyPatch scripted_child default_config "/ws" (diff_of "a")
      (initial apply_success_script)
    = (Ret tt, log, σ')
    /\ log = before ++ [Emit final]
    /\ count is_error_obs before = 0%nat.
Proof.
  eexists _, _.
  edestruct (Orchestrator_applyPatch_reports scripted_child default_config "/ws"
               (diff_of "a") (initial apply_success_script))
    as (before & final & Hlog & Hquiet & _).
  - vm_compute. reflexivity.
  - exists before, final. split; [reflexivity|]. split; [exact Hlog | exact Hquiet].
Defined.


(** A stream of the OpenAI back end with an empty item in it, read with
    a callback. *)
Lemma complete_is_concatenation_witness :
  provider_complete (LLMProvider := createProvider openai) true
    (Next (Some "{") (Next None (Next (Some "") (Next (Some "}") Done))))
  = (["{"; "}"], Ret "{}")
  /\ "{}" = String.concat "" ["{"; "}"]
  /\ snd (provider_complete (LLMProvider := createProvider openai) false
            (Next (Some "{") (Next None (Next (Some "") (Next (Some "}") Done)))))
     = Ret "{}"
  /\ (openai = openai -> Forall (fun chunk => chunk <> "") ["{"; "}"]).
Proof.
  split; [reflexivity|].
  apply (complete_is_concatenation openai true
           (Next (Some "{") (Next None (Next (Some "") (Next (Some "}") Done))))).
  reflexivity.
Defined.

(** ** A cycle that does not end *)

Lemma tally_chars (P : ascii -> bool) (n : nat) :
  P "i"%char = true -> forallb P (chars (tally n)) = true.
Proof.
  intros HP. induction n as [|n IH]; [reflexivity|].
  cbn [tally chars forallb]. rewrite HP, IH. reflexivity.
Qed.

Lemma tally_inj (n m : nat) : tally n = tally m -> n = m.
Proof.
  revert m. induction n as [|n IH]; intros [|m]; cbn [tally]; intros H;
    try reflexivity; try discriminate.
  inversion H. f_equal. apply IH. assumption.
Qed.

Lemma fresh_line_chars (P : ascii -> bool) (n : nat) (line : string) :
  P "i"%char = true ->
  Forall (fun prefix => forallb P (chars prefix) = true) fresh_prefixes ->
  In line (fresh_lines n) -> forallb P (chars line) = true.
Proof.
  intros HP Hpre Hin. unfold fresh_lines in Hin. apply in_map_iff in Hin as (prefix & <- & Hin).
  rewrite chars_app, forallb_app, (tally_chars P n HP), andb_true_r.
  rewrite List.Forall_forall in Hpre. apply Hpre. exact Hin.
Qed.

Lemma fresh_lines_split (n : nat) : split newline (fresh_patch n) = fresh_lines n.
Proof.
  unfold fresh_patch, lines. apply (split_join newline); [discriminate|].
  apply List.Forall_forall. intros line Hin.
  apply (fresh_line_chars _ n line); [reflexivity | | exact Hin].
  repeat constructor.
Qed.

(** No line of a patch is a line of another. *)
Lemma fresh_lines_apart (n m : nat) (line : string) :
  In line (fresh_lines n) -> In line (fresh_lines m) -> n = m.
Proof.
  unfold fresh_lines, fresh_prefixes. cbn [map In].
  intros Hn Hm.
  repeat (destruct Hn as [Hn | Hn]; [| try contradiction]);
    repeat (destruct Hm as [Hm | Hm]; [| try contradiction]);
    subst line; cbv [String.append] in Hm; fold String.append in Hm;
    try discriminate;
    inversion Hm; symmetry; apply tally_inj; assumption.
Qed.

Lemma fresh_patch_inj (n m : nat) : fresh_patch n = fresh_patch m -> n = m.
Proof.
  intros H. apply (f_equal (split newline)) in H. rewrite !fresh_lines_split in H.
  apply (fresh_lines_apart n m ("--- a/src/f" +:+ tally n)); [left; reflexivity|].
  rewrite <- H. left. reflexivity.
Qed.

Lemma fresh_line_sets_apart (n m : nat) :
  n <> m -> line_set (fresh_patch n) ∩ line_set (fresh_patch m) = ∅.
Proof.
  intros Hne. unfold line_set. rewrite !fresh_lines_split.
  apply leibniz_equiv. apply elem_of_equiv_empty. intros line Hin.
  apply elem_of_intersection in Hin as [Hn Hm].
  apply elem_of_list_to_set in Hn, Hm.
  apply Hne. apply (fresh_lines_apart n m line).
  - apply list_elem_of_In. exact Hn.
  - apply list_elem_of_In. exact Hm.
Qed.

(** A patch that the builder has not sent yet is no oscillation. *)
Lemma fresh_patch_no_oscillation (k : nat) (history : list string) :
  sent_before k history -> oscillation history (fresh_patch k) = None.
Proof.
  intros Hs. unfold oscillation.
  assert (Hinc : includes history (fresh_patch k) = false).
  { unfold includes. apply not_true_iff_false. intros H.
    apply existsb_exists in H as (p & Hin & Hp). apply String.eqb_eq in Hp. subst p.
    unfold sent_before in Hs. rewrite List.Forall_forall in Hs.
    destruct (Hs _ Hin) as (j & Hj & E). apply fresh_patch_inj in E. lia. }
  rewrite Hinc. destruct (2 <=? length history)%nat; [| reflexivity].
  destruct (last history) as [p|] eqn:El; [| reflexivity].
  assert (Hp : exists j, (j < k)%nat /\ p = fresh_patch j).
  { unfold sent_before in Hs. rewrite List.Forall_forall in Hs. apply Hs.
    apply last_Some in El as (l' & ->). apply in_or_app. right. left. reflexivity. }
  destruct Hp as (j & Hj & ->).
  unfold patchSimilarity.
  destruct (String.eqb_spec (fresh_patch j) (fresh_patch k)) as [E | _];
    [apply fresh_patch_inj in E; lia|].
  cbv zeta. rewrite (fresh_line_sets_apart j k) by lia. rewrite size_empty.
  reflexivity.
Qed.

(** The guard accepts every patch of the builder. *)
Lemma fresh_path_allowed (n : nat) :
  isPathAllowed ["src/"] ("src/f" +:+ tally n) = Ret true.
Proof.
  unfold isPathAllowed.
  change ("src/f" +:+ tally n) with (join "/" ["src"; "f" +:+ tally n]).
  rewrite path_normalize_names; [| discriminate |].
  - cbn [some_allowed]. unfold allowed_by.
    unfold RegExp_anchored_test.
    replace (existsb outside_fragment (chars (replace_stars "src/"))) with false
      by reflexivity.
    let r := eval vm_compute in (parse_terms (replace_stars "src/")) in
    change (parse_terms (replace_stars "src/")) with r.
    cbv iota.
    replace (startsWith (join "/" ["src"; "f" +:+ tally n]) "src/") with true by reflexivity.
    rewrite orb_true_r. reflexivity.
  - repeat constructor. unfold listed_name, plain_name.
    rewrite chars_app, forallb_app, tally_chars by reflexivity. reflexivity.
Qed.

Lemma header_paths_one (line p : string) :
  In p (header_paths line) -> header_paths line = [p].
Proof.
  unfold header_paths. destruct (startsWith line "--- " || startsWith line "+++ "); [| intros []].
  destruct (header_match line) as [q|]; [| intros []].
  destruct (negb (String.eqb q "/dev/null")); [| intros []].
  intros [-> | []]. reflexivity.
Qed.

Lemma fresh_touched_paths (n : nat) :
  touched_paths (fresh_patch n) = ["src/f" +:+ tally n; "src/f" +:+ tally n].
Proof.
  assert (Hp : forall prefix, In prefix ["--- a/"; "+++ b/"] ->
                              header_paths (prefix +:+ ("src/f" +:+ tally n))
                              = ["src/f" +:+ tally n]).
  { intros prefix Hin. apply header_paths_one. apply header_paths_spec.
    split; [exists prefix; split; [| reflexivity] |].
    - unfold header_prefixes. cbn [In] in *. tauto.
    - split; [discriminate|]. split; [discriminate|].
      rewrite chars_app, forallb_app, tally_chars by reflexivity. reflexivity. }
  unfold touched_paths. rewrite fresh_lines_split.
  unfold fresh_lines, fresh_prefixes. cbn [map flat_map].
  change ("--- a/src/f" +:+ tally n) with ("--- a/" +:+ ("src/f" +:+ tally n)).
  change ("+++ b/src/f" +:+ tally n) with ("+++ b/" +:+ ("src/f" +:+ tally n)).
  rewrite !Hp by (cbn [In]; tauto).
  reflexivity.
Qed.

Lemma fresh_patch_valid (n : nat) :
  validatePatch ["src/"] (fresh_patch n) = Ret (mkValidation true None).
Proof.
  unfold validatePatch. rewrite fresh_touched_paths. cbn [check_paths].
  rewrite fresh_path_allowed. reflexivity.
Qed.

Lemma fresh_patch_truthy (n : nat) : truthy (Some (fresh_patch n)) = Some (fresh_patch n).
Proof. reflexivity. Qed.

Lemma sent_before_next (k : nat) (history : list string) :
  sent_before k history -> sent_before (S k) (history ++ [fresh_patch k]).
Proof.
  intros Hs. unfold sent_before in *. apply Forall_app. split.
  - eapply Forall_impl; [exact Hs|]. cbv beta. intros p (j & Hj & ->). exists j. split; [lia | reflexivity].
  - constructor; [| constructor]. exists k. split; [lia | reflexivity].
Qed.

Lemma restless_pass (l : Locals) (σ : @State nat) (k : nat) :
  iteration l = 0%Z -> ext (world σ) = k -> sent_before k (patchHistory σ) ->
  exists l' log σ',
    iteration_body restless_child restless_complete restless_config "/ws" "request" l σ
    = (Ret (Continue l'), log, σ')
    /\ iteration l' = 0%Z
    /\ ext (world σ') = S k
    /\ sent_before (S k) (patchHistory σ').
Proof.
  destruct σ as [[f e] hist rh bms], l as [i lp lto oi].
  cbn [iteration world ext patchHistory]. intros -> -> Hs.
  unfold iteration_body, patch_stage, detectOscillation, applyPatch.
  cbv [bind get ret lift emit observe push_patch push_builderMessage buildSharedState
       complete_streaming restless_complete parseJSON writeFileSync unlinkSync execa
       restless_child].
  cbn -[fresh_patch validatePatch oscillation truthy insert delete lookup tempPatchFile
        run_tests_phase after_tests].
  rewrite fresh_patch_truthy.
  cbn -[fresh_patch validatePatch oscillation truthy insert delete lookup tempPatchFile
        run_tests_phase after_tests].
  rewrite (fresh_patch_no_oscillation k hist Hs).
  cbn -[fresh_patch validatePatch oscillation truthy insert delete lookup tempPatchFile
        run_tests_phase after_tests].
  rewrite fresh_patch_valid.
  cbn -[fresh_patch validatePatch oscillation truthy insert delete lookup tempPatchFile
        run_tests_phase after_tests].
  rewrite lookup_insert_eq.
  cbn -[fresh_patch validatePatch oscillation truthy insert delete lookup tempPatchFile
        run_tests_phase after_tests].
  unfold run_tests_phase, after_tests, review_stage, interpret_review, runDiagnostics,
    runCommand, shouldRunReviewer.
  cbv [bind get ret lift emit observe push_review complete_streaming restless_complete
       parseJSON execa restless_child run_commands runDiagnostics_loop].
  cbn -[fresh_patch insert delete lookup tempPatchFile].
  eexists _, _, _. split; [reflexivity|].
  cbn [iteration world ext patchHistory set_world set_files].
  split; [reflexivity|]. split; [reflexivity|].
  apply sent_before_next. exact Hs.
Qed.

(** X27.  [runCycle] need not return.  With a builder that sends a new
    patch at each call, each an allowed diff that shares no line with
    another, commands that all exit with code 0, and a reviewer that always
    blocks for uncertainty with an empty list of diagnostics, the loop is
    still running after any number of passes: each pass ends in a
    diagnostic round, which takes back the step that the pass has made
    towards [max_iterations]. *)
Theorem restless_cycle_goes_on (fuel : nat) :
  outcome_of (runCycle restless_child restless_complete restless_config "/ws" fuel "request"
                (mkState (mkWorld ∅ 0%nat) [] [] []))
  = Ret OutOfFuel.
Proof.
  unfold runCycle.
  assert (H : forall l (σ : @State nat),
             iteration l = 0%Z ->
             sent_before (ext (world σ)) (patchHistory σ) ->
             outcome_of (cycle_loop restless_child restless_complete restless_config "/ws"
                           fuel "request" l σ) = Ret OutOfFuel).
  { induction fuel as [|fuel IH]; intros l σ Hi Hs; cbn [cycle_loop]; rewrite Hi.
    - reflexivity.
    - change (0 <? max_iterations restless_config)%Z with true. cbv iota.
      destruct (restless_pass l σ _ Hi eq_refl Hs) as (l' & log & σ' & E & Hi' & He & Hs').
      rewrite E. rewrite <- He in Hs'. specialize (IH l' σ' Hi' Hs').
      destruct (cycle_loop _ _ _ _ fuel "request" l' σ') as [[r log'] σ2].
      exact IH. }
  specialize (H (mkLocals 0 "" None []) (mkState (mkWorld ∅ 0%nat) [] [] []) eq_refl).
  cbn [world ext patchHistory] in H. specialize (H (Forall_nil_2 _)).
  destruct (cycle_loop _ _ _ _ fuel "request" _ _) as [[r log] σ]. exact H.
Qed.
